(** * Timeline compiler and render-plan builder of the reel generator

    A shallow embedding of [reel_generator/caption_generator.py],
    [reel_generator/video_builder.py], [reel_generator/main.py],
    [reel_generator/utils.py] and of
    [src/services/faceless_video_service.py], with their callers in
    [langgraph_pipeline.py] and [src/agents/faceless_reel_agent.py], and
    with the properties of the specification stated over it.

    Conventions of the embedding.
    - Python [float] durations are exact rationals ([Q]); the rounding of
      binary floating point is not modelled, and equalities between
      durations are rational equalities ([==]).  The one exception is
      [format_timestamp], whose digits depend on the rounding: there the
      product and the quotients are rounded to binary64 ([Binary64]).
    - Python [str] values that are scanned character by character are
      [list ascii] (code points 0..255); paths, which are only compared,
      are [string].
    - Every f-string that is appended to [filter_parts] is one constructor
      of [filter_part]; a numeric hole keeps its value together with its
      format ([F2] for [:.2f], [FRepr] for the default rendering).
    - Python exceptions are the [Raise] case of [result].
    - What the code reads from its surroundings (files that exist, the
      outcome of the ffmpeg and ffprobe subprocesses) is a [world]; what
      it logs and runs is a list of [event]s.
    - Of the ffmpeg command of [build_video] the filter graph, the mapped
      labels and the encoder are modelled; the [-i] arguments are kept
      only as the stream numbers that the graph refers to.  Rendering of
      PNG files is an effect without a result that the graph depends
      on. *)

From Stdlib Require Import String Ascii List Bool Arith ZArith QArith Lia Lqa.
From Stdlib Require Import Qround Qabs DecimalString DecimalNat.
Import ListNotations.

Set Implicit Arguments.

Close Scope Q_scope.
Close Scope Z_scope.
Open Scope nat_scope.

(* ===================================================================== *)
(** * Exceptions                                                          *)
(* ===================================================================== *)

Inductive exn : Type :=
| ValueError (msg : string)
| RuntimeError (msg : string)
| FileNotFoundError (msg : string)
| IndexError
| ZeroDivisionError.

Inductive result (A : Type) : Type :=
| Ok (a : A)
| Raise (e : exn).

Arguments Ok {A} a.
Arguments Raise {A} e.

Definition bind {A B : Type} (m : result A) (k : A -> result B) : result B :=
  match m with
  | Ok a => k a
  | Raise e => Raise e
  end.

Notation "x <- m ;; k" := (bind m (fun x => k))
  (at level 61, m at next level, right associativity).
Notation "' p <- m ;; k" := (bind m (fun p => k))
  (at level 61, p pattern, m at next level, right associativity).

(** [for x in xs: acc = body(acc, x)], in the error monad. *)
Fixpoint for_each {A S : Type} (xs : list A) (body : S -> A -> result S)
  (acc : S) : result S :=
  match xs with
  | [] => Ok acc
  | x :: xs' => acc' <- body acc x ;; for_each xs' body acc'
  end.

(* ===================================================================== *)
(** * Python built-ins used by the sources                                *)
(* ===================================================================== *)

Module Py.

Definition str := list ascii.

(** [str.isspace] on one code point below 256: the characters for which
    CPython's [Py_UNICODE_ISSPACE] holds.  [str.strip()], [str.split()]
    and the regex class [\s] on [str] patterns all use it. *)
Definition isspace (c : ascii) : bool :=
  let n := nat_of_ascii c in
  ((9 <=? n) && (n <=? 13)) || ((28 <=? n) && (n <=? 32))
  || (n =? 133) || (n =? 160).

Fixpoint lstrip (s : str) : str :=
  match s with
  | [] => []
  | c :: s' => if isspace c then lstrip s' else s
  end.

Definition rstrip (s : str) : str := rev (lstrip (rev s)).

(** [s.strip()] *)
Definition strip (s : str) : str := rstrip (lstrip s).

(** Truth value of a string or of a list: non-empty. *)
Definition truthy {A : Type} (l : list A) : bool :=
  match l with [] => false | _ :: _ => true end.

(** [s.split()]: the maximal runs of non-whitespace characters.  [cur]
    is the run being read, most recent character first. *)
Fixpoint split_from (cur : str) (s : str) : list str :=
  match s with
  | [] => if truthy cur then [rev cur] else []
  | c :: s' =>
      if isspace c
      then (if truthy cur then rev cur :: split_from [] s'
            else split_from [] s')
      else split_from (c :: cur) s'
  end.

Definition split (s : str) : list str := split_from [] s.

(** The character class [[.!?]]. *)
Definition is_terminal (c : ascii) : bool :=
  (Ascii.eqb c "."%char) || (Ascii.eqb c "!"%char) || (Ascii.eqb c "?"%char).

(** [re.split(r'([.!?])\s*', text)].  The pattern never matches the empty
    string, so the scan is: text up to the next terminal character is a
    piece, the terminal character is the captured group, and the greedy
    [\s*] swallows the whitespace that follows.  [skipping] is true while
    that whitespace is being swallowed; [cur] is the piece being read,
    most recent character first. *)
Fixpoint re_split_from (skipping : bool) (cur : str) (s : str) : list str :=
  match s with
  | [] => [rev cur]
  | c :: s' =>
      if skipping && isspace c then re_split_from true cur s'
      else if is_terminal c then rev cur :: [c] :: re_split_from true [] s'
      else re_split_from false (c :: cur) s'
  end.

Definition re_split (text : str) : list str := re_split_from false [] text.

(** [range(start, stop, step)] for a positive step. *)
Definition range_step (start stop step : nat) : list nat :=
  map (fun k => start + k * step) (seq 0 ((stop - start + (step - 1)) / step)).

(** [range(n)] *)
Definition range (n : nat) : list nat := seq 0 n.

(** [l[i]] for an index that may be negative. *)
Definition index {A : Type} (l : list A) (i : Z) : result A :=
  let j := (if i <? 0 then i + Z.of_nat (length l) else i)%Z in
  if (j <? 0)%Z then Raise IndexError
  else match nth_error l (Z.to_nat j) with
       | Some a => Ok a
       | None => Raise IndexError
       end.

(** [l[:n]] for [n >= 0]. *)
Definition prefix {A : Type} (l : list A) (n : nat) : list A := firstn n l.

(** [sum] of a list of integers. *)
Definition sum (l : list Z) : Z := fold_left Z.add l 0%Z.

(** True division [a / b] of two numbers. *)
Definition div (a b : Q) : result Q :=
  if Qeq_bool b 0%Q then Raise ZeroDivisionError else Ok (a / b)%Q.

(** [int(x)] of a float: truncation toward zero. *)
Definition int (x : Q) : Z := Z.quot (Qnum x) (Zpos (Qden x)).

(** [l[-1]] on a list known to be non-empty is [last]. *)
Definition last_item (l : list str) : str := last l [].

End Py.

(* ===================================================================== *)
(** * reel_generator/caption_generator.py                                 *)
(* ===================================================================== *)

Module CaptionGenerator.

Import Py.

(** [split_into_chunks(text)] *)
Definition split_into_chunks (text : str) : list str :=
  let chunks := re_split text in
  let processed_chunks :=
    flat_map
      (fun i =>
         let chunk := nth i chunks [] ++ nth (i + 1) chunks [] in
         if truthy (strip chunk) then [strip chunk] else [])
      (range_step 0 (length chunks - 1) 2) in
  if negb (length chunks mod 2 =? 0) && truthy (strip (last_item chunks))
  then processed_chunks ++ [strip (last_item chunks)]
  else processed_chunks.

(** The frames of [render_captions_to_images]: one per word of every chunk
    in typewriter mode, one per chunk otherwise ([word_steps] is
    [range(num_words)] or [[num_words - 1]]).  Only the number of frames
    and their [(chunk_idx, word_idx)] matter to the builder. *)
Definition word_steps (typewriter : bool) (num_words : nat) : list Z :=
  if typewriter then map Z.of_nat (range num_words)
  else [(Z.of_nat num_words - 1)%Z].

Definition render_captions_to_images (script : str) (typewriter : bool)
  : list (nat * Z) :=
  flat_map
    (fun '(chunk_idx, chunk) =>
       map (fun word_step => (chunk_idx, word_step))
           (word_steps typewriter (length (split chunk))))
    (combine (seq 0 (length (split_into_chunks script)))
             (split_into_chunks script)).

End CaptionGenerator.

(* ===================================================================== *)
(** * What the code reads from its surroundings                           *)
(* ===================================================================== *)

(** The ffmpeg invocations of the two builders, by the stage that issues
    them. *)
Inductive stage : Type :=
| stage_build_video
| stage_segment (i : nat)
| stage_xfade (i : nat)
| stage_black_clip.

Record world : Type := {
  path_exists : string -> bool;       (* os.path.exists *)
  path_isfile : string -> bool;       (* os.path.isfile *)
  darwin_videotoolbox : bool;         (* Darwin and h264_videotoolbox listed *)
  tts_succeeds : bool;                (* tts.generate_voiceover(...) *)
  audio_duration : string -> Q;       (* ffprobe of an audio file *)
  ffmpeg_succeeds : stage -> bool     (* exit status of a subprocess run *)
}.

Inductive zoom : Type := zoom_in | zoom_out.

(** What an ffmpeg run is asked to produce. *)
Inductive ffmpeg_job : Type :=
| job_build_video
| job_segment (img : string) (z : zoom) (zoompan_frames : Z) (t : Q)
              (out : string)
| job_xfade (a b : string) (transition : string) (duration offset : Q)
            (out : string)
| job_black_clip (duration : Q) (out : string).

(** What the code does to its surroundings, in program order. *)
Inductive log_message : Type :=
| msg_starting_pipeline
| msg_using_external_voiceover (path : string)
| msg_voiceover_duration (seconds : Q)
| msg_image_duration_very_short (seconds : Q)
| msg_reel_generation_complete
| msg_no_valid_images_black_placeholder.

Inductive event : Type :=
| log_info (m : log_message)
| log_warning (m : log_message)
| ran_tts (output_path : string)
| ran_ffprobe (path : string)
| rendered_captions (frames : nat)
| ran_ffmpeg (st : stage) (job : ffmpeg_job)
| renamed (src dst : string).

(** Computations that log and call out while they may raise: the events so
    far, and the value or the exception. *)
Definition M (A : Type) : Type := list event * result A.

Definition ret {A : Type} (a : A) : M A := ([], Ok a).

Definition raise {A : Type} (e : exn) : M A := ([], Raise e).

Definition emit (e : event) : M unit := ([e], Ok tt).

Definition lift {A : Type} (r : result A) : M A := ([], r).

Definition bindM {A B : Type} (m : M A) (k : A -> M B) : M B :=
  match m with
  | (evs, Ok a) => let '(evs', r) := k a in (evs ++ evs', r)
  | (evs, Raise e) => (evs, Raise e)
  end.

Notation "x <~ m ;; k" := (bindM m (fun x => k))
  (at level 61, m at next level, right associativity).
Notation "m ;;; k" := (bindM m (fun _ => k))
  (at level 61, right associativity).

Definition events {A : Type} (m : M A) : list event := fst m.
Definition outcome {A : Type} (m : M A) : result A := snd m.

(** [for x in xs: acc = body(acc, x)], with effects. *)
Fixpoint for_eachM {A S : Type} (xs : list A) (body : S -> A -> M S)
  (acc : S) : M S :=
  match xs with
  | [] => ret acc
  | x :: xs' => acc' <~ body acc x ;; for_eachM xs' body acc'
  end.

Definition string_of_nat (n : nat) : string :=
  NilZero.string_of_uint (Nat.to_uint n).

(** [os.path.join(a, b)] for a relative [b]. *)
Definition path_join (a b : string) : string := (a ++ "/" ++ b)%string.

(* ===================================================================== *)
(** * reel_generator/video_builder.py                                     *)
(* ===================================================================== *)

Module VideoBuilder.

Import Py.

Definition ZOOMPAN_FPS : Z := 30.

Definition TRANSITION_STYLES : list string := ["fadeblack"%string].

(** The two local constants of [build_video]. *)
Definition TRANSITION_DURATION : Q := 1.
Definition INTRO_DURATION : Q := 3.

Definition overlay_path : string := "assets/main_overlay.png".

(** One entry of [config["segments"]]. *)
Record segment : Type := {
  seg_title : string;
  seg_voice_duration : Q
}.

(** The [config] dictionary.  A key read with [config[...]] is a plain
    field, a key read with [config.get(...)] is optional. *)
Record config : Type := {
  intro_image : string;
  outro_image : string;
  middle_images : list string;
  voiceover_audio : string;
  caption_images : option (list string);
  title : option string;
  script : option str;
  segments : option (list segment);
  use_overlay : option bool
}.

(** [config.get(key, default)] *)
Definition get {A : Type} (field : option A) (default : A) : A :=
  match field with Some a => a | None => default end.

(** Labels of the filter graph, one constructor per naming pattern. *)
Inductive label : Type :=
| v (i : nat)                (* v{i} *)
| v_join (i : nat)           (* v_join_{i} *)
| v_base_middle
| v_cap (i : nat)            (* v_cap{i} *)
| v_captioned
| v_title (i : nat)          (* v_title_{seg_i} *)
| v_titled
| ov_scaled
| v_framed
| v_final
| a_delayed.

(** A number printed into the graph: [{x:.2f}] or [{x}]. *)
Inductive number : Type :=
| F2 (x : Q)
| FRepr (x : Q).

Definition value (n : number) : Q :=
  match n with F2 x => x | FRepr x => x end.

Inductive filter_part : Type :=
(** [[i:v]scale=1080:1920:...,crop=1080:1920,fps=..,setsar=1[v{i}]] *)
| scale_crop (i : nat)
(** [[i:v]scale=1280:2275:...,crop=1280:2120,zoompan=..:d={d}:..,
    setsar=1[v{i}]] *)
| scale_zoompan (i : nat) (z : zoom) (d : Z)
(** [[a][b]xfade=transition=..:duration=..:offset=..[out]] *)
| xfade (a b : label) (transition : string) (duration offset : number)
        (out : label)
(** [[a]null[out]] *)
| null (a out : label)
(** [[a][n:v]overlay=0:0:enable='between(t,t0,t1)'[out]] *)
| overlay_between (a : label) (n : nat) (t0 t1 : number) (out : label)
(** [[n:v]scale=1080:1920[ov_scaled]] *)
| scale_overlay (n : nat)
(** [[a][b]overlay=0:0[out]] *)
| overlay (a b out : label)
(** [[n:a]atrim=0:{e},asetpts=PTS-STARTPTS,adelay={l}|{r}[a_delayed]] *)
| atrim_adelay (n : nat) (e : number) (l r : Z).

(** ** Timing math *)

Definition outro_offset (voice_duration : Q) : Q :=
  (INTRO_DURATION + voice_duration)%Q.

Definition per_image_duration (voice_duration : Q) (num_middle : nat) : Q :=
  if 0 <? num_middle
  then ((voice_duration + TRANSITION_DURATION) / inject_Z (Z.of_nat num_middle)
        + TRANSITION_DURATION)%Q
  else 5%Q.

(** ** The scale / zoompan chain of every input *)

Definition input_part (intro_img outro_img : string) (per_image : Q)
  (i : nat) (img : string) : filter_part :=
  if String.eqb img intro_img then scale_crop i
  else if String.eqb img outro_img then scale_crop i
  else
    let zoompan_frames := int (per_image * inject_Z ZOOMPAN_FPS)%Q in
    let img_index := (Z.of_nat i - 1)%Z in
    if (img_index mod 2 =? 0)%Z
    then scale_zoompan i zoom_in zoompan_frames
    else scale_zoompan i zoom_out zoompan_frames.

Definition enumerate {A : Type} (l : list A) : list (nat * A) :=
  combine (seq 0 (length l)) l.

(** ** Transitions: intro + middle images *)

Record join_state : Type := {
  join_parts : list filter_part;
  last_label : label;
  cumulative_duration : Q
}.

Definition transition_style (k : nat) : string :=
  nth (k mod length TRANSITION_STYLES) TRANSITION_STYLES EmptyString.

Definition join_step (per_image : Q) (st : join_state) (i : nat) : join_state :=
  let next_label := v_join i in
  let offset := (cumulative_duration st - TRANSITION_DURATION)%Q in
  let transition := transition_style (i - 1) in
  {| join_parts :=
       join_parts st ++
       [xfade (last_label st) (v i) transition
              (FRepr TRANSITION_DURATION) (F2 offset) next_label];
     last_label := next_label;
     cumulative_duration :=
       (cumulative_duration st + (per_image - TRANSITION_DURATION))%Q |}.

(** [for i in range(1, len(inputs) - 1)] *)
Definition join_loop (per_image : Q) (num_inputs : nat) : join_state :=
  fold_left (join_step per_image) (seq 1 (num_inputs - 2))
    {| join_parts := []; last_label := v 0;
       cumulative_duration := INTRO_DURATION |}.

(** ** Caption windows *)

(** [chunk_word_counts = [max(len(c.split()), 1) for c in chunks]] *)
Definition chunk_word_counts (chunks : list str) : list Z :=
  map (fun c => Z.max (Z.of_nat (length (split c))) 1) chunks.

Record window_state : Type := {
  chunk_windows_acc : list (Q * Q);
  t_acc : Q
}.

Definition window_step (total_words : Z) (caption_window : Q)
  (st : window_state) (cw : Z) : result window_state :=
  fraction <- div (inject_Z cw) (inject_Z total_words) ;;
  Ok {| chunk_windows_acc :=
          chunk_windows_acc st ++
          [(t_acc st, (t_acc st + fraction * caption_window)%Q)];
        t_acc := (t_acc st + fraction * caption_window)%Q |}.

(** The loop that fills [chunk_windows], with [t] starting at
    [caption_start]. *)
Definition chunk_windows_loop (caption_start caption_window : Q)
  (counts : list Z) : result window_state :=
  for_each counts (window_step (sum counts) caption_window)
    {| chunk_windows_acc := []; t_acc := caption_start |}.

Definition compute_chunk_windows (caption_start caption_window : Q)
  (chunks : list str) : result (list (Q * Q)) :=
  st <- chunk_windows_loop caption_start caption_window
          (chunk_word_counts chunks) ;;
  Ok (chunk_windows_acc st).

(** ** Typewriter mode: which chunk and word a frame belongs to *)

Record locate_state : Type := {
  chunk_idx : nat;
  word_idx : nat;
  frame_counter : nat;
  found : bool
}.

(** [for wi in range(words_in_chunk)], leaving the loop at [break]. *)
Fixpoint scan_words (i ci : nat) (wis : list nat) (st : locate_state)
  : locate_state :=
  match wis with
  | [] => st
  | wi :: wis' =>
      if frame_counter st =? i
      then {| chunk_idx := ci; word_idx := wi;
              frame_counter := frame_counter st; found := true |}
      else scan_words i ci wis'
             {| chunk_idx := chunk_idx st; word_idx := word_idx st;
                frame_counter := frame_counter st + 1; found := found st |}
  end.

(** [for ci, chunk in enumerate(chunks)], leaving the loop once found. *)
Fixpoint scan_chunks (i : nat) (cs : list (nat * str)) (st : locate_state)
  : locate_state :=
  match cs with
  | [] => st
  | (ci, chunk) :: cs' =>
      let words_in_chunk := length (split chunk) in
      let st' := scan_words i ci (range words_in_chunk) st in
      if found st' then st' else scan_chunks i cs' st'
  end.

Definition locate_frame (chunks : list str) (i : nat) : locate_state :=
  scan_chunks i (enumerate chunks)
    {| chunk_idx := 0; word_idx := 0; frame_counter := 0; found := false |}.

(** [char_weights = [max(len(w), 2) for w in chunk_words]] *)
Definition char_weights (chunk_words : list str) : list Z :=
  map (fun w => Z.max (Z.of_nat (length w)) 2) chunk_words.

(** The window [(t0, t1)] of the word [word_idx] of a chunk shown during
    [chunk_window]. *)
Definition word_window (chunk_window : Q * Q) (chunk_words : list str)
  (word_idx : nat) : result (Q * Q) :=
  let '(chunk_start_t, chunk_end_t) := chunk_window in
  let chunk_dur := (chunk_end_t - chunk_start_t)%Q in
  let weights := char_weights chunk_words in
  let total_chars := sum weights in
  f0 <- div (inject_Z (sum (prefix weights word_idx))) (inject_Z total_chars) ;;
  f1 <- div (inject_Z (sum (prefix weights (word_idx + 1))))
            (inject_Z total_chars) ;;
  Ok ((chunk_start_t + f0 * chunk_dur)%Q, (chunk_start_t + f1 * chunk_dur)%Q).

(** The window of caption frame [i] in typewriter mode. *)
Definition typewriter_window (chunks : list str) (chunk_windows : list (Q * Q))
  (i : nat) : result (Q * Q) :=
  let loc := locate_frame chunks i in
  chunk_window <- index chunk_windows (Z.of_nat (chunk_idx loc)) ;;
  chunk <- index chunks (Z.of_nat (chunk_idx loc)) ;;
  word_window chunk_window (split chunk) (word_idx loc).

(** The window of caption frame [i] in static mode. *)
Definition static_window (chunk_windows : list (Q * Q)) (i : nat)
  : result (Q * Q) :=
  let chunk_i := Z.min (Z.of_nat i) (Z.of_nat (length chunk_windows) - 1) in
  index chunk_windows chunk_i.

Record overlay_state : Type := {
  overlay_parts : list filter_part;
  curr_v : label
}.

Definition caption_step (caption_start_idx : nat)
  (window_of : nat -> result (Q * Q)) (st : overlay_state) (i : nat)
  : result overlay_state :=
  let cap_idx := caption_start_idx + i in
  '(t0, t1) <- window_of i ;;
  let nxt := v_cap i in
  Ok {| overlay_parts :=
          overlay_parts st ++
          [overlay_between (curr_v st) cap_idx (F2 t0) (F2 t1) nxt];
        curr_v := nxt |}.

(** The caption stage: the parts it appends to [filter_parts]. *)
Definition caption_stage (cfg : config) (voice_duration : Q)
  (caption_start_idx : nat) : result (list filter_part) :=
  let num_captions := length (get (caption_images cfg) []) in
  let caption_start := INTRO_DURATION in
  let caption_end := outro_offset voice_duration in
  if (0 <? num_captions) && negb (Qle_bool caption_end caption_start) then
    let caption_window := (caption_end - caption_start)%Q in
    let script_text := get (script cfg) [] in
    let chunks := CaptionGenerator.split_into_chunks script_text in
    chunk_windows <-
      compute_chunk_windows caption_start caption_window chunks ;;
    let is_typewriter := length chunks <? num_captions in
    let window_of :=
      if is_typewriter then typewriter_window chunks chunk_windows
      else static_window chunk_windows in
    st <- for_each (range num_captions)
            (caption_step caption_start_idx window_of)
            {| overlay_parts := []; curr_v := v_base_middle |} ;;
    Ok (overlay_parts st ++ [null (curr_v st) v_captioned])
  else
    Ok [null v_base_middle v_captioned].

(** ** Title overlays *)

Record title_state : Type := {
  title_parts : list filter_part;
  title_curr_v : label;
  title_next_input_idx : nat;
  seg_start : Q
}.

Definition title_step (st : title_state) (entry : nat * segment)
  : title_state :=
  let '(seg_i, seg) := entry in
  let seg_end := (seg_start st + seg_voice_duration seg)%Q in
  let nxt := v_title seg_i in
  {| title_parts :=
       title_parts st ++
       [overlay_between (title_curr_v st) (title_next_input_idx st)
          (F2 (seg_start st)) (F2 seg_end) nxt];
     title_curr_v := nxt;
     title_next_input_idx := title_next_input_idx st + 1;
     seg_start := seg_end |}.

(** The title stage: the parts it appends, [pre_outro_label] and
    [next_input_idx] after it. *)
Definition title_stage (cfg : config) (voice_duration : Q)
  (next_input_idx : nat) : list filter_part * label * nat :=
  let title_text := get (title cfg) EmptyString in
  let caption_start := INTRO_DURATION in
  if truthy (get (segments cfg) []) then
    let st := fold_left title_step (enumerate (get (segments cfg) []))
                {| title_parts := []; title_curr_v := v_captioned;
                   title_next_input_idx := next_input_idx;
                   seg_start := INTRO_DURATION |} in
    (title_parts st, title_curr_v st, title_next_input_idx st)
  else if negb (String.eqb title_text EmptyString) then
    ([overlay_between v_captioned next_input_idx (FRepr caption_start)
        (F2 (outro_offset voice_duration)) v_titled],
     v_titled, next_input_idx + 1)
  else ([], v_captioned, next_input_idx).

(** ** News frame overlay *)

Definition frame_stage (w : world) (cfg : config) (pre_outro_label : label)
  (next_input_idx : nat) : list filter_part * label * nat :=
  if get (use_overlay cfg) true && path_exists w overlay_path then
    ([scale_overlay next_input_idx;
      overlay pre_outro_label ov_scaled v_framed],
     v_framed, next_input_idx + 1)
  else ([], pre_outro_label, next_input_idx).

(** ** The whole [filter_parts] list *)

Definition inputs (cfg : config) : list string :=
  [intro_image cfg] ++ middle_images cfg ++ [outro_image cfg].

Definition filter_graph (w : world) (cfg : config) (voice_duration : Q)
  : result (list filter_part) :=
  let num_middle := length (middle_images cfg) in
  let per_image := per_image_duration voice_duration num_middle in
  let inputs := inputs cfg in
  let caption_start_idx := length inputs + 1 in
  let scaled :=
    map (fun '(i, img) =>
           input_part (intro_image cfg) (outro_image cfg) per_image i img)
        (enumerate inputs) in
  let joined := join_loop per_image (length inputs) in
  captions <- caption_stage cfg voice_duration caption_start_idx ;;
  let next_input_idx :=
    length inputs + 1 + length (get (caption_images cfg) []) in
  let '(titles, pre_outro_label, next_input_idx) :=
    title_stage cfg voice_duration next_input_idx in
  let '(framed, pre_outro_label, next_input_idx) :=
    frame_stage w cfg pre_outro_label next_input_idx in
  let outro_idx := length inputs - 1 in
  let outro_transition := transition_style (outro_idx - 1) in
  let audio_idx := length inputs in
  Ok (scaled
      ++ join_parts joined
      ++ [null (last_label joined) v_base_middle]
      ++ captions
      ++ titles
      ++ framed
      ++ [xfade pre_outro_label (v outro_idx) outro_transition
            (FRepr TRANSITION_DURATION) (F2 (outro_offset voice_duration))
            v_final]
      ++ [atrim_adelay audio_idx (F2 voice_duration) 3000 3000]).

(** ** The ffmpeg command and the return value *)

(** [_detect_hw_encoder()] *)
Definition _detect_hw_encoder (w : world) : string :=
  if darwin_videotoolbox w then "h264_videotoolbox"%string
  else "libx264"%string.

(** The command line after the [-i] arguments: the filter graph, the two
    mapped labels, the encoder and its options. *)
Record command : Type := {
  filter_complex : list filter_part;
  map_video : label;
  map_audio : label;
  video_codec : string;
  encoder_options : list string
}.

Definition assemble_command (w : world) (parts : list filter_part) : command :=
  {| filter_complex := parts;
     map_video := v_final;
     map_audio := a_delayed;
     video_codec := _detect_hw_encoder w;
     encoder_options :=
       if String.eqb (_detect_hw_encoder w) "h264_videotoolbox"%string
       then ["-b:v"; "5M"]%string else ["-preset"; "medium"]%string |}.

(** [build_video(config, voice_duration, output_file, temp_dir)]: the
    command that is run and the boolean that is returned. *)
Definition build_video (w : world) (cfg : config) (voice_duration : Q)
  : result (command * bool) :=
  parts <- filter_graph w cfg voice_duration ;;
  Ok (assemble_command w parts, ffmpeg_succeeds w stage_build_video).

End VideoBuilder.

(* ===================================================================== *)
(** * reel_generator/main.py                                              *)
(* ===================================================================== *)

Module ReelGenerator.

Import Py.

(** The [config] dictionary of [generate]. *)
Record config : Type := {
  script : str;
  intro_image : string;
  outro_image : string;
  middle_images : list string;
  voiceover_audio : option string;
  title : option string
}.

(** The dictionary that [generate] returns. *)
Record reel : Type := {
  voice_duration : Q;
  per_image_duration : Q;
  final_video_duration : Q;
  output_file : string
}.

Definition too_short : exn :=
  ValueError "Voice duration too short (minimum 3 seconds)."%string.

Definition no_middle_images : exn :=
  ValueError "No middle images provided."%string.

(** Step 1 of [generate]: the voiceover file. *)
Definition select_voiceover (w : world) (temp_dir : string) (cfg : config)
  : M string :=
  let external_audio := voiceover_audio cfg in
  match external_audio with
  | Some p =>
      if negb (String.eqb p EmptyString) && path_exists w p
      then emit (log_info (msg_using_external_voiceover p)) ;;; ret p
      else
        let voiceover_path := path_join temp_dir "voiceover.mp3"%string in
        emit (ran_tts voiceover_path) ;;;
        if negb (tts_succeeds w)
        then raise (RuntimeError "Voiceover generation failed."%string)
        else ret voiceover_path
  | None =>
      let voiceover_path := path_join temp_dir "voiceover.mp3"%string in
      emit (ran_tts voiceover_path) ;;;
      if negb (tts_succeeds w)
      then raise (RuntimeError "Voiceover generation failed."%string)
      else ret voiceover_path
  end.

(** [get_audio_duration(file_path)] in the runs in which ffprobe prints a
    number, [audio_duration w file_path]; [Ffprobe.get_audio_duration]
    below has the failure of [float] on any other output. *)
Definition get_audio_duration (w : world) (file_path : string) : M Q :=
  emit (ran_ffprobe file_path) ;;; ret (audio_duration w file_path).

Definition caption_path (temp_dir : string) (frame_counter : nat) : string :=
  path_join temp_dir
    ("caption_" ++ string_of_nat frame_counter ++ ".png")%string.

(** [generate(config)] of a generator built with [temp_dir] and
    [output_dir]. *)
Definition generate (w : world) (temp_dir output_dir : string) (cfg : config)
  : M reel :=
  emit (log_info msg_starting_pipeline) ;;;
  (* 1. Voiceover Selection *)
  voiceover_path <~ select_voiceover w temp_dir cfg ;;
  (* 2. Measure Duration *)
  voice_duration <~ get_audio_duration w voiceover_path ;;
  emit (log_info (msg_voiceover_duration voice_duration)) ;;;
  if negb (Qle_bool 3 voice_duration) then raise too_short else
  (* 3. Timing Logic *)
  let num_middle := length (middle_images cfg) in
  if num_middle =? 0 then raise no_middle_images else
  let per_image_duration :=
    (voice_duration / inject_Z (Z.of_nat num_middle))%Q in
  (if negb (Qle_bool (1 # 2) per_image_duration)
   then emit (log_warning (msg_image_duration_very_short per_image_duration))
   else ret tt) ;;;
  (* 4. Caption Generation *)
  let caption_data :=
    CaptionGenerator.render_captions_to_images (script cfg) true in
  emit (rendered_captions (length caption_data)) ;;;
  let caption_images :=
    map (caption_path temp_dir) (range (length caption_data)) in
  (* 5. Video Generation *)
  let output_file := path_join output_dir "final_reel.mp4"%string in
  let builder_config :=
    {| VideoBuilder.intro_image := intro_image cfg;
       VideoBuilder.outro_image := outro_image cfg;
       VideoBuilder.middle_images := middle_images cfg;
       VideoBuilder.voiceover_audio := voiceover_path;
       VideoBuilder.caption_images := Some caption_images;
       VideoBuilder.title := Some (VideoBuilder.get (title cfg) EmptyString);
       VideoBuilder.script := Some (script cfg);
       VideoBuilder.segments := None;
       VideoBuilder.use_overlay := None |} in
  built <~ lift (VideoBuilder.build_video w builder_config voice_duration) ;;
  emit (ran_ffmpeg stage_build_video job_build_video) ;;;
  if negb (snd built)
  then raise (RuntimeError "Video construction failed."%string)
  else
    let final_video_duration := (3 + voice_duration + 3)%Q in
    emit (log_info msg_reel_generation_complete) ;;;
    ret {| voice_duration := voice_duration;
           per_image_duration := per_image_duration;
           final_video_duration := final_video_duration;
           output_file := output_file |}.

End ReelGenerator.

(* ===================================================================== *)
(** * src/services/faceless_video_service.py                              *)
(* ===================================================================== *)

Module FacelessVideoService.

Import Py.

Definition FPS : Z := 30.

Definition TRANSITION_STYLES : list string :=
  ["fadeblack"; "slideleft"; "diagtl"; "circlecrop"; "radial";
   "smoothleft"]%string.

(** [_run_ffmpeg(cmd, stage)] *)
Definition _run_ffmpeg (w : world) (job : ffmpeg_job) (st : stage) : M unit :=
  emit (ran_ffmpeg st job) ;;;
  if ffmpeg_succeeds w st then ret tt
  else raise (RuntimeError "FFmpeg failed"%string).

(** [_black_clip(duration, output)] *)
Definition _black_clip (w : world) (duration : Q) (output : string)
  : M string :=
  _run_ffmpeg w (job_black_clip duration output) stage_black_clip ;;;
  ret output.

Definition transition_style (k : nat) : string :=
  nth (k mod length TRANSITION_STYLES) TRANSITION_STYLES EmptyString.

(** Step 1 of [_build_slideshow], one image. *)
Definition segment_step (w : world) (tmp_dir : string) (per_image : Q)
  (segment_paths : list string) (entry : nat * string) : M (list string) :=
  let '(i, img) := entry in
  let seg := path_join tmp_dir ("seg_" ++ string_of_nat i ++ ".mp4")%string in
  let zoompan_frames := int (per_image * inject_Z FPS)%Q in
  let z := if i mod 2 =? 0 then zoom_in else zoom_out in
  _run_ffmpeg w (job_segment img z zoompan_frames per_image seg)
    (stage_segment i) ;;;
  ret (segment_paths ++ [seg]).

(** Step 2 of [_build_slideshow], one crossfade. *)
Definition xfade_step (w : world) (transition_dur : Q) (tmp_dir : string)
  (per_image : Q) (segment_paths : list string) (current : string) (i : nat)
  : M string :=
  let merged :=
    path_join tmp_dir ("merged_" ++ string_of_nat i ++ ".mp4")%string in
  let offset := (per_image - transition_dur)%Q in
  let transition := transition_style (i - 1) in
  _run_ffmpeg w
    (job_xfade current (nth i segment_paths EmptyString) transition
       transition_dur offset merged)
    (stage_xfade i) ;;;
  ret merged.

(** [_build_slideshow(images, total_duration, tmp_dir)] of a service whose
    [transition_dur] is given. *)
Definition _build_slideshow (w : world) (transition_dur : Q)
  (images : list string) (total_duration : Q) (tmp_dir : string) : M string :=
  let output := path_join tmp_dir "slideshow.mp4"%string in
  let valid := filter (path_isfile w) images in
  if negb (truthy valid) then
    emit (log_warning msg_no_valid_images_black_placeholder) ;;;
    _black_clip w total_duration output
  else
    let n := length valid in
    let per_image := (total_duration / inject_Z (Z.of_nat n))%Q in
    segment_paths <~
      for_eachM (VideoBuilder.enumerate valid)
        (segment_step w tmp_dir per_image) [] ;;
    if length segment_paths =? 1 then
      emit (renamed (nth 0 segment_paths EmptyString) output) ;;;
      ret output
    else
      current <~
        for_eachM (seq 1 (length segment_paths - 1))
          (xfade_step w transition_dur tmp_dir per_image segment_paths)
          (nth 0 segment_paths EmptyString) ;;
      emit (renamed current output) ;;;
      ret output.

End FacelessVideoService.

(* ===================================================================== *)
(** * src/agents/faceless_reel_agent.py                                   *)
(* ===================================================================== *)

Module FacelessReelAgent.

Import Py.

(** The checks at the head of [generate_reel]: the images that are passed
    on to [build_reel]. *)
Definition validate_images (w : world) (images : list string)
  (script_text audio_path : option string) : result (list string) :=
  if negb (truthy images)
  then Raise (ValueError "At least one image is required"%string)
  else
    match audio_path, script_text with
    | None, None =>
        Raise (ValueError
                 "Either script_text or audio_path must be provided"%string)
    | _, _ =>
        let valid_images := filter (path_isfile w) images in
        if negb (truthy valid_images)
        then Raise (FileNotFoundError "No valid image files found"%string)
        else Ok valid_images
    end.

End FacelessReelAgent.

(* ===================================================================== *)
(** * Readings of the loops that the proofs go through                    *)
(* ===================================================================== *)

Module Reading.

Import Py.

(** The pieces of [re.split] taken two at a time, as the loop of
    [split_into_chunks] and its trailing test take them. *)
Fixpoint chunks_of_pieces (pieces : list str) : list str :=
  match pieces with
  | [] => []
  | [a] => if truthy (strip a) then [strip a] else []
  | a :: b :: rest =>
      (if truthy (strip (a ++ b)) then [strip (a ++ b)] else [])
      ++ chunks_of_pieces rest
  end.

(** No terminal punctuation in a string. *)
Definition unterminated (x : str) : Prop :=
  forallb (fun c => negb (is_terminal c)) x = true.

(** Nothing left to strip on either side. *)
Definition stripped (x : str) : Prop := strip x = x.

(** The chunk windows as a closed recursion: every count gets its slice,
    starting where the previous one ended. *)
Fixpoint place (t caption_window : Q) (total_words : Z) (counts : list Z)
  : list (Q * Q) :=
  match counts with
  | [] => []
  | cw :: counts' =>
      let fraction := (inject_Z cw / inject_Z total_words)%Q in
      (t, (t + fraction * caption_window)%Q)
      :: place (t + fraction * caption_window)%Q caption_window total_words
           counts'
  end.

(** Where the last window of [place] ends. *)
Fixpoint place_end (t caption_window : Q) (total_words : Z) (counts : list Z)
  : Q :=
  match counts with
  | [] => t
  | cw :: counts' =>
      place_end (t + inject_Z cw / inject_Z total_words * caption_window)%Q
        caption_window total_words counts'
  end.

(** [tiles a ws b]: the windows [ws] follow one another from [a] to [b],
    each of positive width, each starting where the previous one ends. *)
Inductive tiles : Q -> list (Q * Q) -> Q -> Prop :=
| tiles_nil : forall a b, (a == b)%Q -> tiles a [] b
| tiles_cons : forall a t0 t1 ws b,
    (t0 == a)%Q -> (t0 < t1)%Q -> tiles t1 ws b ->
    tiles a ((t0, t1) :: ws) b.

Definition width (win : Q * Q) : Q := (snd win - fst win)%Q.

Definition Qsum (l : list Q) : Q := fold_right Qplus 0%Q l.

(** Number of words of the chunks before position [ci]: the frame number
    of the first word of chunk [ci] in typewriter mode. *)
Definition words_before (chunks : list str) (ci : nat) : nat :=
  list_sum (map (fun c => length (split c)) (firstn ci chunks)).

(** [cumCharWeight(0..k-1)]: the character weight of the first [k] words
    of a chunk, every word weighing [max(len(word), 2)]. *)
Definition cum_char_weight (words : list str) (k : nat) : Z :=
  sum (map (fun w => Z.max (Z.of_nat (length w)) 2) (firstn k words)).

Definition total_char_weight (words : list str) : Z :=
  cum_char_weight words (length words).

(** The window of the i-th word of a chunk shown during
    [[chunkStart, chunkEnd]], as the specification writes it. *)
Definition sub_window (chunkStart chunkEnd : Q) (words : list str) (i : nat)
  : Q * Q :=
  let chunkDuration := (chunkEnd - chunkStart)%Q in
  let totalCharWeight := total_char_weight words in
  ((chunkStart
    + inject_Z (cum_char_weight words i) / inject_Z totalCharWeight
      * chunkDuration)%Q,
   (chunkStart
    + inject_Z (cum_char_weight words (i + 1)) / inject_Z totalCharWeight
      * chunkDuration)%Q).

(** The cumulative duration after [k] passes of the transition loop. *)
Fixpoint cum_after (per_image : Q) (k : nat) : Q :=
  match k with
  | 0 => VideoBuilder.INTRO_DURATION
  | S k' =>
      (cum_after per_image k'
       + (per_image - VideoBuilder.TRANSITION_DURATION))%Q
  end.

(** The crossfade that pass [i = k + 1] of the transition loop appends. *)
Definition join_part_at (per_image : Q) (k : nat) : VideoBuilder.filter_part :=
  let i := S k in
  VideoBuilder.xfade
    (if k =? 0 then VideoBuilder.v 0 else VideoBuilder.v_join k)
    (VideoBuilder.v i)
    (VideoBuilder.transition_style (i - 1))
    (VideoBuilder.FRepr VideoBuilder.TRANSITION_DURATION)
    (VideoBuilder.F2 (cum_after per_image k
                      - VideoBuilder.TRANSITION_DURATION)%Q)
    (VideoBuilder.v_join i).

(** The label that a part of the graph defines. *)
Definition defines (p : VideoBuilder.filter_part) : VideoBuilder.label :=
  match p with
  | VideoBuilder.scale_crop i => VideoBuilder.v i
  | VideoBuilder.scale_zoompan i _ _ => VideoBuilder.v i
  | VideoBuilder.xfade _ _ _ _ _ out => out
  | VideoBuilder.null _ out => out
  | VideoBuilder.overlay_between _ _ _ _ out => out
  | VideoBuilder.scale_overlay _ => VideoBuilder.ov_scaled
  | VideoBuilder.overlay _ _ out => out
  | VideoBuilder.atrim_adelay _ _ _ _ => VideoBuilder.a_delayed
  end.

Definition is_audio (p : VideoBuilder.filter_part) : bool :=
  match p with
  | VideoBuilder.atrim_adelay _ _ _ _ => true
  | _ => false
  end.

Definition defines_final (p : VideoBuilder.filter_part) : bool :=
  match defines p with VideoBuilder.v_final => true | _ => false end.

Definition defines_captioned (p : VideoBuilder.filter_part) : bool :=
  match defines p with VideoBuilder.v_captioned => true | _ => false end.

(** A part that is neither the audio chain nor the definition of
    [v_captioned] or [v_final]. *)
Definition plain (p : VideoBuilder.filter_part) : Prop :=
  defines_final p = false /\ defines_captioned p = false
  /\ is_audio p = false.

(** The caption images and the script of a configuration agree: there
    is a chunk to show whenever a caption frame is overlaid. *)
Definition captions_consistent (cfg : VideoBuilder.config)
  (voice_duration : Q) : Prop :=
  length (VideoBuilder.get (VideoBuilder.caption_images cfg) []) = 0
  \/ (voice_duration <= 0)%Q
  \/ CaptionGenerator.split_into_chunks
       (VideoBuilder.get (VideoBuilder.script cfg) []) <> [].

Definition is_log (e : event) : bool :=
  match e with
  | log_info _ | log_warning _ => true
  | _ => false
  end.

(** An ffmpeg run of the slideshow whose zoom direction or transition
    style is the one its index selects: zoom in for an even image index,
    zoom out for an odd one; the style at position [(i - 1) mod 6] of the
    list for crossfade [i]. *)
Definition index_driven (e : event) : Prop :=
  match e with
  | ran_ffmpeg st (job_segment _ z _ _ _) =>
      exists i, st = stage_segment i
                /\ z = if Nat.even i then zoom_in else zoom_out
  | ran_ffmpeg st (job_xfade _ _ transition _ _ _) =>
      exists i, st = stage_xfade i /\ 1 <= i
                /\ nth_error FacelessVideoService.TRANSITION_STYLES
                     ((i - 1) mod 6) = Some transition
  | _ => True
  end.

(** Two surroundings for examples: one without any file, one in which
    only the news frame overlay exists.  In both every subprocess
    succeeds and ffprobe measures 3 seconds. *)
Definition world_without_files : world :=
  {| path_exists := fun _ => false;
     path_isfile := fun _ => false;
     darwin_videotoolbox := false;
     tts_succeeds := true;
     audio_duration := fun _ => 3%Q;
     ffmpeg_succeeds := fun _ => true |}.

Definition world_with_overlay : world :=
  {| path_exists := String.eqb VideoBuilder.overlay_path;
     path_isfile := String.eqb VideoBuilder.overlay_path;
     darwin_videotoolbox := false;
     tts_succeeds := true;
     audio_duration := fun _ => 3%Q;
     ffmpeg_succeeds := fun _ => true |}.

(** A builder configuration with the keys that the docstring of
    [build_video] lists, one middle image and no caption image. *)
Definition example_config : VideoBuilder.config :=
  {| VideoBuilder.intro_image := "intro.png";
     VideoBuilder.outro_image := "outro.png";
     VideoBuilder.middle_images := ["a.png"; "b.png"]%string;
     VideoBuilder.voiceover_audio := "voice.mp3";
     VideoBuilder.caption_images := None;
     VideoBuilder.title := None;
     VideoBuilder.script := None;
     VideoBuilder.segments := None;
     VideoBuilder.use_overlay := None |}.

(** The same with one caption image and no script. *)
Definition example_config_captions_only : VideoBuilder.config :=
  {| VideoBuilder.intro_image := "intro.png";
     VideoBuilder.outro_image := "outro.png";
     VideoBuilder.middle_images := ["a.png"; "b.png"]%string;
     VideoBuilder.voiceover_audio := "voice.mp3";
     VideoBuilder.caption_images := Some ["caption_0.png"%string];
     VideoBuilder.title := None;
     VideoBuilder.script := None;
     VideoBuilder.segments := None;
     VideoBuilder.use_overlay := None |}.

Definition text (x : string) : str := list_ascii_of_string x.

(** Surroundings in which every path is a file. *)
Definition world_with_all_files : world :=
  {| path_exists := fun _ => true;
     path_isfile := fun _ => true;
     darwin_videotoolbox := false;
     tts_succeeds := true;
     audio_duration := fun _ => 3%Q;
     ffmpeg_succeeds := fun _ => true |}.

(** The zoom direction or the transition style of an ffmpeg run of the
    slideshow. *)
Definition selection (e : event) : option (stage * string) :=
  match e with
  | ran_ffmpeg st (job_segment _ zoom_in _ _ _) =>
      Some (st, "zoom in"%string)
  | ran_ffmpeg st (job_segment _ zoom_out _ _ _) =>
      Some (st, "zoom out"%string)
  | ran_ffmpeg st (job_xfade _ _ transition _ _ _) => Some (st, transition)
  | _ => None
  end.

(** A configuration whose only middle image is the intro file again. *)
Definition example_config_intro_twice : VideoBuilder.config :=
  {| VideoBuilder.intro_image := "intro.png";
     VideoBuilder.outro_image := "outro.png";
     VideoBuilder.middle_images := ["intro.png"%string];
     VideoBuilder.voiceover_audio := "voice.mp3";
     VideoBuilder.caption_images := None;
     VideoBuilder.title := None;
     VideoBuilder.script := None;
     VideoBuilder.segments := None;
     VideoBuilder.use_overlay := None |}.

(** The scenario of the specification: four content images under a
    narration of 20 seconds. *)
Definition scenario_config : VideoBuilder.config :=
  {| VideoBuilder.intro_image := "intro.png";
     VideoBuilder.outro_image := "outro.png";
     VideoBuilder.middle_images := ["a.png"; "b.png"; "c.png"; "d.png"]%string;
     VideoBuilder.voiceover_audio := "voice.mp3";
     VideoBuilder.caption_images := None;
     VideoBuilder.title := None;
     VideoBuilder.script := None;
     VideoBuilder.segments := None;
     VideoBuilder.use_overlay := None |}.

(** A request to [generate] with two middle images. *)
Definition example_request : ReelGenerator.config :=
  {| ReelGenerator.script := text "Precision is our goal.";
     ReelGenerator.intro_image := "intro.png";
     ReelGenerator.outro_image := "outro.png";
     ReelGenerator.middle_images := ["img1.png"; "img2.png"]%string;
     ReelGenerator.voiceover_audio := None;
     ReelGenerator.title := None |}.

End Reading.

(* ===================================================================== *)
(** * Strings: strip, split and the regular expression                    *)
(* ===================================================================== *)

(* ===================================================================== *)
(** * Wiring of the filter graph                                          *)
(* ===================================================================== *)

Module Wiring.

Import Py VideoBuilder.

(** The labels that a part of the graph consumes: the [[a]] and [[b]] in
    front of its filter.  Input streams ([[n:v]], [[n:a]]) are not
    labels. *)
Definition uses (p : filter_part) : list label :=
  match p with
  | scale_crop _ => []
  | scale_zoompan _ _ _ => []
  | xfade a b _ _ _ _ => [a; b]
  | null a _ => [a]
  | overlay_between a _ _ _ _ => [a]
  | scale_overlay _ => []
  | overlay a b _ => [a; b]
  | atrim_adelay _ _ _ _ => []
  end.

(** The input stream that a part of the graph reads: the [n] of [[n:v]]
    or [[n:a]]. *)
Definition stream_of (p : filter_part) : option nat :=
  match p with
  | scale_crop i => Some i
  | scale_zoompan i _ _ => Some i
  | overlay_between _ n _ _ _ => Some n
  | scale_overlay n => Some n
  | atrim_adelay n _ _ _ => Some n
  | xfade _ _ _ _ _ _ => None
  | null _ _ => None
  | overlay _ _ _ => None
  end.

(** The labels that are defined and not yet consumed after a part. *)
Definition available_after_part (available : label -> Prop) (p : filter_part)
  : label -> Prop :=
  fun l => l = Reading.defines p \/ (available l /\ ~ In l (uses p)).

Fixpoint available_after (available : label -> Prop) (parts : list filter_part)
  : label -> Prop :=
  match parts with
  | [] => available
  | p :: parts' => available_after (available_after_part available p) parts'
  end.

Definition defined_after (defined : label -> Prop) (parts : list filter_part)
  : label -> Prop :=
  fun l => In l (map Reading.defines parts) \/ defined l.

(** A list of parts is wired linearly from the labels [defined] so far, of
    which [available] are not yet consumed: every part consumes distinct
    labels that are available, and defines a label that was never defined
    before. *)
Fixpoint linear (defined available : label -> Prop) (parts : list filter_part)
  : Prop :=
  match parts with
  | [] => True
  | p :: parts' =>
      NoDup (uses p)
      /\ (forall a, In a (uses p) -> available a)
      /\ ~ defined (Reading.defines p)
      /\ linear (fun l => l = Reading.defines p \/ defined l)
           (available_after_part available p) parts'
  end.

Definition nothing : label -> Prop := fun _ => False.

(** ** The parts of the graph in closed form *)

Definition window_or_zero (r : result (Q * Q)) : Q * Q :=
  match r with Ok win => win | Raise _ => (0%Q, 0%Q) end.

(** The window function that the caption stage selects. *)
Definition chosen_window (chunks : list str) (chunk_windows : list (Q * Q))
  (num_captions : nat) : nat -> result (Q * Q) :=
  if length chunks <? num_captions
  then typewriter_window chunks chunk_windows
  else static_window chunk_windows.

(** The overlay of caption frame [i], chained on the previous one. *)
Definition caption_part (caption_start_idx : nat)
  (window_of : nat -> result (Q * Q)) (i : nat) : filter_part :=
  overlay_between (if i =? 0 then v_base_middle else v_cap (i - 1))
    (caption_start_idx + i)
    (F2 (fst (window_or_zero (window_of i))))
    (F2 (snd (window_or_zero (window_of i))))
    (v_cap i).

(** Whether the caption stage overlays frames at all. *)
Definition captions_shown (cfg : config) (voice_duration : Q) : bool :=
  (0 <? length (get (caption_images cfg) []))
  && negb (Qle_bool (outro_offset voice_duration) INTRO_DURATION).

Definition script_chunks (cfg : config) : list str :=
  CaptionGenerator.split_into_chunks (get (script cfg) []).

(** The windows of the chunks of the script, when there is a chunk. *)
Definition script_chunk_windows (cfg : config) (voice_duration : Q)
  : list (Q * Q) :=
  Reading.place INTRO_DURATION (outro_offset voice_duration - INTRO_DURATION)
    (sum (chunk_word_counts (script_chunks cfg)))
    (chunk_word_counts (script_chunks cfg)).

Definition caption_parts (cfg : config) (voice_duration : Q)
  (caption_start_idx : nat) : list filter_part :=
  let n := length (get (caption_images cfg) []) in
  if captions_shown cfg voice_duration then
    map (caption_part caption_start_idx
           (chosen_window (script_chunks cfg)
              (script_chunk_windows cfg voice_duration) n))
        (seq 0 n)
    ++ [null (v_cap (n - 1)) v_captioned]
  else [null v_base_middle v_captioned].

(** The title overlays of the segments from number [k] on. *)
Fixpoint segment_title_parts (k next_input_idx : nat) (seg_start : Q)
  (curr_v : label) (segs : list segment) : list filter_part :=
  match segs with
  | [] => []
  | seg :: segs' =>
      let seg_end := (seg_start + seg_voice_duration seg)%Q in
      overlay_between curr_v next_input_idx (F2 seg_start) (F2 seg_end)
        (v_title k)
      :: segment_title_parts (S k) (next_input_idx + 1) seg_end (v_title k)
           segs'
  end.

Definition has_title (cfg : config) : bool :=
  negb (String.eqb (get (title cfg) EmptyString) EmptyString).

Definition title_parts_of (cfg : config) (voice_duration : Q)
  (next_input_idx : nat) : list filter_part :=
  if truthy (get (segments cfg) []) then
    segment_title_parts 0 next_input_idx INTRO_DURATION v_captioned
      (get (segments cfg) [])
  else if has_title cfg then
    [overlay_between v_captioned next_input_idx (FRepr INTRO_DURATION)
       (F2 (outro_offset voice_duration)) v_titled]
  else [].

(** [pre_outro_label] after the title stage. *)
Definition titled_label (cfg : config) : label :=
  if truthy (get (segments cfg) [])
  then v_title (length (get (segments cfg) []) - 1)
  else if has_title cfg then v_titled else v_captioned.

(** The number of title inputs. *)
Definition title_count (cfg : config) : nat :=
  if truthy (get (segments cfg) []) then length (get (segments cfg) [])
  else if has_title cfg then 1 else 0.

Definition framed (w : world) (cfg : config) : bool :=
  get (use_overlay cfg) true && path_exists w overlay_path.

Definition frame_parts (w : world) (cfg : config) (next_input_idx : nat)
  : list filter_part :=
  if framed w cfg
  then [scale_overlay next_input_idx;
        overlay (titled_label cfg) ov_scaled v_framed]
  else [].

Definition pre_outro_label (w : world) (cfg : config) : label :=
  if framed w cfg then v_framed else titled_label cfg.

(** The whole graph in closed form. *)
Definition graph_parts (w : world) (cfg : config) (voice_duration : Q)
  : list filter_part :=
  let N := length (middle_images cfg) in
  let per_image := per_image_duration voice_duration N in
  let num_captions := length (get (caption_images cfg) []) in
  map (fun '(i, img) =>
         input_part (intro_image cfg) (outro_image cfg) per_image i img)
      (enumerate (inputs cfg))
  ++ map (Reading.join_part_at per_image) (seq 0 N)
  ++ [null (if N =? 0 then v 0 else v_join N) v_base_middle]
  ++ caption_parts cfg voice_duration (N + 2 + 1)
  ++ title_parts_of cfg voice_duration (N + 2 + 1 + num_captions)
  ++ frame_parts w cfg (N + 2 + 1 + num_captions + title_count cfg)
  ++ [xfade (pre_outro_label w cfg) (v (N + 1)) "fadeblack"
        (FRepr TRANSITION_DURATION) (F2 (outro_offset voice_duration))
        v_final]
  ++ [atrim_adelay (N + 2) (F2 voice_duration) 3000 3000].

(** Where the title window of the last segment ends. *)
Definition segments_end (seg_start : Q) (segs : list segment) : Q :=
  fold_left (fun s seg => (s + seg_voice_duration seg)%Q) segs seg_start.

(** A chain: every part consumes, first, the label that the previous part
    defined, starting from [head]. *)
Fixpoint chain (head : label) (parts : list filter_part) : Prop :=
  match parts with
  | [] => True
  | p :: parts' =>
      hd_error (uses p) = Some head /\ chain (Reading.defines p) parts'
  end.

(** The label at the end of a chain. *)
Definition last_defined (head : label) (parts : list filter_part) : label :=
  last (map Reading.defines parts) head.

(** The labels that the parts of a chain consume besides the chained
    one. *)
Definition sides (parts : list filter_part) : list label :=
  flat_map (fun p => tl (uses p)) parts.

(** The position of a naming pattern in the order in which [build_video]
    introduces the patterns. *)
Definition kind (l : label) : nat :=
  match l with
  | v _ => 0
  | v_join _ => 1
  | v_base_middle => 2
  | v_cap _ => 3
  | v_captioned => 4
  | v_title _ => 5
  | v_titled => 6
  | ov_scaled => 7
  | v_framed => 8
  | v_final => 9
  | a_delayed => 10
  end.

End Wiring.

Module Examples.

(** A configuration with every optional key but [segments]: three
    typewriter frames over a script of two sentences, a title and the
    news frame. *)
Definition config_with_captions : VideoBuilder.config :=
  {| VideoBuilder.intro_image := "intro.png";
     VideoBuilder.outro_image := "outro.png";
     VideoBuilder.middle_images := ["a.png"; "b.png"]%string;
     VideoBuilder.voiceover_audio := "voice.mp3";
     VideoBuilder.caption_images :=
       Some ["caption_0.png"; "caption_1.png"; "caption_2.png"]%string;
     VideoBuilder.title := Some "News"%string;
     VideoBuilder.script := Some (Reading.text "Hello world. Bye.");
     VideoBuilder.segments := None;
     VideoBuilder.use_overlay := Some true |}.

(** A combined reel of two articles. *)
Definition config_with_segments : VideoBuilder.config :=
  {| VideoBuilder.intro_image := "intro.png";
     VideoBuilder.outro_image := "outro.png";
     VideoBuilder.middle_images := ["a.png"; "b.png"; "c.png"]%string;
     VideoBuilder.voiceover_audio := "combined.mp3";
     VideoBuilder.caption_images :=
       Some ["caption_0.png"; "caption_1.png"]%string;
     VideoBuilder.title := Some "First"%string;
     VideoBuilder.script := Some (Reading.text "One thing. Another thing.");
     VideoBuilder.segments :=
       Some [ {| VideoBuilder.seg_title := "First";
                 VideoBuilder.seg_voice_duration := 4%Q |};
              {| VideoBuilder.seg_title := "Second";
                 VideoBuilder.seg_voice_duration := 6%Q |} ];
     VideoBuilder.use_overlay := None |}.

End Examples.

(* ===================================================================== *)
(** * The [-i] arguments of [build_video]                                 *)
(* ===================================================================== *)

Module PyPath.

Import Py.

(** [s.rfind(c)] for a single character: the highest index, or -1. *)
Fixpoint rfind_from (c : ascii) (s : str) (i best : Z) : Z :=
  match s with
  | [] => best
  | x :: s' =>
      rfind_from c s' (i + 1)%Z (if Ascii.eqb x c then i else best)
  end.

Definition rfind (c : ascii) (s : str) : Z := rfind_from c s 0%Z (-1)%Z.

(** The [while] loop of [genericpath._splitext]: whether a character
    other than the dot stands in [p[filenameIndex:dotIndex]]. *)
Fixpoint skip_leading_dots (between : str) : bool :=
  match between with
  | [] => false
  | x :: between' =>
      if negb (Ascii.eqb x "."%char) then true
      else skip_leading_dots between'
  end.

(** [os.path.splitext(p)] of [posixpath]. *)
Definition splitext (p : str) : str * str :=
  let sepIndex := rfind "/"%char p in
  let dotIndex := rfind "."%char p in
  if (sepIndex <? dotIndex)%Z then
    let filenameIndex := (sepIndex + 1)%Z in
    if skip_leading_dots
         (firstn (Z.to_nat (dotIndex - filenameIndex))
            (skipn (Z.to_nat filenameIndex) p))
    then (firstn (Z.to_nat dotIndex) p, skipn (Z.to_nat dotIndex) p)
    else (p, [])
  else (p, []).

(** [str.lower] on one code point below 256. *)
Definition lower_char (c : ascii) : ascii :=
  let n := nat_of_ascii c in
  if ((65 <=? n) && (n <=? 90)) || ((192 <=? n) && (n <=? 214))
     || ((216 <=? n) && (n <=? 222))
  then ascii_of_nat (n + 32) else c.

Definition lower (s : str) : str := map lower_char s.

End PyPath.

Module BuilderInputs.

Import Py PyPath VideoBuilder.

Definition video_exts : list string :=
  [".mp4"; ".mov"; ".webm"; ".mkv"]%string.

(** [os.path.splitext(img)[1].lower() in video_exts] *)
Definition is_video_file (img : string) : bool :=
  existsb
    (String.eqb
       (string_of_list_ascii
          (lower (snd (splitext (list_ascii_of_string img))))))
    video_exts.

(** One input of the command, with the options in front of its [-i]. *)
Inductive input_arg : Type :=
| clip_input (path : string)    (* -t 3 -i path *)
| still_input (path : string)   (* -loop 1 -t 3 -i path *)
| plain_input (path : string).  (* -i path *)

Definition input_path (a : input_arg) : string :=
  match a with
  | clip_input p | still_input p | plain_input p => p
  end.

(** The body of [for img in inputs]. *)
Definition image_input (cfg : config) (img : string) : input_arg :=
  let intro_img := intro_image cfg in
  let outro_img := outro_image cfg in
  let intro_is_video := is_video_file intro_img in
  let outro_is_video := is_video_file outro_img in
  let is_video :=
    (String.eqb img intro_img && intro_is_video)
    || (String.eqb img outro_img && outro_is_video) in
  if is_video then clip_input img
  else if String.eqb img intro_img || String.eqb img outro_img
  then still_input img
  else plain_input img.

Definition title_png (temp_dir : string) : string :=
  path_join temp_dir "title_overlay.png".

Definition seg_title_path (temp_dir : string) (seg_i : nat) : string :=
  path_join temp_dir ("title_seg_" ++ string_of_nat seg_i ++ ".png")%string.

(** [input_args] when [build_video] assembles the command: the images,
    the voiceover, the caption frames, the titles and the news frame, in
    the order in which they are appended. *)
Definition input_args (w : world) (cfg : config) (temp_dir : string)
  : list input_arg :=
  let title_text := get (title cfg) EmptyString in
  map (image_input cfg) (inputs cfg)
  ++ [plain_input (voiceover_audio cfg)]
  ++ map plain_input (get (caption_images cfg) [])
  ++ (if truthy (get (segments cfg) []) then
        map (fun '(seg_i, _) => plain_input (seg_title_path temp_dir seg_i))
          (enumerate (get (segments cfg) []))
      else if negb (String.eqb title_text EmptyString)
      then [plain_input (title_png temp_dir)]
      else [])
  ++ (if get (use_overlay cfg) true && path_exists w overlay_path
      then [plain_input overlay_path] else []).

End BuilderInputs.

(* ===================================================================== *)
(** * langgraph_pipeline.py: the callers of [build_video]                  *)
(* ===================================================================== *)

Module LanggraphPipeline.

Import Py.

Definition USE_OVERLAY : bool := false.

Definition intro : string := "assets/mbn_reels_intro.mp4".
Definition outro : string := "assets/mbn_reels_outro1.mp4".
Definition temp_dir : string := "reel_generator/temp".

(** [sep.join(parts)] *)
Fixpoint join (sep : str) (parts : list str) : str :=
  match parts with
  | [] => []
  | [x] => x
  | x :: parts' => x ++ sep ++ join sep parts'
  end.

(** [[c["image_path"] for c in caption_data]]: frame [k] is saved as
    [caption_{k}.png] under [temp_dir]. *)
Definition caption_image_paths (caption_data : list (nat * Z)) : list string :=
  map (ReelGenerator.caption_path temp_dir) (range (length caption_data)).

(** ** [assemble_reel] *)

(** The keys of [state["results"][-1]] that [assemble_reel] reads or
    writes. *)
Record reel_result : Type := {
  folder : string;
  audio_path : string;
  title : option string;
  voice_duration : option Q;
  reel_path : option string;
  status : string;
  error : option exn
}.

(** The configuration that [assemble_reel] builds from the images of the
    article and the text of its script file. *)
Definition reel_config (images : list string) (script_text : str)
  (current_result : reel_result) : VideoBuilder.config :=
  let caption_data :=
    CaptionGenerator.render_captions_to_images script_text true in
  {| VideoBuilder.intro_image := intro;
     VideoBuilder.outro_image := outro;
     VideoBuilder.middle_images := images;
     VideoBuilder.voiceover_audio := audio_path current_result;
     VideoBuilder.caption_images := Some (caption_image_paths caption_data);
     VideoBuilder.title :=
       Some (VideoBuilder.get (title current_result) EmptyString);
     VideoBuilder.script := Some script_text;
     VideoBuilder.segments := None;
     VideoBuilder.use_overlay := Some USE_OVERLAY |}.

(** [assemble_reel(state)] once the images and the script text are read:
    the entry that replaces [state["results"][-1]], or [None] for the
    empty update.  The value that [build_video] returns is not looked
    at. *)
Definition assemble_reel (w : world) (images : list string)
  (script_text : str) (current_result : reel_result) : option reel_result :=
  if String.eqb (status current_result) "failed" then None
  else
    let output_path :=
      ("outputs/final_reels/reel_" ++ folder current_result ++ ".mp4")%string
    in
    let config := reel_config images script_text current_result in
    let voice := VideoBuilder.get (voice_duration current_result) 0%Q in
    match VideoBuilder.build_video w config voice with
    | Ok _ =>
        Some {| folder := folder current_result;
                audio_path := audio_path current_result;
                title := title current_result;
                voice_duration := voice_duration current_result;
                reel_path := Some output_path;
                status := "success";
                error := error current_result |}
    | Raise e =>
        Some {| folder := folder current_result;
                audio_path := audio_path current_result;
                title := title current_result;
                voice_duration := voice_duration current_result;
                reel_path := reel_path current_result;
                status := "failed";
                error := Some e |}
    end.

(** ** [run_combined_pipeline], step 5 *)

(** An entry of [article_data]. *)
Record article : Type := {
  article_folder : string;
  article_images : list string;
  article_script : str;
  article_title : string;
  article_audio_path : string;
  article_voice_duration : Q
}.

(** [sum(ad["voice_duration"] for ad in article_data)] *)
Definition total_voice_duration (article_data : list article) : Q :=
  fold_left (fun acc ad => (acc + article_voice_duration ad)%Q)
    article_data 0%Q.

Definition combined_script (article_data : list article) : str :=
  join [" "%char] (map article_script article_data).

(** The configuration of the combined reel. *)
Definition combined_config (article_data : list article)
  : VideoBuilder.config :=
  let segments :=
    map (fun ad =>
           {| VideoBuilder.seg_title := article_title ad;
              VideoBuilder.seg_voice_duration := article_voice_duration ad |})
        article_data in
  let all_images := flat_map article_images article_data in
  let caption_data :=
    CaptionGenerator.render_captions_to_images
      (combined_script article_data) false in
  {| VideoBuilder.intro_image := intro;
     VideoBuilder.outro_image := outro;
     VideoBuilder.middle_images := all_images;
     VideoBuilder.voiceover_audio := "outputs/audio/combined_concat.mp3";
     VideoBuilder.caption_images := Some (caption_image_paths caption_data);
     VideoBuilder.title := Some EmptyString;
     VideoBuilder.script := Some (combined_script article_data);
     VideoBuilder.segments := Some segments;
     VideoBuilder.use_overlay := Some USE_OVERLAY |}.

(** What step 5 of [run_combined_pipeline] hands to the builder once at
    least two articles are prepared. *)
Definition build_combined_reel (w : world) (article_data : list article)
  : result (VideoBuilder.command * bool) :=
  VideoBuilder.build_video w (combined_config article_data)
    (total_voice_duration article_data).

End LanggraphPipeline.

Module PipelineExamples.

Import LanggraphPipeline.

(** The configuration that [generate] hands to the builder for the script
    "Hello world. Bye." and two middle images. *)
Definition config_from_generate : VideoBuilder.config :=
  {| VideoBuilder.intro_image := "intro.png";
     VideoBuilder.outro_image := "outro.png";
     VideoBuilder.middle_images := ["a.png"; "b.png"]%string;
     VideoBuilder.voiceover_audio := "temp/voiceover.mp3";
     VideoBuilder.caption_images :=
       Some ["temp/caption_0.png"; "temp/caption_1.png";
             "temp/caption_2.png"]%string;
     VideoBuilder.title := Some EmptyString;
     VideoBuilder.script := Some (Reading.text "Hello world. Bye.");
     VideoBuilder.segments := None;
     VideoBuilder.use_overlay := None |}.

(** Surroundings in which every ffmpeg run fails. *)
Definition world_ffmpeg_fails : world :=
  {| path_exists := fun _ => true;
     path_isfile := fun _ => true;
     darwin_videotoolbox := false;
     tts_succeeds := true;
     audio_duration := fun _ => 12%Q;
     ffmpeg_succeeds := fun _ => false |}.

Definition result_after_voiceover : reel_result :=
  {| folder := "article_001";
     audio_path := "outputs/audio/vo_article_001.mp3";
     title := Some "Floods"%string;
     voice_duration := Some 12%Q;
     reel_path := None;
     status := "audio_done";
     error := None |}.

Definition two_articles : list article :=
  [ {| article_folder := "article_001";
       article_images := ["a1.jpg"; "a2.jpg"]%string;
       article_script := Reading.text "Rain fell all night. Roads closed.";
       article_title := "Floods";
       article_audio_path := "outputs/audio/combined_vo_article_001_1.mp3";
       article_voice_duration := 4%Q |};
    {| article_folder := "article_002";
       article_images := ["b1.jpg"]%string;
       article_script := Reading.text "The market opened higher!";
       article_title := "Markets";
       article_audio_path := "outputs/audio/combined_vo_article_002_1.mp3";
       article_voice_duration := 6%Q |} ].

End PipelineExamples.

(* ===================================================================== *)
(** * The plan of a slideshow                                             *)
(* ===================================================================== *)

Module SlideshowPlan.

Import Py FacelessVideoService.

Definition seg_path (tmp_dir : string) (i : nat) : string :=
  path_join tmp_dir ("seg_" ++ string_of_nat i ++ ".mp4")%string.

Definition merged_path (tmp_dir : string) (i : nat) : string :=
  path_join tmp_dir ("merged_" ++ string_of_nat i ++ ".mp4")%string.

(** The ffmpeg run that renders image [i]. *)
Definition segment_event (tmp_dir : string) (per_image : Q)
  (entry : nat * string) : event :=
  let '(i, img) := entry in
  ran_ffmpeg (stage_segment i)
    (job_segment img (if i mod 2 =? 0 then zoom_in else zoom_out)
       (int (per_image * inject_Z FPS)%Q) per_image (seg_path tmp_dir i)).

(** The ffmpeg run that merges clip [i] into what is merged so far. *)
Definition xfade_event (transition_dur : Q) (tmp_dir : string)
  (per_image : Q) (i : nat) : event :=
  ran_ffmpeg (stage_xfade i)
    (job_xfade (if i =? 1 then seg_path tmp_dir 0
                else merged_path tmp_dir (i - 1))
       (seg_path tmp_dir i) (transition_style (i - 1)) transition_dur
       (per_image - transition_dur)%Q (merged_path tmp_dir i)).

(** What [_build_slideshow] sets out to do with the images that are
    files: render every image, merge the clips one by one, and rename the
    last clip. *)
Definition plan (transition_dur : Q) (valid : list string)
  (total_duration : Q) (tmp_dir : string) : list event :=
  let n := length valid in
  let per_image := (total_duration / inject_Z (Z.of_nat n))%Q in
  map (segment_event tmp_dir per_image) (VideoBuilder.enumerate valid)
  ++ map (xfade_event transition_dur tmp_dir per_image) (seq 1 (n - 1))
  ++ [renamed (if n =? 1 then seg_path tmp_dir 0
               else merged_path tmp_dir (n - 1))
        (path_join tmp_dir "slideshow.mp4")].

(** An ffmpeg run that fails. *)
Definition failed (w : world) (e : event) : bool :=
  match e with
  | ran_ffmpeg st _ => negb (ffmpeg_succeeds w st)
  | _ => false
  end.

(** The events of a plan up to and including the first ffmpeg run that
    fails. *)
Fixpoint until_failure (w : world) (events : list event) : list event :=
  match events with
  | [] => []
  | e :: events' =>
      if failed w e then [e] else e :: until_failure w events'
  end.

(** The ffmpeg runs of a loop whose body runs one job and updates the
    accumulator. *)
Fixpoint loop_events {A S : Type} (stage_of : S -> A -> stage)
  (job_of : S -> A -> ffmpeg_job) (next : S -> A -> S) (xs : list A)
  (acc : S) : list event :=
  match xs with
  | [] => []
  | x :: xs' =>
      ran_ffmpeg (stage_of acc x) (job_of acc x)
      :: loop_events stage_of job_of next xs' (next acc x)
  end.

End SlideshowPlan.

Module SlideshowFiles.

(** The file that a step writes. *)
Definition written (e : event) : option string :=
  match e with
  | ran_ffmpeg _ (job_segment _ _ _ _ out) => Some out
  | ran_ffmpeg _ (job_xfade _ _ _ _ _ out) => Some out
  | ran_ffmpeg _ (job_black_clip _ out) => Some out
  | renamed _ dst => Some dst
  | _ => None
  end.

(** The intermediate clips that a step reads: the two sides of a
    crossfade, the source of a rename. *)
Definition clips_read (e : event) : list string :=
  match e with
  | ran_ffmpeg _ (job_xfade a b _ _ _ _) => [a; b]
  | renamed src _ => [src]
  | _ => []
  end.

Definition files_written (steps : list event) : list string :=
  flat_map (fun e => match written e with Some f => [f] | None => [] end)
    steps.

(** Surroundings in which every path is a file and the second merge of a
    slideshow fails. *)
Definition world_second_merge_fails : world :=
  {| path_exists := fun _ => true;
     path_isfile := fun _ => true;
     darwin_videotoolbox := false;
     tts_succeeds := true;
     audio_duration := fun _ => 12%Q;
     ffmpeg_succeeds :=
       fun st => match st with stage_xfade 2 => false | _ => true end |}.

End SlideshowFiles.

(* ===================================================================== *)
(** * Captions of the faceless reel                                       *)
(* ===================================================================== *)

(** The regular expressions of [faceless_reel_agent.py], on code points
    below 256. *)
Module PyRe.

Import Py.

(** The class [\d]. *)
Definition isdigit (c : ascii) : bool :=
  let n := nat_of_ascii c in (48 <=? n) && (n <=? 57).

(** The class [[\w_]]. *)
Definition isword (c : ascii) : bool :=
  let n := nat_of_ascii c in
  ((48 <=? n) && (n <=? 57)) || ((65 <=? n) && (n <=? 90)) || (n =? 95)
  || ((97 <=? n) && (n <=? 122)) || (n =? 170)
  || ((178 <=? n) && (n <=? 179)) || (n =? 181)
  || ((185 <=? n) && (n <=? 186)) || ((188 <=? n) && (n <=? 190))
  || ((192 <=? n) && (n <=? 214)) || ((216 <=? n) && (n <=? 246))
  || ((248 <=? n) && (n <=? 255)).

(** A literal character at the head of [s]: what follows it. *)
Definition literal (c : ascii) (s : str) : option str :=
  match s with
  | x :: s' => if Ascii.eqb x c then Some s' else None
  | [] => None
  end.

Fixpoint drop_while (p : ascii -> bool) (s : str) : str :=
  match s with
  | x :: s' => if p x then drop_while p s' else s
  | [] => []
  end.

(** A greedy [c+] at the head of [s]: what follows it.  In the patterns
    below the class is always followed by a literal outside of the class,
    so the greedy choice is the only one that can match. *)
Definition one_or_more (p : ascii -> bool) (s : str) : option str :=
  match s with
  | x :: s' => if p x then Some (drop_while p s') else None
  | [] => None
  end.

Definition and_then (r : option str) (k : str -> option str) : option str :=
  match r with Some s => k s | None => None end.

(** [\[\d+:\d+-\d+:\d+\]] at the head of [s]: what follows the match. *)
Definition match_timing_marker (s : str) : option str :=
  and_then (literal "["%char s) (fun s =>
  and_then (one_or_more isdigit s) (fun s =>
  and_then (literal ":"%char s) (fun s =>
  and_then (one_or_more isdigit s) (fun s =>
  and_then (literal "-"%char s) (fun s =>
  and_then (one_or_more isdigit s) (fun s =>
  and_then (literal ":"%char s) (fun s =>
  and_then (one_or_more isdigit s) (fun s =>
  literal "]"%char s)))))))).

(** [\[[\w_]+\]] at the head of [s]: what follows the match. *)
Definition match_cue_marker (s : str) : option str :=
  and_then (literal "["%char s) (fun s =>
  and_then (one_or_more isword s) (fun s =>
  literal "]"%char s)).

(** [re.sub(pattern, '', s)] for a pattern that matches no empty string:
    the leftmost matches are removed one after the other.  [skip] counts
    the characters of the current match that are still to be dropped. *)
Fixpoint remove_from (m : str -> option str) (skip : nat) (s : str) : str :=
  match s with
  | [] => []
  | c :: s' =>
      match skip with
      | S k => remove_from m k s'
      | O =>
          match m (c :: s') with
          | Some rest => remove_from m (length s' - length rest) s'
          | None => c :: remove_from m 0 s'
          end
      end
  end.

Definition remove_matches (m : str -> option str) (s : str) : str :=
  remove_from m 0 s.

(** [s.split(sep)] for a separator of one character. *)
Fixpoint split_on_from (sep : ascii) (cur : str) (s : str) : list str :=
  match s with
  | [] => [rev cur]
  | c :: s' =>
      if Ascii.eqb c sep then rev cur :: split_on_from sep [] s'
      else split_on_from sep (c :: cur) s'
  end.

Definition split_on (sep : ascii) (s : str) : list str :=
  split_on_from sep [] s.

(** [re.split(r'(?<=[.!?])\s+', s)]: a run of whitespace is a separator
    when the character in front of it is terminal punctuation.
    [prev_terminal] tells whether the previous character is one,
    [skipping] whether a separator is being read, [cur] is the piece being
    read, most recent character first. *)
Fixpoint split_sentences_from (prev_terminal skipping : bool) (cur : str)
  (s : str) : list str :=
  match s with
  | [] => [rev cur]
  | c :: s' =>
      if skipping && isspace c
      then split_sentences_from false true cur s'
      else if prev_terminal && isspace c
      then rev cur :: split_sentences_from false true [] s'
      else split_sentences_from (is_terminal c) false (c :: cur) s'
  end.

Definition split_sentences (s : str) : list str :=
  split_sentences_from false false [] s.

(** [s.replace(old, new)] for an [old] of one character. *)
Definition replace_char (old : ascii) (new : str) (s : str) : str :=
  flat_map (fun c => if Ascii.eqb c old then new else [c]) s.

End PyRe.

Module ReelAgentCaptions.

Import Py PyRe.

(** [_clean_for_tts(text)] *)
Definition _clean_for_tts (text : str) : str :=
  let cleaned := remove_matches match_timing_marker text in
  let cleaned := remove_matches match_cue_marker cleaned in
  let lines :=
    flat_map (fun line => if truthy (strip line) then [strip line] else [])
      (split_on "010"%char cleaned) in
  LanggraphPipeline.join [" "%char] lines.

(** The sentences of [_build_captions]. *)
Definition caption_sentences (script_text : str) : list str :=
  let clean := _clean_for_tts script_text in
  let sentences := split_sentences clean in
  flat_map (fun s => if truthy (strip s) then [strip s] else []) sentences.

Definition usable_duration (intro_duration outro_duration audio_duration : Q)
  : Q :=
  let usable := (audio_duration - intro_duration - outro_duration)%Q in
  if Qle_bool usable 0 then audio_duration else usable.

(** [display = sentence if len(sentence) <= 80 else sentence[:77] + "..."] *)
Definition display (sentence : str) : str :=
  if length sentence <=? 80 then sentence
  else firstn 77 sentence ++ list_ascii_of_string "...".

(** [_build_captions(script_text, audio_duration)] under the settings
    [INTRO_DURATION] and [OUTRO_DURATION]. *)
Definition _build_captions (intro_duration outro_duration : Q)
  (script_text : str) (audio_duration : Q) : list (str * Q * Q) :=
  let sentences := caption_sentences script_text in
  if negb (truthy sentences) then []
  else
    let intro_offset := intro_duration in
    let usable := usable_duration intro_duration outro_duration
                    audio_duration in
    let per_sentence :=
      (usable / inject_Z (Z.of_nat (length sentences)))%Q in
    map (fun '(i, sentence) =>
           let start :=
             (intro_offset + inject_Z (Z.of_nat i) * per_sentence)%Q in
           let end_ := (start + per_sentence)%Q in
           (display sentence, start, end_))
        (VideoBuilder.enumerate sentences).

End ReelAgentCaptions.

Module VideoServiceCaptions.

Import Py PyRe.

(** One [drawtext=...] filter: the escaped text, the font file and the
    two ends of [enable='between(t,{start:.2f},{end:.2f})']. *)
Inductive caption_filter : Type :=
| drawtext (clean : str) (fontfile : string)
           (start end_ : VideoBuilder.number).

(** [text.replace("'", "'\\''").replace(":", "\\:")] *)
Definition escape (text : str) : str :=
  replace_char ":"%char (list_ascii_of_string "\:")
    (replace_char "'"%char (list_ascii_of_string "'\''") text).

(** [_build_caption_filters(captions)] of a service whose [font_path] is
    given. *)
Definition _build_caption_filters (font_path : string)
  (captions : option (list (str * Q * Q))) : list caption_filter :=
  match captions with
  | None => []
  | Some captions =>
      if negb (truthy captions) then []
      else
        flat_map
          (fun '(text, start, end_) =>
             if Qle_bool end_ start then []
             else [drawtext (escape text) font_path
                     (VideoBuilder.F2 start) (VideoBuilder.F2 end_)])
          captions
  end.

(** The last command of [_concat_and_mix]: its two [-i] inputs, the
    filters that its [-vf] option joins with commas ([None] for the command
    without that option) and its output. *)
Record mix_command : Type := {
  mix_inputs : list string;
  vf : option (list caption_filter);
  mix_output : string
}.

(** Step 3 of [_concat_and_mix], up to the run of the command: whether the
    warning that captions are skipped is logged, and [cmd_final].
    [has_drawtext] is what [self._has_filter("drawtext")] answers. *)
Definition final_mix (has_drawtext : bool)
  (font_path concat_out audio_path : string)
  (captions : option (list (str * Q * Q))) (output_path : string)
  : bool * mix_command :=
  let caption_filters := _build_caption_filters font_path captions in
  let skipping := negb has_drawtext && truthy caption_filters in
  let caption_filters := if skipping then [] else caption_filters in
  (skipping,
   if truthy caption_filters
   then {| mix_inputs := [concat_out; audio_path];
           vf := Some caption_filters;
           mix_output := output_path |}
   else {| mix_inputs := [concat_out; audio_path];
           vf := None;
           mix_output := output_path |}).

(** [slideshow_duration = max(1.0, audio_duration - intro - outro)] of
    [build_reel]. *)
Definition slideshow_duration (intro_duration outro_duration audio_duration : Q)
  : Q :=
  let rest := (audio_duration - intro_duration - outro_duration)%Q in
  if Qle_bool rest 1 then 1%Q else rest.

End VideoServiceCaptions.

(* ===================================================================== *)
(** * Binary floating point, where it decides what is printed             *)
(* ===================================================================== *)

Module Binary64.

(** [2^k] for any integer [k]. *)
Definition pow2 (k : Z) : Q :=
  if (0 <=? k)%Z then inject_Z (2 ^ k) else (1 / inject_Z (2 ^ (- k)))%Q.

(** [floor(log2 |q|)] of a number that is not zero. *)
Definition exponent (q : Q) : Z :=
  let a := Qabs q in
  if Qle_bool 1 a then Z.log2 (Qfloor a)
  else (- Z.log2_up (Qceiling (/ a)))%Z.

(** Rounding to the nearest integer, ties to even: [round(x)] of a
    float. *)
Definition nearest_even (q : Q) : Z :=
  let f := Qfloor q in
  let frac := (q - inject_Z f)%Q in
  match Qcompare frac (1 # 2) with
  | Lt => f
  | Gt => (f + 1)%Z
  | Eq => if Z.even f then f else (f + 1)%Z
  end.

(** The binary64 number nearest to [q], ties to the even significand: 53
    significant bits above [2^-1022], multiples of [2^-1074] below.
    Magnitudes of [2^1024] and more, which overflow, do not occur in what
    is modelled. *)
Definition round (q : Q) : Q :=
  if Qeq_bool q 0 then 0%Q
  else
    let scale := Z.min (52 - exponent q) 1074 in
    (inject_Z (nearest_even (q * pow2 scale)) / pow2 scale)%Q.

(** [a * b] of two floats and [a / b] of two integers: the exact result,
    rounded once. *)
Definition mul (a b : Q) : Q := round (a * b).

Definition div_int (a b : Z) : Q := round (inject_Z a / inject_Z b).

End Binary64.

(* ===================================================================== *)
(** * caption_generator.format_timestamp                                  *)
(* ===================================================================== *)

Module Timestamp.

(** A normalised [datetime.timedelta]: [0 <= seconds < 86400] and
    [0 <= microseconds < 1000000]. *)
Record timedelta : Type := {
  days : Z;
  seconds : Z;
  microseconds : Z
}.

(** The microseconds that [datetime.timedelta(seconds=x)] stands for: the
    whole seconds count exactly, the fraction ([math.modf]) is multiplied
    by [1e6] in binary64 and the product is rounded to a whole number,
    ties to even.  [x] is a float, or an integer, which has no
    fraction. *)
Definition total_microseconds (x : Q) : Z :=
  let intpart := Py.int x in
  let fracpart := (x - inject_Z intpart)%Q in
  let usdouble := Binary64.mul fracpart 1000000 in
  (intpart * 1000000 + Binary64.nearest_even usdouble)%Z.

(** [datetime.timedelta(seconds=x)]; [None] stands for the OverflowError
    of a duration of more than 999999999 days. *)
Definition timedelta_of_seconds (x : Q) : option timedelta :=
  let us := total_microseconds x in
  let d := (us / 86400000000)%Z in
  let rest := (us mod 86400000000)%Z in
  if ((d <? -999999999) || (999999999 <? d))%Z then None
  else Some {| days := d;
               seconds := (rest / 1000000)%Z;
               microseconds := (rest mod 1000000)%Z |}.

(** [td.total_seconds()]: the microseconds of the duration divided by
    [10**6], a true division of integers. *)
Definition total_seconds (td : timedelta) : Q :=
  Binary64.div_int
    ((days td * 86400 + seconds td) * 1000000 + microseconds td) 1000000.

Fixpoint zeros (n : nat) : string :=
  match n with
  | O => EmptyString
  | S n' => String "0"%char (zeros n')
  end.

(** [f"{z:0{width}}"] of an integer: zeros between the sign and the
    digits up to the width. *)
Definition format_int (width : nat) (z : Z) : string :=
  let digits := string_of_nat (Z.abs_nat z) in
  if (z <? 0)%Z
  then ("-" ++ zeros (width - 1 - String.length digits) ++ digits)%string
  else (zeros (width - String.length digits) ++ digits)%string.

(** The four numbers that [format_timestamp] prints. *)
Definition timestamp_fields (td : timedelta) : Z * Z * Z * Z :=
  let total_seconds := Py.int (total_seconds td) in
  let hours := (total_seconds / 3600)%Z in
  let minutes := ((total_seconds mod 3600) / 60)%Z in
  let secs := (total_seconds mod 60)%Z in
  let millis := Py.int (Binary64.div_int (microseconds td) 1000) in
  (hours, minutes, secs, millis).

(** [format_timestamp(seconds)] *)
Definition format_timestamp (seconds : Q) : option string :=
  match timedelta_of_seconds seconds with
  | None => None
  | Some td =>
      let '(hours, minutes, secs, millis) := timestamp_fields td in
      Some (format_int 2 hours ++ ":" ++ format_int 2 minutes ++ ":"
            ++ format_int 2 secs ++ "," ++ format_int 3 millis)%string
  end.

End Timestamp.

Module FrameWindows.

Import Py VideoBuilder.

(** The window during which an overlay is enabled: the two numbers of
    [enable='between(t,{t0:.2f},{t1:.2f})']. *)
Definition enabled_window (p : filter_part) : list (Q * Q) :=
  match p with
  | overlay_between _ _ (F2 t0) (F2 t1) _ => [(t0, t1)]
  | _ => []
  end.

(** The word windows of the chunks, chunk after chunk. *)
Definition word_windows (chunks : list str) (chunk_windows : list (Q * Q))
  : list (Q * Q) :=
  flat_map
    (fun '(chunk, (chunkStart, chunkEnd)) =>
       map (Reading.sub_window chunkStart chunkEnd (split chunk))
         (seq 0 (length (split chunk))))
    (combine chunks chunk_windows).

(** Two windows with equal ends. *)
Definition same_window (a b : Q * Q) : Prop :=
  (fst a == fst b)%Q /\ (snd a == snd b)%Q.

End FrameWindows.

(* ===================================================================== *)
(** * reel_generator/utils.py: the duration probe and its failure         *)
(* ===================================================================== *)

Module Ffprobe.

Import Py ReelGenerator.

(** [get_audio_duration(file_path)] of [utils.py].  The subprocess is run
    without [check], its error stream is merged into its output, and
    [float(result.stdout.strip())] reads what was printed: [printed] gives,
    for a file, the number that [float] returns or the message of the
    [ValueError] that it raises on a text that is no number. *)
Definition get_audio_duration (printed : string -> Q + string)
  (file_path : string) : M Q :=
  emit (ran_ffprobe file_path) ;;;
  match printed file_path with
  | inl seconds => ret seconds
  | inr msg => raise (ValueError msg)
  end.

(** [generate(config)] with that probe: [ReelGenerator.generate] is the
    case in which [float] returns [audio_duration w voiceover_path]. *)
Definition generate (w : world) (printed : string -> Q + string)
  (temp_dir output_dir : string) (cfg : config) : M reel :=
  emit (log_info msg_starting_pipeline) ;;;
  (* 1. Voiceover Selection *)
  voiceover_path <~ select_voiceover w temp_dir cfg ;;
  (* 2. Measure Duration *)
  voice_duration <~ get_audio_duration printed voiceover_path ;;
  emit (log_info (msg_voiceover_duration voice_duration)) ;;;
  if negb (Qle_bool 3 voice_duration) then raise too_short else
  (* 3. Timing Logic *)
  let num_middle := length (middle_images cfg) in
  if num_middle =? 0 then raise no_middle_images else
  let per_image_duration :=
    (voice_duration / inject_Z (Z.of_nat num_middle))%Q in
  (if negb (Qle_bool (1 # 2) per_image_duration)
   then emit (log_warning (msg_image_duration_very_short per_image_duration))
   else ret tt) ;;;
  (* 4. Caption Generation *)
  let caption_data :=
    CaptionGenerator.render_captions_to_images (script cfg) true in
  emit (rendered_captions (length caption_data)) ;;;
  let caption_images :=
    map (caption_path temp_dir) (range (length caption_data)) in
  (* 5. Video Generation *)
  let output_file := path_join output_dir "final_reel.mp4"%string in
  let builder_config :=
    {| VideoBuilder.intro_image := intro_image cfg;
       VideoBuilder.outro_image := outro_image cfg;
       VideoBuilder.middle_images := middle_images cfg;
       VideoBuilder.voiceover_audio := voiceover_path;
       VideoBuilder.caption_images := Some caption_images;
       VideoBuilder.title := Some (VideoBuilder.get (title cfg) EmptyString);
       VideoBuilder.script := Some (script cfg);
       VideoBuilder.segments := None;
       VideoBuilder.use_overlay := None |} in
  built <~ lift (VideoBuilder.build_video w builder_config voice_duration) ;;
  emit (ran_ffmpeg stage_build_video job_build_video) ;;;
  if negb (snd built)
  then raise (RuntimeError "Video construction failed."%string)
  else
    let final_video_duration := (3 + voice_duration + 3)%Q in
    emit (log_info msg_reel_generation_complete) ;;;
    ret {| voice_duration := voice_duration;
           per_image_duration := per_image_duration;
           final_video_duration := final_video_duration;
           output_file := output_file |}.

(** A probe that prints the duration of the surroundings for every
    file, and one that prints ffprobe's complaint for every file. *)
Definition prints_duration (w : world) (file_path : string) : Q + string :=
  inl (audio_duration w file_path).

Definition prints_no_number (file_path : string) : Q + string :=
  inr "could not convert string to float"%string.

End Ffprobe.

Unset Implicit Arguments.

Section Strings.

Import Py Reading.

Lemma lstrip_all_space (x : str) :
  forallb isspace x = true -> lstrip x = [].
Proof.
  induction x as [|c x IH]; simpl; [reflexivity|].
  intros H. apply andb_true_iff in H as [Hc Hx]. rewrite Hc. auto.
Qed.

Lemma lstrip_app_space (ws x : str) :
  forallb isspace ws = true -> lstrip (ws ++ x) = lstrip x.
Proof.
  induction ws as [|c ws IH]; simpl; [reflexivity|].
  intros H. apply andb_true_iff in H as [Hc Hx]. rewrite Hc. auto.
Qed.

Lemma lstrip_lstrip_app (x y : str) :
  lstrip (lstrip x ++ y) = lstrip (x ++ y).
Proof.
  induction x as [|c x IH]; simpl; [reflexivity|].
  destruct (isspace c) eqn:Hc; [exact IH|].
  simpl. rewrite Hc. reflexivity.
Qed.

Lemma lstrip_idem (x : str) : lstrip (lstrip x) = lstrip x.
Proof.
  generalize (lstrip_lstrip_app x []). rewrite !app_nil_r. auto.
Qed.

(** What [lstrip] leaves is empty or starts with a character that is not
    whitespace, and what it removes is whitespace. *)
Lemma lstrip_split (x : str) :
  exists ws, x = ws ++ lstrip x /\ forallb isspace ws = true.
Proof.
  induction x as [|c x [ws [E W]]]; simpl.
  - exists []. auto.
  - destruct (isspace c) eqn:Hc.
    + exists (c :: ws). simpl. rewrite Hc, W. split; [congruence|reflexivity].
    + exists []. auto.
Qed.

Lemma lstrip_head (x : str) c y :
  lstrip x = c :: y -> isspace c = false.
Proof.
  induction x as [|d x IH]; simpl; [discriminate|].
  destruct (isspace d) eqn:Hd; [exact IH|].
  intros E. injection E as <- _. exact Hd.
Qed.

Lemma lstrip_fixed (x : str) :
  match x with [] => True | c :: _ => isspace c = false end -> lstrip x = x.
Proof.
  destruct x as [|c x]; simpl; [reflexivity|]. intros ->. reflexivity.
Qed.

Lemma strip_all_space (x : str) :
  forallb isspace x = true -> strip x = [].
Proof.
  intros H. unfold strip, rstrip. rewrite (lstrip_all_space x H). reflexivity.
Qed.

Lemma strip_stripped (x : str) : stripped (strip x).
Proof.
  unfold stripped.
  assert (Hl : lstrip (strip x) = strip x).
  { unfold strip at 2. unfold rstrip.
    destruct (lstrip_split (rev (lstrip x))) as [ws [E _]].
    apply (f_equal (@rev ascii)) in E.
    rewrite rev_involutive, rev_app_distr in E.
    unfold strip, rstrip. apply lstrip_fixed.
    destruct (rev (lstrip (rev (lstrip x)))) as [|c z] eqn:Ez; [exact I|].
    simpl in E. apply (lstrip_head x c _ E). }
  unfold strip at 1. rewrite Hl. unfold rstrip.
  unfold strip at 1. unfold rstrip. rewrite rev_involutive, lstrip_idem.
  reflexivity.
Qed.

Lemma strip_lstrip_app (x y : str) : strip (lstrip x ++ y) = strip (x ++ y).
Proof. unfold strip. rewrite lstrip_lstrip_app. reflexivity. Qed.

Lemma strip_app_space (ws x : str) :
  forallb isspace ws = true -> strip (ws ++ x) = strip x.
Proof.
  intros H. unfold strip. rewrite lstrip_app_space by exact H. reflexivity.
Qed.

Lemma terminal_not_space (c : ascii) :
  is_terminal c = true -> isspace c = false.
Proof.
  unfold is_terminal. intros H.
  apply orb_true_iff in H as [H|H]; [apply orb_true_iff in H as [H|H]|];
    apply Ascii.eqb_eq in H; subst c; reflexivity.
Qed.

(** A string that ends with a character that is not whitespace keeps it
    when stripped, so its strip is not empty. *)
Lemma strip_snoc_truthy (x : str) (c : ascii) :
  isspace c = false -> truthy (strip (x ++ [c])) = true.
Proof.
  intros Hc. unfold strip, rstrip.
  assert (E : exists y, lstrip (x ++ [c]) = y ++ [c]).
  { induction x as [|d x [y Ey]]; simpl.
    - rewrite Hc. exists []. reflexivity.
    - destruct (isspace d); [exists y; exact Ey|].
      exists (d :: x). reflexivity. }
  destruct E as [y ->]. rewrite rev_app_distr. simpl. rewrite Hc.
  simpl. rewrite rev_involutive.
  destruct y; reflexivity.
Qed.

Lemma truthy_strip_has_word (x : str) :
  truthy (strip x) = true -> existsb (fun c => negb (isspace c)) x = true.
Proof.
  intros H. destruct (existsb (fun c => negb (isspace c)) x) eqn:E;
    [reflexivity|].
  assert (A : forallb isspace x = true).
  { clear H. induction x as [|c x IH]; simpl in *; [reflexivity|].
    apply orb_false_iff in E as [E1 E2].
    apply negb_false_iff in E1. rewrite E1. simpl. auto. }
  rewrite (strip_all_space x A) in H. discriminate.
Qed.

Lemma split_from_nonempty (x cur : str) :
  truthy cur = true \/ existsb (fun c => negb (isspace c)) x = true ->
  split_from cur x <> [].
Proof.
  revert cur. induction x as [|c x IH]; intros cur H; simpl.
  - destruct H as [H|H]; [rewrite H; discriminate|discriminate].
  - destruct (isspace c) eqn:Hc.
    + destruct (truthy cur) eqn:Hcur; [discriminate|].
      apply IH. destruct H as [H|H]; [discriminate|].
      simpl in H. rewrite Hc in H. simpl in H. right. exact H.
    + apply IH. left. reflexivity.
Qed.

(** A string whose strip is not empty has at least one word. *)
Lemma split_truthy_strip (x : str) :
  truthy (strip x) = true -> 1 <= length (split x).
Proof.
  intros H. apply truthy_strip_has_word in H.
  assert (N : split x <> []) by (apply split_from_nonempty; right; exact H).
  destruct (split x); [congruence|simpl; lia].
Qed.

End Strings.

Section RegexSplit.

Import Py Reading.

Lemma unterminated_cons (c : ascii) (x : str) :
  unterminated (c :: x) <-> is_terminal c = false /\ unterminated x.
Proof.
  unfold unterminated. simpl. rewrite andb_true_iff, negb_true_iff. tauto.
Qed.

Lemma re_split_from_terminal (pre : str) (p : ascii) (rest : str) :
  unterminated pre -> is_terminal p = true ->
  forall sk cur,
    re_split_from sk cur (pre ++ p :: rest)
    = (rev cur ++ (if sk then lstrip pre else pre))
      :: [p] :: re_split_from true [] rest.
Proof.
  intros U T. induction pre as [|c pre IH]; intros sk cur; simpl.
  - rewrite (terminal_not_space p T), andb_false_r, T.
    destruct sk; rewrite app_nil_r; reflexivity.
  - apply unterminated_cons in U as [Tc U]. specialize (IH U).
    destruct sk; simpl.
    + destruct (isspace c) eqn:Hc; [apply IH|].
      rewrite Tc, IH. simpl. rewrite <- app_assoc. reflexivity.
    + rewrite Tc, IH. simpl. rewrite <- app_assoc. reflexivity.
Qed.

Lemma re_split_from_final (x : str) :
  unterminated x ->
  forall sk cur,
    re_split_from sk cur x = [rev cur ++ (if sk then lstrip x else x)].
Proof.
  intros U. induction x as [|c x IH]; intros sk cur; simpl.
  - destruct sk; rewrite app_nil_r; reflexivity.
  - apply unterminated_cons in U as [Tc U]. specialize (IH U).
    destruct sk; simpl.
    + destruct (isspace c) eqn:Hc; [apply IH|].
      rewrite Tc, IH. simpl. rewrite <- app_assoc. reflexivity.
    + rewrite Tc, IH. simpl. rewrite <- app_assoc. reflexivity.
Qed.

(** A text is free of terminal punctuation or has a first terminal
    character. *)
Lemma first_terminal (x : str) :
  unterminated x \/
  exists pre p rest,
    x = pre ++ p :: rest /\ unterminated pre /\ is_terminal p = true.
Proof.
  induction x as [|c x IH].
  - left. reflexivity.
  - destruct (is_terminal c) eqn:Tc.
    + right. exists [], c, x. repeat split; auto.
    + destruct IH as [U|[pre [p [rest [E [U T]]]]]].
      * left. apply unterminated_cons. auto.
      * right. exists (c :: pre), p, rest. repeat split; auto.
        -- simpl. congruence.
        -- apply unterminated_cons. auto.
Qed.

Lemma re_split_from_odd (x : str) :
  forall sk cur, exists k, length (re_split_from sk cur x) = 2 * k + 1.
Proof.
  induction x as [|c x IH]; intros sk cur; simpl.
  - exists 0. reflexivity.
  - destruct (sk && isspace c); [apply IH|].
    destruct (is_terminal c); [|apply IH].
    destruct (IH true []) as [k E]. exists (S k). simpl. rewrite E. lia.
Qed.

Lemma range_step_even (k : nat) :
  range_step 0 (2 * k) 2 = map (fun j => 2 * j) (seq 0 k).
Proof.
  unfold range_step.
  replace ((2 * k - 0 + (2 - 1)) / 2) with k.
  - apply map_ext. intros j. lia.
  - apply (Nat.div_unique _ 2 k 1); lia.
Qed.

(** The loop over even indices and the trailing test, on a list of odd
    length, take the pieces two at a time. *)
Lemma index_loop_pairs (k : nat) :
  forall pieces : list str,
    length pieces = 2 * k + 1 ->
    (let processed_chunks :=
       flat_map
         (fun i =>
            let chunk := nth i pieces [] ++ nth (i + 1) pieces [] in
            if truthy (strip chunk) then [strip chunk] else [])
         (range_step 0 (length pieces - 1) 2) in
     if negb (length pieces mod 2 =? 0) && truthy (strip (last_item pieces))
     then processed_chunks ++ [strip (last_item pieces)]
     else processed_chunks)
    = chunks_of_pieces pieces.
Proof.
  induction k as [|k IH]; intros pieces L.
  - destruct pieces as [|a [|b pieces]]; simpl in L; try lia.
    cbn -[strip truthy]. destruct (truthy (strip a)); reflexivity.
  - destruct pieces as [|a [|b pieces]]; simpl in L; try lia.
    assert (L' : length pieces = 2 * k + 1) by lia.
    specialize (IH pieces L'). cbv zeta in IH |- *.
    assert (M : forall n, n = 2 * k + 1 -> (S (S n)) mod 2 = n mod 2).
    { intros n ->. replace (S (S (2 * k + 1))) with (1 + (S k) * 2) by lia.
      replace (2 * k + 1) with (1 + k * 2) by lia.
      rewrite !Nat.Div0.mod_add. reflexivity. }
    replace (length (a :: b :: pieces) - 1) with (2 * S k) by (simpl; lia).
    replace (length pieces - 1) with (2 * k) in IH by lia.
    rewrite range_step_even in IH |- *.
    change (length (a :: b :: pieces)) with (S (S (length pieces))).
    rewrite (M _ L').
    replace (last_item (a :: b :: pieces)) with (last_item pieces).
    2:{ unfold last_item. destruct pieces; [simpl in L'; lia|reflexivity]. }
    cbn [chunks_of_pieces]. rewrite <- IH.
    change (seq 0 (S k)) with (0 :: seq 1 k). rewrite <- seq_shift.
    rewrite map_cons, map_map. cbn [flat_map].
    change (nth (2 * 0) (a :: b :: pieces) []) with a.
    change (nth (2 * 0 + 1) (a :: b :: pieces) []) with b.
    assert (F : flat_map
                  (fun i => if truthy (strip (nth i (a :: b :: pieces) []
                                              ++ nth (i + 1) (a :: b :: pieces) []))
                            then [strip (nth i (a :: b :: pieces) []
                                         ++ nth (i + 1) (a :: b :: pieces) [])]
                            else [])
                  (map (fun x => 2 * S x) (seq 0 k))
                = flat_map
                    (fun i => if truthy (strip (nth i pieces [] ++ nth (i + 1) pieces []))
                              then [strip (nth i pieces [] ++ nth (i + 1) pieces [])]
                              else [])
                    (map (fun j => 2 * j) (seq 0 k))).
    { rewrite !flat_map_concat_map, !map_map. f_equal. apply map_ext.
      intros j. replace (2 * S j) with (S (S (2 * j))) by lia.
      replace (S (S (2 * j)) + 1) with (S (S (2 * j + 1))) by lia.
      reflexivity. }
    rewrite F.
    destruct (negb (length pieces mod 2 =? 0) && truthy (strip (last_item pieces)));
      rewrite ?app_assoc; reflexivity.
Qed.

Lemma split_into_chunks_pairs (text : str) :
  CaptionGenerator.split_into_chunks text = chunks_of_pieces (re_split text).
Proof.
  unfold CaptionGenerator.split_into_chunks.
  destruct (re_split_from_odd text false []) as [k L].
  apply (index_loop_pairs k). exact L.
Qed.

End RegexSplit.

Section SplitIntoChunks.

Import Py Reading CaptionGenerator.

Lemma chunks_skip_irrelevant (x : str) :
  chunks_of_pieces (re_split_from true [] x)
  = chunks_of_pieces (re_split_from false [] x).
Proof.
  destruct (first_terminal x) as [U|[pre [p [rest [-> [U T]]]]]].
  - rewrite !(re_split_from_final x U). simpl rev. cbn [app chunks_of_pieces].
    generalize (strip_lstrip_app x []). rewrite !app_nil_r. intros ->.
    reflexivity.
  - rewrite !(re_split_from_terminal pre p rest U T). simpl rev.
    cbn [app chunks_of_pieces]. rewrite strip_lstrip_app. reflexivity.
Qed.

Lemma split_into_chunks_sentence (pre : str) (p : ascii) (rest : str) :
  unterminated pre -> is_terminal p = true ->
  split_into_chunks (pre ++ p :: rest)
  = strip (pre ++ [p]) :: split_into_chunks rest.
Proof.
  intros U T. rewrite !split_into_chunks_pairs. unfold re_split.
  rewrite (re_split_from_terminal pre p rest U T). simpl rev.
  cbn [app chunks_of_pieces].
  rewrite (strip_snoc_truthy pre p (terminal_not_space p T)).
  rewrite chunks_skip_irrelevant. reflexivity.
Qed.

Lemma split_into_chunks_fragment (frag : str) :
  unterminated frag ->
  split_into_chunks frag = if truthy (strip frag) then [strip frag] else [].
Proof.
  intros U. rewrite split_into_chunks_pairs. unfold re_split.
  rewrite (re_split_from_final frag U). reflexivity.
Qed.

Lemma space_unterminated (x : str) :
  forallb isspace x = true -> unterminated x.
Proof.
  induction x as [|c x IH]; simpl; intros H; [reflexivity|].
  apply andb_true_iff in H as [Hc Hx]. apply unterminated_cons.
  split; [|auto].
  destruct (is_terminal c) eqn:T; [|reflexivity].
  rewrite (terminal_not_space c T) in Hc. discriminate.
Qed.

Lemma split_into_chunks_blank (text : str) :
  forallb isspace text = true -> split_into_chunks text = [].
Proof.
  intros H. rewrite (split_into_chunks_fragment text (space_unterminated text H)).
  rewrite (strip_all_space text H). reflexivity.
Qed.

Lemma chunks_of_pieces_stripped (n : nat) :
  forall pieces, length pieces <= n ->
    Forall (fun c => stripped c /\ truthy c = true) (chunks_of_pieces pieces).
Proof.
  induction n as [|n IH]; intros pieces L.
  - destruct pieces; [constructor|simpl in L; lia].
  - destruct pieces as [|a [|b pieces]]; cbn [chunks_of_pieces].
    + constructor.
    + destruct (truthy (strip a)) eqn:E; constructor; [|constructor].
      split; [apply strip_stripped|exact E].
    + apply Forall_app. split.
      * destruct (truthy (strip (a ++ b))) eqn:E; constructor; [|constructor].
        split; [apply strip_stripped|exact E].
      * apply IH. simpl in L. lia.
Qed.

(** Every chunk is stripped, is not empty and has at least one word. *)
Lemma split_into_chunks_stripped (text : str) :
  Forall (fun c => strip c = c /\ c <> [] /\ 1 <= length (split c))
    (split_into_chunks text).
Proof.
  rewrite split_into_chunks_pairs.
  eapply Forall_impl; [|apply (chunks_of_pieces_stripped _ _ (le_n _))].
  intros c [S T]. repeat split.
  - exact S.
  - intros ->. discriminate.
  - apply split_truthy_strip. rewrite S. exact T.
Qed.

(** C4.  [split_into_chunks] cuts the script after every terminal
    punctuation character ['.'], ['!'], ['?']: the text up to and including
    the first terminal character is the first chunk, stripped, and the
    chunks of the rest follow in order; a text without terminal punctuation
    is one chunk, stripped, when it is not blank (the trailing unterminated
    fragment), and no chunk when it is blank; an empty or whitespace-only
    script has no chunks; every chunk is stripped and not empty. *)
Theorem split_into_chunks_spec :
  (forall pre p rest,
      unterminated pre -> is_terminal p = true ->
      split_into_chunks (pre ++ p :: rest)
      = strip (pre ++ [p]) :: split_into_chunks rest)
  /\ (forall frag,
         unterminated frag ->
         split_into_chunks frag
         = if truthy (strip frag) then [strip frag] else [])
  /\ (forall text, forallb isspace text = true -> split_into_chunks text = [])
  /\ (forall text,
         Forall (fun c => strip c = c /\ c <> []) (split_into_chunks text)).
Proof.
  split; [exact split_into_chunks_sentence|].
  split; [exact split_into_chunks_fragment|].
  split; [exact split_into_chunks_blank|].
  intros text. eapply Forall_impl; [|apply split_into_chunks_stripped].
  intros c [S [N _]]. split; assumption.
Qed.

End SplitIntoChunks.

(* ===================================================================== *)
(** * Caption windows                                                     *)
(* ===================================================================== *)

Section ChunkWindows.

Import Py Reading VideoBuilder.

Lemma fold_add_shift (l : list Z) (a : Z) :
  fold_left Z.add l a = (a + fold_left Z.add l 0)%Z.
Proof.
  revert a. induction l as [|x l IH]; intros a; simpl; [lia|].
  rewrite (IH (a + x)%Z), (IH x). lia.
Qed.

Lemma sum_cons (x : Z) (l : list Z) : sum (x :: l) = (x + sum l)%Z.
Proof. unfold sum. simpl. apply fold_add_shift. Qed.

Lemma sum_app (l1 l2 : list Z) : sum (l1 ++ l2) = (sum l1 + sum l2)%Z.
Proof.
  induction l1 as [|x l1 IH]; [reflexivity|].
  simpl app. rewrite !sum_cons, IH. lia.
Qed.

Lemma sum_at_least (l : list Z) (m : Z) :
  Forall (fun x => (m <= x)%Z) l -> (m * Z.of_nat (length l) <= sum l)%Z.
Proof.
  induction 1 as [|x l Hx Hl IH]; [unfold sum; simpl; lia|].
  rewrite sum_cons. simpl length. lia.
Qed.

Lemma chunk_word_counts_positive (chunks : list str) :
  Forall (fun cw => (1 <= cw)%Z) (chunk_word_counts chunks).
Proof.
  unfold chunk_word_counts. apply Forall_forall. intros cw H.
  apply in_map_iff in H as [c [<- _]]. lia.
Qed.

Lemma div_integers (a b : Z) :
  b <> 0%Z ->
  div (inject_Z a) (inject_Z b) = Ok (inject_Z a / inject_Z b)%Q.
Proof.
  intros Hb. unfold div.
  destruct (Qeq_bool (inject_Z b) 0) eqn:E; [|reflexivity].
  apply Qeq_bool_iff in E. unfold Qeq in E. simpl in E. lia.
Qed.

Lemma div_by_zero (a : Q) : div a (inject_Z 0) = Raise ZeroDivisionError.
Proof. reflexivity. Qed.

(** With a total that is not zero the loop never raises and computes
    [place]. *)
Lemma window_loop_place (total : Z) (W : Q) (counts : list Z) :
  total <> 0%Z ->
  forall st,
    for_each counts (window_step total W) st
    = Ok {| chunk_windows_acc :=
              chunk_windows_acc st ++ place (t_acc st) W total counts;
            t_acc := place_end (t_acc st) W total counts |}.
Proof.
  intros Ht. induction counts as [|cw counts IH]; intros st; simpl.
  - rewrite app_nil_r. destruct st; reflexivity.
  - unfold window_step at 1. rewrite (div_integers cw total Ht). simpl.
    rewrite IH. simpl. rewrite <- app_assoc. reflexivity.
Qed.

Lemma place_length (t W : Q) (total : Z) (counts : list Z) :
  length (place t W total counts) = length counts.
Proof.
  revert t. induction counts as [|cw counts IH]; intros t; simpl; auto.
Qed.

Lemma place_end_sum (W : Q) (total : Z) (counts : list Z) :
  forall t,
    (place_end t W total counts
     == t + inject_Z (sum counts) / inject_Z total * W)%Q.
Proof.
  induction counts as [|cw counts IH]; intros t; simpl.
  - unfold sum. simpl. unfold Qdiv. ring.
  - rewrite IH, sum_cons, inject_Z_plus. unfold Qdiv. ring.
Qed.

Lemma fraction_positive (cw total : Z) (W : Q) :
  (1 <= cw)%Z -> (0 < total)%Z -> (0 < W)%Q ->
  (0 < inject_Z cw / inject_Z total * W)%Q.
Proof.
  intros Hc Ht HW.
  apply Qmult_lt_0_compat; [|exact HW].
  apply Qlt_shift_div_l.
  - replace 0%Q with (inject_Z 0) by reflexivity. rewrite <- Zlt_Qlt. exact Ht.
  - rewrite Qmult_0_l.
    replace 0%Q with (inject_Z 0) by reflexivity. rewrite <- Zlt_Qlt. lia.
Qed.

Lemma tiles_place (W : Q) (total : Z) (counts : list Z) :
  (0 < total)%Z -> (0 < W)%Q -> Forall (fun cw => (1 <= cw)%Z) counts ->
  forall t, tiles t (place t W total counts) (place_end t W total counts).
Proof.
  intros Ht HW. induction 1 as [|cw counts Hc Hcs IH]; intros t; simpl.
  - constructor. reflexivity.
  - constructor; [reflexivity| |apply IH].
    generalize (fraction_positive cw total W Hc Ht HW). lra.
Qed.

Lemma place_nth (W : Q) (total : Z) (counts : list Z) :
  forall t k cw win,
    nth_error counts k = Some cw ->
    nth_error (place t W total counts) k = Some win ->
    (width win == inject_Z cw / inject_Z total * W)%Q.
Proof.
  induction counts as [|c counts IH]; intros t k cw win Hc Hw.
  - destruct k; discriminate.
  - destruct k as [|k]; simpl in *.
    + injection Hc as <-. injection Hw as <-. unfold width. simpl. ring.
    + eapply IH; eassumption.
Qed.

Lemma place_widths_sum (W : Q) (total : Z) (counts : list Z) :
  forall t,
    (Qsum (map width (place t W total counts))
     == place_end t W total counts - t)%Q.
Proof.
  induction counts as [|cw counts IH]; intros t; simpl.
  - ring.
  - rewrite IH. unfold width. simpl. ring.
Qed.

Lemma tiles_weaken (ws : list (Q * Q)) :
  forall a b b', tiles a ws b -> (b == b')%Q -> tiles a ws b'.
Proof.
  induction ws as [|[t0 t1] ws IH]; intros a b b' T E; inversion T; subst.
  - constructor. rewrite <- E. assumption.
  - constructor; eauto.
Qed.

End ChunkWindows.

Section ChunkWindowTheorems.

Import Py Reading VideoBuilder CaptionGenerator.

Lemma place_nonnegative (W : Q) (total : Z) (counts : list Z) :
  (0 < total)%Z -> (0 <= W)%Q -> Forall (fun cw => (1 <= cw)%Z) counts ->
  forall t, Forall (fun win => (fst win <= snd win)%Q) (place t W total counts).
Proof.
  intros Ht HW. induction 1 as [|cw counts Hc Hcs IH]; intros t; simpl.
  - constructor.
  - constructor; [|apply IH]. simpl.
    assert (F : (0 <= inject_Z cw / inject_Z total)%Q).
    { apply Qle_shift_div_l.
      - replace 0%Q with (inject_Z 0) by reflexivity. rewrite <- Zlt_Qlt. exact Ht.
      - rewrite Qmult_0_l.
        replace 0%Q with (inject_Z 0) by reflexivity. rewrite <- Zle_Qle. lia. }
    generalize (Qmult_le_0_compat _ _ F HW). lra.
Qed.

Lemma total_words_positive (chunks : list str) :
  chunks <> [] -> (1 <= sum (chunk_word_counts chunks))%Z.
Proof.
  intros N.
  generalize (sum_at_least _ 1 (chunk_word_counts_positive chunks)).
  unfold chunk_word_counts at 1. rewrite length_map.
  destruct chunks; [congruence|]. simpl length. lia.
Qed.

Lemma compute_chunk_windows_place (caption_start W : Q) (chunks : list str) :
  chunks <> [] ->
  compute_chunk_windows caption_start W chunks
  = Ok (place caption_start W (sum (chunk_word_counts chunks))
          (chunk_word_counts chunks)).
Proof.
  intros N. unfold compute_chunk_windows, chunk_windows_loop.
  rewrite window_loop_place; [reflexivity|].
  generalize (total_words_positive chunks N). lia.
Qed.

(** C10.  Every chunk weighs [max(wordCount, 1)], hence at least 1; for a
    chunk list that is not empty the total weight is at least 1, the
    division by the total never raises, and every chunk window has a
    non-negative width, whatever the chunks are (a chunk without any word
    included). *)
Theorem chunk_weights_never_divide_by_zero
  (chunks : list str) (caption_start caption_window : Q) :
  chunks <> [] -> (0 <= caption_window)%Q ->
  Forall2 (fun c cw => cw = Z.max (Z.of_nat (length (split c))) 1
                       /\ (1 <= cw)%Z)
    chunks (chunk_word_counts chunks)
  /\ (1 <= sum (chunk_word_counts chunks))%Z
  /\ exists ws,
      compute_chunk_windows caption_start caption_window chunks = Ok ws
      /\ length ws = length chunks
      /\ Forall (fun win => (fst win <= snd win)%Q) ws.
Proof.
  intros N HW. split; [|split].
  - unfold chunk_word_counts. clear N.
    induction chunks as [|c chunks IH]; constructor; [split; [reflexivity|lia]|].
    exact IH.
  - apply total_words_positive. exact N.
  - eexists. split; [apply compute_chunk_windows_place; exact N|]. split.
    + rewrite place_length. unfold chunk_word_counts. apply length_map.
    + apply place_nonnegative; [|exact HW|apply chunk_word_counts_positive].
      generalize (total_words_positive chunks N). lia.
Qed.

(** The chunks of a script have a word each, so their weight is their word
    count. *)
Lemma script_word_counts (script : str) :
  chunk_word_counts (split_into_chunks script)
  = map (fun c => Z.of_nat (length (split c))) (split_into_chunks script).
Proof.
  unfold chunk_word_counts. apply map_ext_in. intros c H.
  generalize (split_into_chunks_stripped script). rewrite Forall_forall.
  intros A. destruct (A c H) as [_ [_ L]]. lia.
Qed.

Lemma sum_of_nats (l : list nat) :
  sum (map Z.of_nat l) = Z.of_nat (list_sum l).
Proof.
  induction l as [|x l IH]; [reflexivity|].
  simpl map. rewrite sum_cons, IH. simpl. lia.
Qed.

(** The chunk windows of a script tile the caption range. *)
Lemma script_windows_tile (script : str) (rangeStart rangeEnd : Q) :
  split_into_chunks script <> [] -> (rangeStart < rangeEnd)%Q ->
  let chunks := split_into_chunks script in
  let wordCount := fun c : str => length (split c) in
  let totalWordCount := list_sum (map wordCount chunks) in
  exists ws,
    compute_chunk_windows rangeStart (rangeEnd - rangeStart) chunks = Ok ws
    /\ length ws = length chunks
    /\ tiles rangeStart ws rangeEnd
    /\ (forall k chunk win,
           nth_error chunks k = Some chunk -> nth_error ws k = Some win ->
           (width win
            == inject_Z (Z.of_nat (wordCount chunk))
               / inject_Z (Z.of_nat totalWordCount)
               * (rangeEnd - rangeStart))%Q)
    /\ (Qsum (map width ws) == rangeEnd - rangeStart)%Q.
Proof.
  intros N HR chunks wordCount totalWordCount.
  assert (HW : (0 < rangeEnd - rangeStart)%Q) by lra.
  assert (C : chunk_word_counts chunks = map Z.of_nat (map wordCount chunks)).
  { unfold chunks. rewrite script_word_counts, map_map. reflexivity. }
  assert (T : sum (chunk_word_counts chunks) = Z.of_nat totalWordCount).
  { rewrite C. apply sum_of_nats. }
  assert (P : (0 < sum (chunk_word_counts chunks))%Z).
  { generalize (total_words_positive chunks N). lia. }
  assert (E : (place_end rangeStart (rangeEnd - rangeStart)
                 (sum (chunk_word_counts chunks)) (chunk_word_counts chunks)
               == rangeEnd)%Q).
  { rewrite place_end_sum. field.
    replace 0%Q with (inject_Z 0) by reflexivity. rewrite inject_Z_injective.
    lia. }
  eexists. split; [apply compute_chunk_windows_place; exact N|].
  split; [|split; [|split]].
  - rewrite place_length. unfold chunk_word_counts. apply length_map.
  - eapply tiles_weaken; [|exact E].
    apply tiles_place; [exact P|exact HW|apply chunk_word_counts_positive].
  - intros k chunk win Hc Hw. rewrite <- T.
    eapply place_nth; [|exact Hw].
    rewrite C, map_map. rewrite nth_error_map, Hc. reflexivity.
  - rewrite place_widths_sum, E. reflexivity.
Qed.

(** C2.  The chunk windows of a script with at least one chunk over a
    caption range [[rangeStart, rangeEnd]] with [rangeStart < rangeEnd]:
    the k-th window has width [wordCount_k / totalWordCount * (rangeEnd -
    rangeStart)], the first starts at [rangeStart], each starts where the
    previous one ends and has a positive width (contiguous, without
    overlap), the last ends at [rangeEnd], and the widths add up to
    [rangeEnd - rangeStart]. *)
Theorem chunk_windows_tile (script : str) (rangeStart rangeEnd : Q) :
  split_into_chunks script <> [] -> (rangeStart < rangeEnd)%Q ->
  let chunks := split_into_chunks script in
  let wordCount := fun c : str => length (split c) in
  let totalWordCount := list_sum (map wordCount chunks) in
  exists ws,
    compute_chunk_windows rangeStart (rangeEnd - rangeStart) chunks = Ok ws
    /\ length ws = length chunks
    /\ tiles rangeStart ws rangeEnd
    /\ (forall k chunk win,
           nth_error chunks k = Some chunk -> nth_error ws k = Some win ->
           (width win
            == inject_Z (Z.of_nat (wordCount chunk))
               / inject_Z (Z.of_nat totalWordCount)
               * (rangeEnd - rangeStart))%Q)
    /\ (Qsum (map width ws) == rangeEnd - rangeStart)%Q.
Proof. exact (script_windows_tile script rangeStart rangeEnd). Qed.

End ChunkWindowTheorems.

(* ===================================================================== *)
(** * Typewriter mode                                                     *)
(* ===================================================================== *)

Section Typewriter.

Import Py Reading VideoBuilder CaptionGenerator.

(** The inner loop over the words of one chunk, not yet found: it stops at
    frame [i] when [i] falls among the words of this chunk, and counts
    the words otherwise. *)
Lemma scan_words_spec (i ci n : nat) :
  forall a st,
    found st = false -> frame_counter st <= i ->
    scan_words i ci (seq a n) st
    = if i <? frame_counter st + n
      then {| chunk_idx := ci; word_idx := a + (i - frame_counter st);
              frame_counter := i; found := true |}
      else {| chunk_idx := chunk_idx st; word_idx := word_idx st;
              frame_counter := frame_counter st + n; found := false |}.
Proof.
  induction n as [|n IH]; intros a st F L; simpl.
  - destruct (Nat.ltb_spec i (frame_counter st + 0)); [lia|].
    destruct st; simpl in *. subst. f_equal. lia.
  - destruct (Nat.eqb_spec (frame_counter st) i) as [E|E].
    + destruct (Nat.ltb_spec i (frame_counter st + S n)); [|lia].
      f_equal; lia.
    + rewrite IH; simpl; [|exact F|lia].
      destruct (Nat.ltb_spec i (frame_counter st + 1 + n));
        destruct (Nat.ltb_spec i (frame_counter st + S n)); try lia;
        f_equal; lia.
Qed.

(** The outer loop: frame [words_before cs j + wi], counted from the
    frame counter on entry, is word [wi] of the j-th chunk. *)
Lemma scan_chunks_spec (i : nat) (cs : list str) :
  forall c0 st j chunk wi,
    found st = false ->
    nth_error cs j = Some chunk -> wi < length (split chunk) ->
    i = frame_counter st + words_before cs j + wi ->
    let r := scan_chunks i (combine (seq c0 (length cs)) cs) st in
    chunk_idx r = c0 + j /\ word_idx r = wi /\ found r = true.
Proof.
  induction cs as [|c cs IH]; intros c0 st j chunk wi F Hc Hw Hi.
  - destruct j; discriminate.
  - cbn [length seq combine scan_chunks]. unfold range.
    rewrite scan_words_spec by (auto; lia).
    destruct j as [|j].
    + injection Hc as ->. unfold words_before in Hi. simpl in Hi.
      destruct (Nat.ltb_spec i (frame_counter st + length (split chunk)));
        [|lia].
      simpl. repeat split; lia.
    + unfold words_before in Hi. simpl in Hi.
      destruct (Nat.ltb_spec i (frame_counter st + length (split c)));
        [lia|].
      simpl.
      destruct (IH (S c0)
                  {| chunk_idx := chunk_idx st; word_idx := word_idx st;
                     frame_counter := frame_counter st + length (split c);
                     found := false |} j chunk wi eq_refl Hc Hw)
        as [A [B C]].
      { simpl. unfold words_before. lia. }
      repeat split; [lia|exact B|exact C].
Qed.

Lemma locate_frame_spec (chunks : list str) (ci wi : nat) (chunk : str) :
  nth_error chunks ci = Some chunk -> wi < length (split chunk) ->
  let r := locate_frame chunks (words_before chunks ci + wi) in
  chunk_idx r = ci /\ word_idx r = wi /\ found r = true.
Proof.
  intros Hc Hw. unfold locate_frame, enumerate.
  apply (scan_chunks_spec _ chunks 0 _ ci chunk wi); auto.
Qed.

(** Wherever the search ends, the chunk index is the initial one or the
    index of one of the chunks. *)
Lemma scan_words_chunk_idx (i ci : nat) (wis : list nat) :
  forall st,
    chunk_idx (scan_words i ci wis st) = chunk_idx st
    \/ chunk_idx (scan_words i ci wis st) = ci.
Proof.
  induction wis as [|wi wis IH]; intros st; simpl; [auto|].
  destruct (frame_counter st =? i); [auto|].
  destruct (IH {| chunk_idx := chunk_idx st; word_idx := word_idx st;
                  frame_counter := frame_counter st + 1;
                  found := found st |}); auto.
Qed.

Lemma scan_chunks_chunk_idx (i : nat) (cs : list str) :
  forall c0 st,
    let r := scan_chunks i (combine (seq c0 (length cs)) cs) st in
    chunk_idx r = chunk_idx st \/ c0 <= chunk_idx r < c0 + length cs.
Proof.
  induction cs as [|c cs IH]; intros c0 st; simpl; [auto|].
  set (st' := scan_words i c0 (range (length (split c))) st).
  destruct (scan_words_chunk_idx i c0 (range (length (split c))) st) as [E|E];
    fold st' in E.
  - destruct (found st'); [left; exact E|].
    destruct (IH (S c0) st') as [A|A]; [left; congruence|right; lia].
  - destruct (found st'); [right; lia|].
    destruct (IH (S c0) st') as [A|A]; [right; lia|right; lia].
Qed.

Lemma locate_frame_in_range (chunks : list str) (i : nat) :
  chunks <> [] -> chunk_idx (locate_frame chunks i) < length chunks.
Proof.
  intros N. unfold locate_frame, enumerate.
  destruct (scan_chunks_chunk_idx i chunks 0
              {| chunk_idx := 0; word_idx := 0; frame_counter := 0;
                 found := false |}) as [E|E]; simpl in E.
  - rewrite E. destruct chunks; [congruence|simpl; lia].
  - lia.
Qed.

End Typewriter.

Section WordWindows.

Import Py Reading VideoBuilder CaptionGenerator.

Lemma cum_char_weight_succ (words : list str) (k : nat) (w : str) :
  nth_error words k = Some w ->
  cum_char_weight words (k + 1)
  = (cum_char_weight words k + Z.max (Z.of_nat (length w)) 2)%Z.
Proof.
  revert k. unfold cum_char_weight.
  induction words as [|x words IH]; intros k H.
  - destruct k; discriminate.
  - destruct k as [|k]; simpl in *.
    + injection H as ->. rewrite !sum_cons. unfold sum. simpl. lia.
    + rewrite !sum_cons, (IH k H). lia.
Qed.

Lemma total_char_weight_positive (words : list str) :
  words <> [] -> (2 <= total_char_weight words)%Z.
Proof.
  intros N. unfold total_char_weight, cum_char_weight. rewrite firstn_all.
  assert (A : Forall (fun x => (2 <= x)%Z)
                (map (fun w : str => Z.max (Z.of_nat (length w)) 2) words)).
  { apply Forall_forall. intros x H. apply in_map_iff in H as [w [<- _]]. lia. }
  generalize (sum_at_least _ 2 A). rewrite length_map.
  destruct words; [congruence|]. simpl length. unfold str in *. lia.
Qed.

(** The window that the code computes for a word is the window of the
    specification, and computing it does not raise. *)
Lemma word_window_sub (s e : Q) (words : list str) (wi : nat) :
  words <> [] ->
  word_window (s, e) words wi = Ok (sub_window s e words wi).
Proof.
  intros N. unfold word_window, sub_window, prefix, char_weights.
  rewrite !firstn_map.
  assert (T : sum (map (fun w : list ascii => Z.max (Z.of_nat (length w)) 2)
                     words)
              = total_char_weight words).
  { unfold total_char_weight, cum_char_weight. rewrite firstn_all. reflexivity. }
  rewrite T. fold (cum_char_weight words wi) (cum_char_weight words (wi + 1)).
  generalize (total_char_weight_positive words N). intros P.
  rewrite !div_integers by lia. reflexivity.
Qed.

Lemma tiles_start (ws : list (Q * Q)) (a a' b : Q) :
  tiles a ws b -> (a == a')%Q -> tiles a' ws b.
Proof.
  intros T E. inversion T; subst.
  - constructor. rewrite <- E. assumption.
  - constructor; auto. rewrite <- E. assumption.
Qed.

Lemma tiles_sub_windows_from (s e : Q) (words : list str) (n : nat) :
  words <> [] -> (s < e)%Q ->
  forall i,
    i + n = length words ->
    tiles (fst (sub_window s e words i))
      (map (sub_window s e words) (seq i n))
      (snd (sub_window s e words (length words - 1))).
Proof.
  intros N L. generalize (total_char_weight_positive words N). intros P.
  induction n as [|n IH]; intros i Hi; simpl.
  - constructor. simpl. rewrite Nat.add_0_r in Hi. subst i.
    replace (length words - 1 + 1) with (length words)
      by (destruct words; [congruence|simpl; lia]).
    reflexivity.
  - destruct (nth_error words i) as [w|] eqn:Hw.
    2:{ apply nth_error_None in Hw. lia. }
    unfold sub_window at 2. cbv zeta.
    constructor.
    + reflexivity.
    + rewrite (cum_char_weight_succ words i w Hw), inject_Z_plus.
      assert (A : (0 < inject_Z (Z.max (Z.of_nat (length w)) 2)
                       / inject_Z (total_char_weight words) * (e - s))%Q).
      { apply fraction_positive; [lia|lia|lra]. }
      unfold Qdiv in *. lra.
    + replace (i + 1) with (S i) by lia.
      apply (IH (S i)). lia.
Qed.

(** The word windows of a chunk tile the window of the chunk. *)
Lemma tiles_sub_windows (s e : Q) (words : list str) :
  words <> [] -> (s < e)%Q ->
  tiles s (map (sub_window s e words) (seq 0 (length words))) e.
Proof.
  intros N L. generalize (total_char_weight_positive words N). intros P.
  eapply tiles_weaken; [eapply tiles_start|].
  - apply (tiles_sub_windows_from s e words (length words) N L 0). lia.
  - simpl. unfold cum_char_weight, sum. simpl. unfold Qdiv. ring.
  - simpl.
    replace (length words - 1 + 1) with (length words)
      by (destruct words; [congruence|simpl; lia]).
    fold (total_char_weight words). field.
    replace 0%Q with (inject_Z 0) by reflexivity. rewrite inject_Z_injective.
    lia.
Qed.

End WordWindows.

Section TypewriterTheorem.

Import Py Reading VideoBuilder CaptionGenerator.

Lemma index_nth_error {A : Type} (l : list A) (i : nat) (a : A) :
  nth_error l i = Some a -> index l (Z.of_nat i) = Ok a.
Proof.
  intros H. unfold index.
  destruct (Z.ltb_spec (Z.of_nat i) 0); [lia|].
  destruct (Z.ltb_spec (Z.of_nat i) 0); [lia|].
  rewrite Nat2Z.id, H. reflexivity.
Qed.

(** C3.  In typewriter mode the frame of the i-th word of a chunk that has
    at least one word is shown during
    [[chunkStart + cumCharWeight(0..i-1)/totalCharWeight * chunkDuration,
      chunkStart + cumCharWeight(0..i)/totalCharWeight * chunkDuration]],
    every word weighing [max(len(word), 2)]; over a chunk window with
    [chunkStart < chunkEnd] these windows start at [chunkStart], each has
    a positive width and starts where the previous one ends, and the last
    one ends at [chunkEnd]. *)
Theorem typewriter_word_windows
  (chunks : list str) (chunk_windows : list (Q * Q)) (ci : nat) (chunk : str)
  (chunkStart chunkEnd : Q) :
  nth_error chunks ci = Some chunk ->
  nth_error chunk_windows ci = Some (chunkStart, chunkEnd) ->
  1 <= length (split chunk) ->
  (chunkStart < chunkEnd)%Q ->
  let words := split chunk in
  (forall i, i < length words ->
     typewriter_window chunks chunk_windows (words_before chunks ci + i)
     = Ok (sub_window chunkStart chunkEnd words i))
  /\ tiles chunkStart
       (map (sub_window chunkStart chunkEnd words) (seq 0 (length words)))
       chunkEnd.
Proof.
  intros Hc Hw Hn Hlt words.
  assert (N : words <> []).
  { unfold words. intros E. rewrite E in Hn. simpl in Hn. lia. }
  split.
  - intros i Hi. unfold typewriter_window.
    destruct (locate_frame_spec chunks ci i chunk Hc Hi) as [A [B _]].
    rewrite A, B.
    rewrite (index_nth_error chunk_windows ci _ Hw). simpl.
    rewrite (index_nth_error chunks ci _ Hc). simpl.
    apply word_window_sub. exact N.
  - apply tiles_sub_windows; assumption.
Qed.

(** In [build_video] every chunk of the script has a window of positive
    width and at least one word, so the statement above applies to each
    of them. *)
Lemma script_chunk_has_window (script : str) (voice_duration : Q) (ci : nat)
  (chunk : str) :
  (0 < voice_duration)%Q ->
  nth_error (split_into_chunks script) ci = Some chunk ->
  exists chunk_windows chunkStart chunkEnd,
    compute_chunk_windows INTRO_DURATION
      (outro_offset voice_duration - INTRO_DURATION)
      (split_into_chunks script) = Ok chunk_windows
    /\ nth_error chunk_windows ci = Some (chunkStart, chunkEnd)
    /\ 1 <= length (split chunk)
    /\ (chunkStart < chunkEnd)%Q.
Proof.
  intros HD Hc.
  assert (N : split_into_chunks script <> []).
  { intros E. rewrite E in Hc. destruct ci; discriminate. }
  assert (R : (INTRO_DURATION < outro_offset voice_duration)%Q).
  { unfold outro_offset. lra. }
  destruct (script_windows_tile script INTRO_DURATION
              (outro_offset voice_duration) N R) as [ws [E [L [T _]]]].
  assert (I : ci < length ws).
  { rewrite L. apply nth_error_Some. congruence. }
  destruct (nth_error ws ci) as [[a b]|] eqn:Hw.
  2:{ apply nth_error_None in Hw. lia. }
  exists ws, a, b. repeat split; auto.
  - generalize (split_into_chunks_stripped script). rewrite Forall_forall.
    intros F. apply (F chunk). eapply nth_error_In. exact Hc.
  - clear - T Hw. revert ci Hw.
    induction T as [|s t0 t1 ws e E1 E2 T IH]; intros ci Hw.
    + destruct ci; discriminate.
    + destruct ci as [|ci]; simpl in Hw.
      * injection Hw as <- <-. exact E2.
      * eapply IH. exact Hw.
Qed.

End TypewriterTheorem.

(* ===================================================================== *)
(** * The transition loop and the outro anchor                            *)
(* ===================================================================== *)

Section JoinLoop.

Import Py Reading VideoBuilder.

Lemma join_fold (per_image : Q) (m : nat) :
  forall k parts,
    fold_left (join_step per_image) (seq (S k) m)
      {| join_parts := parts;
         last_label := if k =? 0 then v 0 else v_join k;
         cumulative_duration := cum_after per_image k |}
    = {| join_parts := parts ++ map (join_part_at per_image) (seq k m);
         last_label := if k + m =? 0 then v 0 else v_join (k + m);
         cumulative_duration := cum_after per_image (k + m) |}.
Proof.
  induction m as [|m IH]; intros k parts.
  - simpl. rewrite app_nil_r, Nat.add_0_r. reflexivity.
  - cbn [seq fold_left map]. unfold join_step at 2.
    cbn [join_parts last_label cumulative_duration].
    specialize (IH (S k)
                  (parts ++ [xfade (if k =? 0 then v 0 else v_join k)
                               (v (S k)) (transition_style (S k - 1))
                               (FRepr TRANSITION_DURATION)
                               (F2 (cum_after per_image k - TRANSITION_DURATION)%Q)
                               (v_join (S k))])).
    cbn [Nat.eqb cum_after] in IH. rewrite IH.
    rewrite <- app_assoc. replace (S k + m) with (k + S m) by lia.
    reflexivity.
Qed.

Lemma join_loop_closed (per_image : Q) (n : nat) :
  join_loop per_image (n + 2)
  = {| join_parts := map (join_part_at per_image) (seq 0 n);
       last_label := if n =? 0 then v 0 else v_join n;
       cumulative_duration := cum_after per_image n |}.
Proof.
  unfold join_loop. replace (n + 2 - 2) with n by lia.
  apply (join_fold per_image n 0 []).
Qed.

Lemma cum_after_linear (per_image : Q) (k : nat) :
  (cum_after per_image k
   == INTRO_DURATION
      + inject_Z (Z.of_nat k) * (per_image - TRANSITION_DURATION))%Q.
Proof.
  induction k as [|k IH].
  - simpl. ring.
  - cbn [cum_after]. rewrite IH, Nat2Z.inj_succ. unfold Z.succ.
    rewrite inject_Z_plus. ring.
Qed.

(** After the N crossfades of the middle images the cumulative duration is
    one transition past the outro offset. *)
Lemma cumulative_duration_anchor (voice_duration : Q) (N : nat) :
  1 <= N ->
  (cumulative_duration
     (join_loop (per_image_duration voice_duration N) (N + 2))
   == INTRO_DURATION + voice_duration + TRANSITION_DURATION)%Q.
Proof.
  intros HN. rewrite join_loop_closed. cbn [cumulative_duration].
  rewrite cum_after_linear. unfold per_image_duration.
  destruct (Nat.ltb_spec 0 N); [|lia].
  field.
  replace 0%Q with (inject_Z 0) by reflexivity. rewrite inject_Z_injective.
  lia.
Qed.

End JoinLoop.

(* ===================================================================== *)
(** * The caption stage                                                   *)
(* ===================================================================== *)

Section CaptionStage.

Import Py Reading VideoBuilder CaptionGenerator.

Lemma index_in_range {A : Type} (l : list A) (j : Z) :
  (0 <= j < Z.of_nat (length l))%Z -> exists a, index l j = Ok a.
Proof.
  intros H. unfold index.
  destruct (Z.ltb_spec j 0); [lia|].
  destruct (Z.ltb_spec j 0); [lia|].
  destruct (nth_error l (Z.to_nat j)) as [a|] eqn:E; [eauto|].
  apply nth_error_None in E. lia.
Qed.

Lemma index_empty {A : Type} (j : Z) : index (@nil A) j = Raise IndexError.
Proof.
  unfold index. simpl.
  destruct (j <? 0)%Z; destruct (_ <? 0)%Z; try reflexivity;
    destruct (Z.to_nat _); reflexivity.
Qed.

(** The loop over the caption frames: when every frame has a window, the
    loop appends one overlay per frame and ends on the label of the last
    one. *)
Lemma caption_loop_ok (idx : nat) (window_of : nat -> result (Q * Q))
  (n : nat) :
  forall a st,
    (forall i, a <= i < a + n -> exists win, window_of i = Ok win) ->
    exists overlays,
      for_each (seq a n) (caption_step idx window_of) st
      = Ok {| overlay_parts := overlay_parts st ++ overlays;
              curr_v := if n =? 0 then curr_v st else v_cap (a + n - 1) |}
      /\ Forall plain overlays.
Proof.
  induction n as [|n IH]; intros a st H.
  - exists []. simpl. rewrite app_nil_r. destruct st. split; [reflexivity|].
    constructor.
  - destruct (H a) as [[t0 t1] Hw]; [lia|].
    cbn [seq for_each]. unfold caption_step at 1. rewrite Hw. cbn [bind].
    destruct (IH (S a)
                {| overlay_parts :=
                     overlay_parts st ++
                     [overlay_between (curr_v st) (idx + a) (F2 t0) (F2 t1)
                        (v_cap a)];
                   curr_v := v_cap a |}) as [overlays [E P]].
    { intros i Hi. apply H. lia. }
    exists (overlay_between (curr_v st) (idx + a) (F2 t0) (F2 t1) (v_cap a)
            :: overlays).
    split.
    + rewrite E. cbn [overlay_parts curr_v]. rewrite <- app_assoc.
      cbn [app]. do 2 f_equal.
      destruct n; cbn [Nat.eqb]; f_equal; lia.
    + constructor; [|exact P]. repeat split.
Qed.

Lemma caption_loop_first_raises (idx : nat) (window_of : nat -> result (Q * Q))
  (n : nat) (e : exn) (st : overlay_state) :
  window_of 0 = Raise e -> 1 <= n ->
  for_each (range n) (caption_step idx window_of) st = Raise e.
Proof.
  intros H Hn. destruct n; [lia|].
  unfold range. cbn [seq for_each]. unfold caption_step. rewrite H.
  reflexivity.
Qed.

Lemma typewriter_window_ok (script : str) (chunk_windows : list (Q * Q))
  (i : nat) :
  split_into_chunks script <> [] ->
  length chunk_windows = length (split_into_chunks script) ->
  exists win,
    typewriter_window (split_into_chunks script) chunk_windows i = Ok win.
Proof.
  intros N L. unfold typewriter_window.
  generalize (locate_frame_in_range (split_into_chunks script) i N).
  set (loc := locate_frame (split_into_chunks script) i). intros B.
  destruct (index_in_range chunk_windows (Z.of_nat (chunk_idx loc)))
    as [[a b] ->]; [lia|].
  destruct (index_in_range (split_into_chunks script)
              (Z.of_nat (chunk_idx loc))) as [chunk Hc]; [lia|].
  rewrite Hc. cbn [bind].
  rewrite word_window_sub; [eauto|].
  assert (I : In chunk (split_into_chunks script)).
  { unfold index in Hc.
    destruct (Z.ltb_spec (Z.of_nat (chunk_idx loc)) 0); [lia|].
    destruct (Z.ltb_spec (Z.of_nat (chunk_idx loc)) 0); [lia|].
    destruct (nth_error _ _) eqn:E; [|discriminate].
    injection Hc as <-. eapply nth_error_In. exact E. }
  generalize (split_into_chunks_stripped script). rewrite Forall_forall.
  intros F. destruct (F chunk I) as [_ [_ W]].
  intros E. rewrite E in W. simpl in W. lia.
Qed.

Lemma static_window_ok (chunk_windows : list (Q * Q)) (i : nat) :
  chunk_windows <> [] -> exists win, static_window chunk_windows i = Ok win.
Proof.
  intros N. unfold static_window. apply index_in_range.
  destruct chunk_windows; [congruence|]. simpl length. lia.
Qed.

End CaptionStage.

Section GraphStructure.

Import Py Reading VideoBuilder CaptionGenerator.

Lemma caption_stage_ok (cfg : config) (voice_duration : Q) (idx : nat) :
  captions_consistent cfg voice_duration ->
  exists overlays a,
    caption_stage cfg voice_duration idx
    = Ok (overlays ++ [null a v_captioned])
    /\ Forall plain overlays
    /\ (length (get (caption_images cfg) []) = 0 ->
        overlays = [] /\ a = v_base_middle).
Proof.
  intros C. unfold caption_stage.
  set (n := length (get (caption_images cfg) [])).
  destruct ((0 <? n) && negb (Qle_bool (outro_offset voice_duration)
                                INTRO_DURATION)) eqn:G.
  2:{ exists [], v_base_middle. repeat split; auto. }
  apply andb_true_iff in G as [Gn Gd].
  apply Nat.ltb_lt in Gn. apply negb_true_iff in Gd.
  assert (D : (0 < voice_duration)%Q).
  { destruct (Qlt_le_dec 0 voice_duration) as [|Hle]; [assumption|].
    assert (Q : Qle_bool (outro_offset voice_duration) INTRO_DURATION = true).
    { apply Qle_bool_iff. unfold outro_offset. lra. }
    congruence. }
  destruct C as [C|[C|C]]; [fold n in C; lia|lra|].
  rewrite (compute_chunk_windows_place _ _ _ C). cbn [bind].
  set (chunks := split_into_chunks (get (script cfg) [])) in *.
  set (ws := place _ _ _ _).
  assert (L : length ws = length chunks).
  { unfold ws. rewrite place_length. unfold chunk_word_counts.
    apply length_map. }
  set (window_of := if length chunks <? n then _ else _).
  assert (W : forall i, exists win, window_of i = Ok win).
  { intros i. unfold window_of. destruct (length chunks <? n).
    - apply typewriter_window_ok; assumption.
    - apply static_window_ok. intros E. rewrite E in L. simpl in L.
      destruct chunks; [congruence|simpl in L; lia]. }
  destruct (caption_loop_ok idx window_of n 0
              {| overlay_parts := []; curr_v := v_base_middle |})
    as [overlays [E P]].
  { intros i _. apply W. }
  unfold range. rewrite E. cbn [bind overlay_parts curr_v app].
  exists overlays. eexists. split; [reflexivity|]. split; [exact P|].
  intros Z. lia.
Qed.

(** Caption frames over a script without chunks: the first frame looks up
    the window of chunk 0 in an empty list. *)
Lemma caption_stage_crash (cfg : config) (voice_duration : Q) (idx : nat) :
  1 <= length (get (caption_images cfg) []) ->
  (0 < voice_duration)%Q ->
  split_into_chunks (get (script cfg) []) = [] ->
  caption_stage cfg voice_duration idx = Raise IndexError.
Proof.
  intros Hn HD Hc. unfold caption_stage.
  set (n := length (get (caption_images cfg) [])) in *.
  destruct (Nat.ltb_spec 0 n); [|lia]. cbn [andb].
  assert (Q : Qle_bool (outro_offset voice_duration) INTRO_DURATION = false).
  { destruct (Qle_bool _ _) eqn:E; [|reflexivity].
    apply Qle_bool_iff in E. unfold outro_offset in E. lra. }
  rewrite Q. cbn [negb]. rewrite Hc.
  unfold compute_chunk_windows, chunk_windows_loop.
  cbn [chunk_word_counts map for_each bind chunk_windows_acc length].
  destruct (Nat.ltb_spec 0 n); [|lia].
  rewrite caption_loop_first_raises with (e := IndexError);
    [reflexivity| |lia].
  unfold typewriter_window. rewrite index_empty. reflexivity.
Qed.

Lemma title_fold_plain (segs : list (nat * segment)) :
  forall st,
    Forall plain (title_parts st) ->
    Forall plain (title_parts (fold_left title_step segs st)).
Proof.
  induction segs as [|[seg_i seg] segs IH]; intros st P; simpl; [exact P|].
  apply IH. simpl. apply Forall_app. split; [exact P|].
  constructor; [|constructor]. repeat split.
Qed.

Lemma title_stage_plain (cfg : config) (voice_duration : Q) (next : nat) :
  Forall plain (fst (fst (title_stage cfg voice_duration next))).
Proof.
  unfold title_stage.
  destruct (truthy (get (segments cfg) [])).
  - simpl. apply title_fold_plain. constructor.
  - destruct (negb (String.eqb (get (title cfg) EmptyString) EmptyString));
      simpl; [|constructor].
    constructor; [|constructor]. repeat split.
Qed.

Lemma frame_stage_plain (w : world) (cfg : config) (pre : label) (next : nat) :
  Forall plain (fst (fst (frame_stage w cfg pre next))).
Proof.
  unfold frame_stage.
  destruct (get (use_overlay cfg) true && path_exists w overlay_path); simpl.
  - constructor; [repeat split|]. constructor; [repeat split|constructor].
  - constructor.
Qed.

Lemma input_part_plain (intro_img outro_img : string) (per_image : Q)
  (i : nat) (img : string) :
  plain (input_part intro_img outro_img per_image i img).
Proof.
  unfold input_part.
  destruct (String.eqb img intro_img); [repeat split|].
  destruct (String.eqb img outro_img); [repeat split|].
  destruct (Z.eqb _ 0); repeat split.
Qed.

Lemma join_parts_plain (per_image : Q) (n : nat) :
  Forall plain (join_parts (join_loop per_image (n + 2))).
Proof.
  rewrite join_loop_closed. cbn [join_parts]. apply Forall_forall.
  intros p H. apply in_map_iff in H as [k [<- _]]. repeat split.
Qed.

End GraphStructure.

Section GraphShape.

Import Py Reading VideoBuilder CaptionGenerator.

Lemma inputs_length (cfg : config) :
  length (inputs cfg) = length (middle_images cfg) + 2.
Proof.
  unfold inputs. cbn [app length]. rewrite length_app. simpl. lia.
Qed.

Lemma transition_style_fadeblack (k : nat) :
  transition_style k = "fadeblack"%string.
Proof.
  unfold transition_style. cbn [TRANSITION_STYLES length].
  rewrite Nat.mod_1_r. reflexivity.
Qed.

(** The graph, stage by stage, whenever the caption stage goes through. *)
Lemma filter_graph_shape (w : world) (cfg : config) (voice_duration : Q) :
  captions_consistent cfg voice_duration ->
  let N := length (middle_images cfg) in
  let per_image := per_image_duration voice_duration N in
  exists overlays a titles framed pre,
    filter_graph w cfg voice_duration
    = Ok (map (fun '(i, img) =>
                 input_part (intro_image cfg) (outro_image cfg) per_image i img)
              (enumerate (inputs cfg))
          ++ map (join_part_at per_image) (seq 0 N)
          ++ [null (if N =? 0 then v 0 else v_join N) v_base_middle]
          ++ (overlays ++ [null a v_captioned])
          ++ titles
          ++ framed
          ++ [xfade pre (v (N + 1)) "fadeblack"
                (FRepr TRANSITION_DURATION) (F2 (outro_offset voice_duration))
                v_final]
          ++ [atrim_adelay (N + 2) (F2 voice_duration) 3000 3000])
    /\ Forall plain overlays /\ Forall plain titles /\ Forall plain framed
    /\ (length (get (caption_images cfg) []) = 0 ->
        overlays = [] /\ a = v_base_middle).
Proof.
  intros C N per_image. unfold filter_graph.
  destruct (caption_stage_ok cfg voice_duration (length (inputs cfg) + 1) C)
    as [overlays [a [E [Po Z]]]].
  rewrite E. cbn [bind].
  generalize (title_stage_plain cfg voice_duration
                (length (inputs cfg) + 1
                 + length (get (caption_images cfg) []))).
  destruct (title_stage cfg voice_duration _) as [[titles pre1] next1].
  cbn [fst]. intros Pt.
  generalize (frame_stage_plain w cfg pre1 next1).
  destruct (frame_stage w cfg pre1 next1) as [[framed pre2] next2].
  cbn [fst]. intros Pf.
  exists overlays, a, titles, framed, pre2.
  split; [|auto].
  rewrite inputs_length. fold N. fold per_image.
  rewrite join_loop_closed. cbn [join_parts last_label].
  replace (N + 2 - 1) with (N + 1) by lia.
  replace (N + 1 - 1) with N by lia.
  rewrite transition_style_fadeblack. reflexivity.
Qed.

Lemma filter_graph_crash (w : world) (cfg : config) (voice_duration : Q) :
  1 <= length (get (caption_images cfg) []) ->
  (0 < voice_duration)%Q ->
  split_into_chunks (get (script cfg) []) = [] ->
  filter_graph w cfg voice_duration = Raise IndexError.
Proof.
  intros Hn HD Hc. unfold filter_graph.
  rewrite (caption_stage_crash cfg voice_duration _ Hn HD Hc). reflexivity.
Qed.

(** The graph is built exactly when captions and script agree. *)
Lemma filter_graph_ok_consistent (w : world) (cfg : config)
  (voice_duration : Q) (parts : list filter_part) :
  filter_graph w cfg voice_duration = Ok parts ->
  captions_consistent cfg voice_duration.
Proof.
  intros E. unfold captions_consistent.
  destruct (length (get (caption_images cfg) [])) as [|n] eqn:Hn; [auto|].
  destruct (Qlt_le_dec 0 voice_duration) as [HD|HD]; [|auto].
  destruct (split_into_chunks (get (script cfg) [])) as [|c cs] eqn:Hc.
  - rewrite (filter_graph_crash w cfg voice_duration) in E; auto;
      [discriminate|lia].
  - right. right. discriminate.
Qed.

Lemma filter_none {A : Type} (f : A -> bool) (l : list A) :
  Forall (fun x => f x = false) l -> filter f l = [].
Proof.
  induction 1 as [|x l Hx Hl IH]; simpl; [reflexivity|].
  rewrite Hx. exact IH.
Qed.

Lemma plain_not_final (l : list filter_part) :
  Forall plain l -> filter defines_final l = [].
Proof.
  intros P. apply filter_none. eapply Forall_impl; [|exact P].
  intros p [A _]. exact A.
Qed.

Lemma plain_not_captioned (l : list filter_part) :
  Forall plain l -> filter defines_captioned l = [].
Proof.
  intros P. apply filter_none. eapply Forall_impl; [|exact P].
  intros p [_ [A _]]. exact A.
Qed.

Lemma plain_not_audio (l : list filter_part) :
  Forall plain l -> filter is_audio l = [].
Proof.
  intros P. apply filter_none. eapply Forall_impl; [|exact P].
  intros p [_ [_ A]]. exact A.
Qed.

Lemma scaled_plain (cfg : config) (per_image : Q) :
  Forall plain
    (map (fun '(i, img) =>
            input_part (intro_image cfg) (outro_image cfg) per_image i img)
         (enumerate (inputs cfg))).
Proof.
  apply Forall_forall. intros p H. apply in_map_iff in H as [[i img] [<- _]].
  apply input_part_plain.
Qed.

Lemma joins_plain (per_image : Q) (n : nat) :
  Forall plain (map (join_part_at per_image) (seq 0 n)).
Proof.
  apply Forall_forall. intros p H. apply in_map_iff in H as [k [<- _]].
  repeat split.
Qed.

End GraphShape.

(* ===================================================================== *)
(** * Properties of the built plan                                        *)
(* ===================================================================== *)

Section PlanTheorems.

Import Py Reading VideoBuilder CaptionGenerator.

Lemma Ok_inj {A : Type} (a b : A) : Ok a = Ok b -> a = b.
Proof. intros E. injection E as E. exact E. Qed.

(** Splits a [filter] over the stages of the graph and discards the
    stages that are plain. *)
Ltac filter_stages Po Pt Pf :=
  rewrite !filter_app;
  first [ rewrite (plain_not_final _ (scaled_plain _ _)),
                  (plain_not_final _ (joins_plain _ _)),
                  (plain_not_final _ Po), (plain_not_final _ Pt),
                  (plain_not_final _ Pf)
        | rewrite (plain_not_captioned _ (scaled_plain _ _)),
                  (plain_not_captioned _ (joins_plain _ _)),
                  (plain_not_captioned _ Po), (plain_not_captioned _ Pt),
                  (plain_not_captioned _ Pf)
        | rewrite (plain_not_audio _ (scaled_plain _ _)),
                  (plain_not_audio _ (joins_plain _ _)),
                  (plain_not_audio _ Po), (plain_not_audio _ Pt),
                  (plain_not_audio _ Pf) ];
  reflexivity.

(** C1.  With [INTRO_DURATION = 3], [TRANSITION_DURATION = 1] and N >= 1
    middle images: [per_image_duration] is [(D + 1) / N + 1]; the
    cumulative duration after the N crossfades of the middle loop is
    [3 + D + 1], one transition past the outro offset; the only part of a
    built graph that defines [v_final] is the crossfade into the outro,
    at offset [3 + D]; and the graph is built whenever captions and script
    agree. *)
Theorem outro_anchor (w : world) (cfg : config) (voice_duration : Q) :
  1 <= length (middle_images cfg) ->
  let N := length (middle_images cfg) in
  let per_image := per_image_duration voice_duration N in
  (per_image == (voice_duration + 1) / inject_Z (Z.of_nat N) + 1)%Q
  /\ (cumulative_duration (join_loop per_image (length (inputs cfg)))
      == 3 + voice_duration + 1)%Q
  /\ (forall parts,
         filter_graph w cfg voice_duration = Ok parts ->
         exists pre,
           filter defines_final parts
           = [xfade pre (v (N + 1)) "fadeblack" (FRepr 1)
                (F2 (3 + voice_duration)) v_final])
  /\ (captions_consistent cfg voice_duration ->
      exists parts, filter_graph w cfg voice_duration = Ok parts).
Proof.
  intros HN N per_image. split; [|split; [|split]].
  - unfold per_image, per_image_duration.
    destruct (Nat.ltb_spec 0 N); [reflexivity|lia].
  - rewrite inputs_length. apply (cumulative_duration_anchor _ _ HN).
  - intros parts E.
    generalize (filter_graph_ok_consistent w cfg voice_duration parts E).
    intros C.
    destruct (filter_graph_shape w cfg voice_duration C)
      as [overlays [a [titles [framed [pre [S [Po [Pt [Pf _]]]]]]]]].
    rewrite S in E. apply Ok_inj in E. subst parts. exists pre.
    fold N. filter_stages Po Pt Pf.
  - intros C.
    destruct (filter_graph_shape w cfg voice_duration C)
      as [overlays [a [titles [framed [pre [S _]]]]]].
    eexists. exact S.
Qed.

(** C7.  A built graph has exactly one audio chain: the voice track, input
    number [len(inputs)], trimmed to [[0, voice_duration]] and then delayed
    by 3000 ms on both channels, which is [INTRO_DURATION]; it is the
    audio that the command maps.  The graph is built whenever captions and
    script agree. *)
Theorem single_audio_chain (w : world) (cfg : config) (voice_duration : Q) :
  (forall parts,
      filter_graph w cfg voice_duration = Ok parts ->
      filter is_audio parts
      = [atrim_adelay (length (inputs cfg)) (F2 voice_duration) 3000 3000]
      /\ defines (atrim_adelay (length (inputs cfg)) (F2 voice_duration)
                    3000 3000)
         = map_audio (assemble_command w parts))
  /\ (inject_Z 3000 == INTRO_DURATION * 1000)%Q
  /\ (captions_consistent cfg voice_duration ->
      exists parts, filter_graph w cfg voice_duration = Ok parts).
Proof.
  split; [|split].
  - intros parts E.
    generalize (filter_graph_ok_consistent w cfg voice_duration parts E).
    intros C.
    destruct (filter_graph_shape w cfg voice_duration C)
      as [overlays [a [titles [framed [pre [S [Po [Pt [Pf _]]]]]]]]].
    rewrite S in E. apply Ok_inj in E. subst parts. split; [|reflexivity].
    rewrite inputs_length. filter_stages Po Pt Pf.
  - reflexivity.
  - intros C.
    destruct (filter_graph_shape w cfg voice_duration C)
      as [overlays [a [titles [framed [pre [S _]]]]]].
    eexists. exact S.
Qed.

(** A built graph defines [v_captioned] once, as a [null] passthrough; of
    [v_base_middle] when there are no caption images. *)
Lemma captioned_passthrough (w : world) (cfg : config) (voice_duration : Q)
  (parts : list filter_part) :
  filter_graph w cfg voice_duration = Ok parts ->
  exists a,
    filter defines_captioned parts = [null a v_captioned]
    /\ (length (get (caption_images cfg) []) = 0 -> a = v_base_middle).
Proof.
  intros E.
  generalize (filter_graph_ok_consistent w cfg voice_duration parts E).
  intros C.
  destruct (filter_graph_shape w cfg voice_duration C)
    as [overlays [a [titles [framed [pre [S [Po [Pt [Pf Z]]]]]]]]].
  rewrite S in E. apply Ok_inj in E. subst parts. exists a. split.
  - filter_stages Po Pt Pf.
  - intros H. apply Z. exact H.
Qed.

(** [build_video] called on its own with caption images over a script
    without chunks and a positive voice duration: the first caption frame
    looks up the window of chunk 0 in the empty list of chunk windows, and
    the call raises [IndexError].  No caller hands over such a
    configuration: the caption images are always rendered from the script
    that goes with them. *)
Lemma caption_frames_without_chunks_raise (w : world) (cfg : config)
  (voice_duration : Q) :
  1 <= length (get (caption_images cfg) []) ->
  (0 < voice_duration)%Q ->
  split_into_chunks (get (script cfg) []) = [] ->
  filter_graph w cfg voice_duration = Raise IndexError
  /\ build_video w cfg voice_duration = Raise IndexError.
Proof.
  intros Hn HD Hc.
  assert (E : filter_graph w cfg voice_duration = Raise IndexError)
    by (apply filter_graph_crash; assumption).
  split; [exact E|]. unfold build_video. rewrite E. reflexivity.
Qed.

End PlanTheorems.

(* ===================================================================== *)
(** * ReelGenerator.generate                                              *)
(* ===================================================================== *)

Section Generate.

Import Py Reading CaptionGenerator ReelGenerator.

(** The configuration that [generate] hands to the builder always has a
    chunk under every caption frame, so the builder does not raise. *)
Lemma generate_builder_config_consistent (script : str) (temp_dir : string)
  (base : VideoBuilder.config) (voice_duration : Q) :
  VideoBuilder.caption_images base
  = Some (map (caption_path temp_dir)
            (range (length (render_captions_to_images script true)))) ->
  VideoBuilder.script base = Some script ->
  captions_consistent base voice_duration.
Proof.
  intros Hc Hs. unfold captions_consistent. rewrite Hc, Hs.
  cbn [VideoBuilder.get].
  destruct (split_into_chunks script) as [|c cs] eqn:E.
  - left. unfold render_captions_to_images. rewrite E. reflexivity.
  - right. right. discriminate.
Qed.

Lemma build_video_ok (w : world) (cfg : VideoBuilder.config)
  (voice_duration : Q) :
  captions_consistent cfg voice_duration ->
  exists cmd,
    VideoBuilder.build_video w cfg voice_duration
    = Ok (cmd, ffmpeg_succeeds w stage_build_video).
Proof.
  intros C. unfold VideoBuilder.build_video.
  destruct (filter_graph_shape w cfg voice_duration C)
    as [overlays [a [titles [framed [pre [S _]]]]]].
  rewrite S. cbn [bind]. eexists. reflexivity.
Qed.

(** C5.  Once the voiceover file is there, [generate] raises the
    too-short error exactly when the measured duration is below 3 seconds.
    It then has only started, selected the voiceover, probed and logged
    the duration: no timing, caption or video step has run.  With a
    duration of at least 3 seconds (3 included), at least one middle image
    and a successful ffmpeg run, [generate] returns the reel. *)
Theorem too_short_exactly_below_minimum
  (w : world) (temp_dir output_dir : string) (cfg : config)
  (voiceover_path : string) :
  outcome (select_voiceover w temp_dir cfg) = Ok voiceover_path ->
  let measured := audio_duration w voiceover_path in
  let run := generate w temp_dir output_dir cfg in
  (outcome run = Raise too_short <-> (measured < 3)%Q)
  /\ ((measured < 3)%Q ->
      events run
      = [log_info msg_starting_pipeline]
        ++ events (select_voiceover w temp_dir cfg)
        ++ [ran_ffprobe voiceover_path;
            log_info (msg_voiceover_duration measured)])
  /\ ((3 <= measured)%Q -> middle_images cfg <> [] ->
      ffmpeg_succeeds w stage_build_video = true ->
      exists r, outcome run = Ok r /\ voice_duration r = measured).
Proof.
  intros Hv measured run. unfold run, generate.
  destruct (select_voiceover w temp_dir cfg) as [evs r] eqn:Sel.
  unfold outcome in Hv. cbn [snd] in Hv. subst r.
  cbn [emit bindM get_audio_duration ret app events outcome fst snd].
  fold measured.
  destruct (Qle_bool 3 measured) eqn:G; cbn [negb].
  - (* the minimum is met *)
    apply Qle_bool_iff in G.
    split; [|split].
    + split; [|lra]. intros H. exfalso.
      destruct (length (middle_images cfg) =? 0); cbn [raise bindM snd] in H.
      * discriminate.
      * destruct (negb (Qle_bool (1 # 2) _)); cbn [emit ret bindM] in H;
          match type of H with
          | context [VideoBuilder.build_video w ?c ?d] =>
              destruct (build_video_ok w c d
                          (generate_builder_config_consistent
                             (script cfg) temp_dir c d eq_refl eq_refl))
                as [cmd B]; rewrite B in H
          end;
          cbn [lift bindM emit snd] in H;
          destruct (ffmpeg_succeeds w stage_build_video);
          cbn [negb raise emit ret bindM snd] in H; discriminate.
    + lra.
    + intros _ Hm Hf.
      destruct (Nat.eqb_spec (length (middle_images cfg)) 0) as [Z|Z].
      { destruct (middle_images cfg); [congruence|discriminate]. }
      destruct (negb (Qle_bool (1 # 2) _)); cbn [emit ret bindM];
        match goal with
        | |- context [VideoBuilder.build_video w ?c ?d] =>
            destruct (build_video_ok w c d
                        (generate_builder_config_consistent
                           (script cfg) temp_dir c d eq_refl eq_refl))
              as [cmd B]; rewrite B
        end;
        cbn [lift bindM emit snd]; rewrite Hf;
        cbn [negb raise emit ret bindM snd];
        eexists; split; reflexivity.
  - (* below the minimum *)
    assert (L : (measured < 3)%Q).
    { destruct (Qlt_le_dec measured 3) as [|Hle]; [assumption|].
      apply Qle_bool_iff in Hle. congruence. }
    cbn [raise bindM fst snd].
    split; [|split].
    + split; [intros _; exact L|reflexivity].
    + intros _. reflexivity.
    + lra.
Qed.

End Generate.

(* ===================================================================== *)
(** * FacelessVideoService._build_slideshow                               *)
(* ===================================================================== *)

Section Slideshow.

Import Py Reading FacelessVideoService.

Lemma events_bindM {A B : Type} (P : event -> Prop) (m : M A) (k : A -> M B) :
  Forall P (events m) -> (forall a, Forall P (events (k a))) ->
  Forall P (events (bindM m k)).
Proof.
  intros Hm Hk. destruct m as [evs [a|e]]; simpl in *; [|exact Hm].
  specialize (Hk a). destruct (k a) as [evs' r]. simpl in *.
  apply Forall_app. split; assumption.
Qed.

Lemma events_for_eachM {A S : Type} (P : event -> Prop) (xs : list A)
  (body : S -> A -> M S) :
  (forall acc x, In x xs -> Forall P (events (body acc x))) ->
  forall acc, Forall P (events (for_eachM xs body acc)).
Proof.
  induction xs as [|x xs IH]; intros H acc; simpl; [constructor|].
  apply events_bindM.
  - apply H. left. reflexivity.
  - intros a. apply IH. intros acc' y Hy. apply H. right. exact Hy.
Qed.

Lemma events_run_ffmpeg (P : event -> Prop) (w : world) (job : ffmpeg_job)
  (st : stage) :
  P (ran_ffmpeg st job) -> Forall P (events (_run_ffmpeg w job st)).
Proof.
  intros H. unfold _run_ffmpeg. cbn [emit bindM].
  destruct (ffmpeg_succeeds w st); simpl; constructor; auto.
Qed.

Lemma even_mod2 (i : nat) : (i mod 2 =? 0) = Nat.even i.
Proof.
  destruct (Nat.even i) eqn:E.
  - apply Nat.even_spec in E. destruct E as [k ->].
    rewrite Nat.mul_comm, Nat.Div0.mod_mul. reflexivity.
  - assert (O : Nat.odd i = true) by (unfold Nat.odd; rewrite E; reflexivity).
    apply Nat.odd_spec in O. destruct O as [k ->].
    replace (2 * k + 1) with (1 + k * 2) by lia.
    rewrite Nat.Div0.mod_add. reflexivity.
Qed.

Lemma transition_style_nth (k : nat) :
  nth_error TRANSITION_STYLES (k mod 6) = Some (transition_style k).
Proof.
  unfold transition_style. cbn [TRANSITION_STYLES length].
  assert (B : k mod 6 < 6) by (apply Nat.mod_upper_bound; lia).
  destruct (k mod 6) as [|[|[|[|[|[|n]]]]]]; try reflexivity. lia.
Qed.

Lemma enumerate_in {A : Type} (l : list A) (i : nat) (x : A) :
  In (i, x) (VideoBuilder.enumerate l) -> nth_error l i = Some x.
Proof.
  unfold VideoBuilder.enumerate.
  assert (G : forall a, In (i, x) (combine (seq a (length l)) l) ->
                        a <= i /\ nth_error l (i - a) = Some x).
  { induction l as [|y l IH]; intros a H; simpl in H; [contradiction|].
    destruct H as [H|H].
    - injection H as <- <-. rewrite Nat.sub_diag. split; [lia|reflexivity].
    - destruct (IH (S a) H) as [L E]. split; [lia|].
      replace (i - a) with (S (i - S a)) by lia. exact E. }
  intros H. destruct (G 0 H) as [_ E]. rewrite Nat.sub_0_r in E. exact E.
Qed.

(** Every ffmpeg run of the slideshow is index driven. *)
Lemma build_slideshow_index_driven (w : world) (transition_dur : Q)
  (images : list string) (total_duration : Q) (tmp_dir : string) :
  Forall index_driven
    (events (_build_slideshow w transition_dur images total_duration tmp_dir)).
Proof.
  unfold _build_slideshow.
  destruct (negb (truthy (filter (path_isfile w) images))).
  - apply events_bindM; [repeat constructor|]. intros _.
    unfold _black_clip. apply events_bindM; [|intros; constructor].
    apply events_run_ffmpeg. exact I.
  - apply events_bindM.
    + apply events_for_eachM. intros acc [i img] _. unfold segment_step.
      apply events_bindM; [|intros; constructor].
      apply events_run_ffmpeg. exists i. split; [reflexivity|].
      rewrite even_mod2. reflexivity.
    + intros segment_paths.
      destruct (length segment_paths =? 1).
      * apply events_bindM; [repeat constructor|]. intros; constructor.
      * apply events_bindM.
        -- apply events_for_eachM. intros acc i Hi. unfold xfade_step.
           apply events_bindM; [|intros; constructor].
           apply events_run_ffmpeg. exists i.
           apply in_seq in Hi. split; [reflexivity|]. split; [lia|].
           apply transition_style_nth.
        -- intros current. apply events_bindM; [repeat constructor|].
           intros; constructor.
Qed.

(** No run of the slideshow logs anything while there is a valid image. *)
Lemma build_slideshow_silent (w : world) (transition_dur : Q)
  (images : list string) (total_duration : Q) (tmp_dir : string) :
  filter (path_isfile w) images <> [] ->
  Forall (fun e => is_log e = false)
    (events (_build_slideshow w transition_dur images total_duration tmp_dir)).
Proof.
  intros N. unfold _build_slideshow.
  destruct (filter (path_isfile w) images) as [|x valid] eqn:E; [congruence|].
  cbn [truthy negb].
  apply events_bindM.
  - apply events_for_eachM. intros acc [i img] _. unfold segment_step.
    apply events_bindM; [|intros; constructor].
    apply events_run_ffmpeg. reflexivity.
  - intros segment_paths.
    destruct (length segment_paths =? 1).
    + apply events_bindM; [repeat constructor|]. intros; constructor.
    + apply events_bindM.
      * apply events_for_eachM. intros acc i Hi. unfold xfade_step.
        apply events_bindM; [|intros; constructor].
        apply events_run_ffmpeg. reflexivity.
      * intros current. apply events_bindM; [repeat constructor|].
        intros; constructor.
Qed.

Lemma filter_idempotent {A : Type} (f : A -> bool) (l : list A) :
  filter f (filter f l) = filter f l.
Proof.
  induction l as [|x l IH]; simpl; [reflexivity|].
  destruct (f x) eqn:E; simpl; [rewrite E, IH; reflexivity|exact IH].
Qed.

(** The slideshow of a list of images is the slideshow of its valid
    images. *)
Lemma build_slideshow_valid_only (w : world) (transition_dur : Q)
  (images : list string) (total_duration : Q) (tmp_dir : string) :
  _build_slideshow w transition_dur images total_duration tmp_dir
  = _build_slideshow w transition_dur (filter (path_isfile w) images)
      total_duration tmp_dir.
Proof.
  unfold _build_slideshow. rewrite filter_idempotent. reflexivity.
Qed.

End Slideshow.

Section ContentImages.

Import Py Reading.

(** C6, as the code has it.  [_build_slideshow] drops the paths that are
    not files before anything else, without logging them: its run is the
    run on the valid images alone and logs nothing while one image is
    valid; when no image is valid it logs one warning and renders a black
    placeholder clip of the whole duration, which is its result when
    ffmpeg succeeds.  [generate] keeps the list as it is and raises the
    no-middle-images error exactly when the voiceover is there, lasts at
    least 3 seconds and the list itself is empty.  The check that fails on
    a list without any valid file is the one at the head of
    [FacelessReelAgent.generate_reel]. *)
Theorem unreadable_images_policy :
  (forall w transition_dur images total_duration tmp_dir,
      FacelessVideoService._build_slideshow w transition_dur images
        total_duration tmp_dir
      = FacelessVideoService._build_slideshow w transition_dur
          (filter (path_isfile w) images) total_duration tmp_dir)
  /\ (forall w transition_dur images total_duration tmp_dir,
         filter (path_isfile w) images <> [] ->
         Forall (fun e => is_log e = false)
           (events (FacelessVideoService._build_slideshow w transition_dur
                      images total_duration tmp_dir)))
  /\ (forall w transition_dur images total_duration tmp_dir,
         filter (path_isfile w) images = [] ->
         let output := path_join tmp_dir "slideshow.mp4" in
         let run := FacelessVideoService._build_slideshow w transition_dur
                      images total_duration tmp_dir in
         events run
         = [log_warning msg_no_valid_images_black_placeholder;
            ran_ffmpeg stage_black_clip
              (job_black_clip total_duration output)]
         /\ outcome run
            = if ffmpeg_succeeds w stage_black_clip then Ok output
              else Raise (RuntimeError "FFmpeg failed"))
  /\ (forall w temp_dir output_dir cfg,
         outcome (ReelGenerator.generate w temp_dir output_dir cfg)
         = Raise ReelGenerator.no_middle_images
         <-> exists voiceover_path,
             outcome (ReelGenerator.select_voiceover w temp_dir cfg)
             = Ok voiceover_path
             /\ (3 <= audio_duration w voiceover_path)%Q
             /\ ReelGenerator.middle_images cfg = [])
  /\ (forall w images script_text audio_path,
         images <> [] -> (audio_path <> None \/ script_text <> None) ->
         filter (path_isfile w) images = [] ->
         FacelessReelAgent.validate_images w images script_text audio_path
         = Raise (FileNotFoundError "No valid image files found")).
Proof.
  split; [exact build_slideshow_valid_only|].
  split; [exact build_slideshow_silent|].
  split; [|split].
  - intros w transition_dur images total_duration tmp_dir E output run.
    unfold run, FacelessVideoService._build_slideshow. rewrite E.
    unfold FacelessVideoService._black_clip, FacelessVideoService._run_ffmpeg.
    fold output. cbn [truthy negb emit bindM].
    destruct (ffmpeg_succeeds w stage_black_clip); split; reflexivity.
  - intros w temp_dir output_dir cfg.
    unfold ReelGenerator.generate.
    destruct (ReelGenerator.select_voiceover w temp_dir cfg)
      as [evs [voiceover_path|e]] eqn:Sel;
      cbn [emit bindM ReelGenerator.get_audio_duration ret app events
           outcome fst snd].
    2:{ split; [intros H|intros [p [H _]]].
        - unfold ReelGenerator.select_voiceover in Sel.
          destruct (ReelGenerator.voiceover_audio cfg) as [p|];
            [destruct (negb (String.eqb p EmptyString) && path_exists w p)|];
            cbn [emit bindM ret raise] in Sel;
            try destruct (negb (tts_succeeds w));
            cbn [emit bindM ret raise] in Sel;
            injection Sel as _ Sel; try discriminate;
            rewrite <- Sel in H; discriminate.
        - discriminate. }
    destruct (Qle_bool 3 (audio_duration w voiceover_path)) eqn:G;
      cbn [negb].
    + apply Qle_bool_iff in G.
      destruct (Nat.eqb_spec (length (ReelGenerator.middle_images cfg)) 0)
        as [Z|Z]; cbn [raise bindM snd].
      * split; [intros _|reflexivity].
        exists voiceover_path. repeat split; auto.
        destruct (ReelGenerator.middle_images cfg); [reflexivity|discriminate].
      * split.
        -- intros H. exfalso.
           destruct (negb (Qle_bool (1 # 2) _)); cbn [emit ret bindM] in H;
             match type of H with
             | context [VideoBuilder.build_video w ?c ?d] =>
                 destruct (build_video_ok w c d
                             (generate_builder_config_consistent
                                (ReelGenerator.script cfg) temp_dir c d
                                eq_refl eq_refl))
                   as [cmd B]; rewrite B in H
             end;
             cbn [lift bindM emit snd] in H;
             destruct (ffmpeg_succeeds w stage_build_video);
             cbn [negb raise emit ret bindM snd] in H; discriminate.
        -- intros [p [_ [_ E]]]. rewrite E in Z. simpl in Z. congruence.
    + split; [discriminate|].
      intros [p [Hp [Hd _]]]. injection Hp as <-.
      apply Qle_bool_iff in Hd. congruence.
  - intros w images script_text audio_path Hi Ha E.
    unfold FacelessReelAgent.validate_images. rewrite E.
    destruct images; [congruence|]. cbn [truthy negb].
    destruct audio_path, script_text; try reflexivity.
    destruct Ha; congruence.
Qed.

End ContentImages.

Section Determinism.

Import Py Reading VideoBuilder.

Lemma nth_error_enumerate {A : Type} (l : list A) (k : nat) (x : A) :
  nth_error l k = Some x -> nth_error (enumerate l) k = Some (k, x).
Proof.
  unfold enumerate.
  assert (G : forall a k, nth_error l k = Some x ->
                          nth_error (combine (seq a (length l)) l) k
                          = Some (a + k, x)).
  { induction l as [|y l IH]; intros a j H; [destruct j; discriminate|].
    destruct j as [|j]; simpl in *.
    - injection H as ->. rewrite Nat.add_0_r. reflexivity.
    - rewrite (IH (S a) j H). f_equal. f_equal. lia. }
  intros H. apply (G 0 k H).
Qed.

Lemma content_index_parity (i : nat) :
  (((Z.of_nat (i + 1) - 1) mod 2 =? 0)%Z) = Nat.even i.
Proof.
  replace (Z.of_nat (i + 1) - 1)%Z with (Z.of_nat i) by lia.
  rewrite <- even_mod2.
  change 2%Z with (Z.of_nat 2). rewrite <- Nat2Z.inj_mod.
  destruct (Nat.eqb_spec (i mod 2) 0) as [E|E].
  - rewrite E. reflexivity.
  - apply Z.eqb_neq. lia.
Qed.

Lemma frame_stage_world (w1 w2 : world) (cfg : config) (pre : label)
  (next : nat) :
  (get (use_overlay cfg) true = true ->
   path_exists w1 overlay_path = path_exists w2 overlay_path) ->
  frame_stage w1 cfg pre next = frame_stage w2 cfg pre next.
Proof.
  intros H. unfold frame_stage.
  destruct (get (use_overlay cfg) true); [|reflexivity].
  rewrite (H eq_refl). reflexivity.
Qed.

Lemma filter_graph_world (w1 w2 : world) (cfg : config) (voice_duration : Q) :
  (get (use_overlay cfg) true = true ->
   path_exists w1 overlay_path = path_exists w2 overlay_path) ->
  filter_graph w1 cfg voice_duration = filter_graph w2 cfg voice_duration.
Proof.
  intros H. unfold filter_graph.
  destruct (caption_stage cfg voice_duration _); [|reflexivity].
  cbn [bind]. destruct (title_stage cfg voice_duration _) as [[titles pre] next].
  rewrite (frame_stage_world w1 w2 cfg pre next H). reflexivity.
Qed.

Lemma middle_image_zoom (w : world) (cfg : config) (voice_duration : Q)
  (parts : list filter_part) (i : nat) (img : string) :
  filter_graph w cfg voice_duration = Ok parts ->
  nth_error (middle_images cfg) i = Some img ->
  img <> intro_image cfg -> img <> outro_image cfg ->
  nth_error parts (i + 1)
  = Some (scale_zoompan (i + 1)
            (if Nat.even i then zoom_in else zoom_out)
            (int (per_image_duration voice_duration
                    (length (middle_images cfg))
                  * inject_Z ZOOMPAN_FPS)%Q)).
Proof.
  intros E Hi Hintro Houtro.
  generalize (filter_graph_ok_consistent w cfg voice_duration parts E).
  intros C.
  destruct (filter_graph_shape w cfg voice_duration C)
    as [overlays [a [titles [framed [pre [Sh _]]]]]].
  rewrite Sh in E. apply Ok_inj in E. subst parts.
  assert (I : nth_error (inputs cfg) (i + 1) = Some img).
  { unfold inputs. replace (i + 1) with (S i) by lia. cbn [app nth_error].
    rewrite nth_error_app1; [exact Hi|].
    apply nth_error_Some. congruence. }
  rewrite nth_error_app1.
  2:{ rewrite length_map. unfold enumerate. rewrite length_combine, length_seq.
      rewrite Nat.min_id. apply nth_error_Some. congruence. }
  rewrite nth_error_map, (nth_error_enumerate _ _ _ I). cbn [option_map].
  unfold input_part.
  destruct (String.eqb_spec img (intro_image cfg)); [contradiction|].
  destruct (String.eqb_spec img (outro_image cfg)); [contradiction|].
  rewrite content_index_parity. destruct (Nat.even i); reflexivity.
Qed.

Lemma middle_transition_style (w : world) (cfg : config) (voice_duration : Q)
  (parts : list filter_part) (k : nat) :
  filter_graph w cfg voice_duration = Ok parts ->
  k < length (middle_images cfg) ->
  exists a offset style,
    nth_error parts (length (middle_images cfg) + 2 + k)
    = Some (xfade a (v (k + 1)) style (FRepr TRANSITION_DURATION)
              (F2 offset) (v_join (k + 1)))
    /\ nth_error TRANSITION_STYLES (k mod length TRANSITION_STYLES)
       = Some style.
Proof.
  intros E Hk.
  generalize (filter_graph_ok_consistent w cfg voice_duration parts E).
  intros C.
  destruct (filter_graph_shape w cfg voice_duration C)
    as [overlays [a [titles [framed [pre [Sh _]]]]]].
  rewrite Sh in E. apply Ok_inj in E. subst parts.
  set (N := length (middle_images cfg)) in *.
  rewrite nth_error_app2.
  2:{ rewrite length_map. unfold enumerate. rewrite length_combine, length_seq.
      rewrite Nat.min_id, inputs_length. fold N. lia. }
  rewrite length_map. unfold enumerate at 1.
  rewrite length_combine, length_seq, Nat.min_id, inputs_length. fold N.
  replace (N + 2 + k - (N + 2)) with k by lia.
  rewrite nth_error_app1 by (rewrite length_map, length_seq; exact Hk).
  rewrite nth_error_map.
  assert (Q : nth_error (seq 0 N) k = Some k).
  { rewrite nth_error_nth' with (d := 0) by (rewrite length_seq; exact Hk).
    rewrite seq_nth by exact Hk. reflexivity. }
  rewrite Q. cbn [option_map]. unfold join_part_at.
  replace (S k) with (k + 1) by lia.
  do 3 eexists. split; [reflexivity|].
  replace (k + 1 - 1) with k by lia. rewrite transition_style_fadeblack.
  cbn [TRANSITION_STYLES length]. rewrite Nat.mod_1_r. reflexivity.
Qed.

End Determinism.

Section IndexDriven.

Import Py Reading VideoBuilder.

(** C9, as the code has it.  The filter graph is a function of the
    configuration, of the voice duration and, when the news frame overlay
    is on, of whether the overlay file exists: two runs that agree on
    these build the same graph.  A middle image whose path is neither the
    intro path nor the outro path is zoomed in at an even content index
    and zoomed out at an odd one; the crossfade into middle image [k] has
    the style at position [k mod len] of the style list; every segment
    and crossfade of the slideshow service is selected by its index in the
    same way. *)
Theorem plan_is_index_driven :
  (forall w1 w2 cfg voice_duration,
      (get (use_overlay cfg) true = true ->
       path_exists w1 overlay_path = path_exists w2 overlay_path) ->
      filter_graph w1 cfg voice_duration = filter_graph w2 cfg voice_duration)
  /\ (forall w cfg voice_duration parts i img,
         filter_graph w cfg voice_duration = Ok parts ->
         nth_error (middle_images cfg) i = Some img ->
         img <> intro_image cfg -> img <> outro_image cfg ->
         nth_error parts (i + 1)
         = Some (scale_zoompan (i + 1)
                   (if Nat.even i then zoom_in else zoom_out)
                   (int (per_image_duration voice_duration
                           (length (middle_images cfg))
                         * inject_Z ZOOMPAN_FPS)%Q)))
  /\ (forall w cfg voice_duration parts k,
         filter_graph w cfg voice_duration = Ok parts ->
         k < length (middle_images cfg) ->
         exists a offset style,
           nth_error parts (length (middle_images cfg) + 2 + k)
           = Some (xfade a (v (k + 1)) style (FRepr TRANSITION_DURATION)
                     (F2 offset) (v_join (k + 1)))
           /\ nth_error TRANSITION_STYLES (k mod length TRANSITION_STYLES)
              = Some style)
  /\ (forall w transition_dur images total_duration tmp_dir,
         Forall index_driven
           (events (FacelessVideoService._build_slideshow w transition_dur
                      images total_duration tmp_dir))).
Proof.
  split; [exact filter_graph_world|].
  split; [exact middle_image_zoom|].
  split; [exact middle_transition_style|].
  exact build_slideshow_index_driven.
Qed.

(** Same configuration, same voice duration: the graph has the two parts
    of the news frame when the overlay file exists and lacks them when it
    does not.  And a middle image that is the intro file again is scaled
    and cropped like the intro, without any zoom, at content index 0. *)
Lemma overlay_file_changes_graph :
  filter_graph world_with_overlay example_config 5
  <> filter_graph world_without_files example_config 5
  /\ (exists parts,
         filter_graph world_without_files example_config_intro_twice 5
         = Ok parts
         /\ nth_error parts 1 = Some (scale_crop 1)).
Proof.
  split.
  - intros E.
    apply (f_equal (fun r => match r with
                             | Ok parts => length parts
                             | Raise _ => 0
                             end)) in E.
    vm_compute in E. discriminate.
  - eexists. split; [vm_compute; reflexivity|reflexivity].
Qed.

(** No image is a file: the slideshow logs a warning and returns the black
    placeholder clip, it does not fail. *)
Lemma black_placeholder_instead_of_error :
  filter (path_isfile world_without_files) ["missing.png"%string] = []
  /\ FacelessVideoService._build_slideshow world_without_files (6 # 5)
       ["missing.png"%string] 10 "tmp"
     = ([log_warning msg_no_valid_images_black_placeholder;
         ran_ffmpeg stage_black_clip
           (job_black_clip 10 "tmp/slideshow.mp4")],
        Ok "tmp/slideshow.mp4"%string).
Proof. split; reflexivity. Qed.

End IndexDriven.

(* ===================================================================== *)
(** * The theorems at concrete inputs                                     *)
(* ===================================================================== *)

Section Instances.

Import Py Reading VideoBuilder CaptionGenerator.

(** The scenario of the specification: 20 seconds over four images give
    6.25 seconds per image and an outro offset of 23 seconds. *)
Example scenario_per_image :
  (per_image_duration 20 4 == 25 # 4)%Q /\ (outro_offset 20 == 23)%Q.
Proof. split; reflexivity. Qed.

Example chunks_of_a_script :
  split_into_chunks (text "Hello world.  How are you? Fine")
  = [text "Hello world."; text "How are you?"; text "Fine"].
Proof. reflexivity. Qed.

Example chunks_of_an_ellipsis :
  split_into_chunks (text "Wait... what")
  = [text "Wait."; text "."; text "."; text "what"].
Proof. reflexivity. Qed.

Example slideshow_of_three_images :
  map selection
    (events (FacelessVideoService._build_slideshow world_with_all_files
               (6 # 5) ["a.png"; "b.png"; "c.png"]%string 9 "tmp"))
  = [Some (stage_segment 0, "zoom in"); Some (stage_segment 1, "zoom out");
     Some (stage_segment 2, "zoom in"); Some (stage_xfade 1, "fadeblack");
     Some (stage_xfade 2, "slideleft"); None]%string.
Proof. reflexivity. Qed.

Lemma outro_anchor_witness :
  1 <= length (middle_images scenario_config)
  /\ (cumulative_duration
        (join_loop (per_image_duration 20 4) (length (inputs scenario_config)))
      == 3 + 20 + 1)%Q.
Proof.
  split; [simpl; lia|].
  apply (outro_anchor world_without_files scenario_config 20). simpl. lia.
Defined.

Lemma chunk_windows_tile_witness :
  exists ws,
    compute_chunk_windows 3 (13 - 3)
      (split_into_chunks (text "Hello world. Bye now friend")) = Ok ws
    /\ length ws = 2 /\ tiles 3 ws 13.
Proof.
  destruct (chunk_windows_tile (text "Hello world. Bye now friend") 3 13)
    as [ws [E [L [T _]]]].
  - vm_compute. discriminate.
  - reflexivity.
  - exists ws. split; [exact E|]. split; [exact L|exact T].
Defined.

Lemma typewriter_word_windows_witness :
  tiles 3
    (map (sub_window 3 8 (split (text "Hello world.")))
       (seq 0 (length (split (text "Hello world.")))))
    8.
Proof.
  apply (typewriter_word_windows [text "Hello world."] [(3%Q, 8%Q)] 0
           (text "Hello world.") 3 8).
  - reflexivity.
  - reflexivity.
  - vm_compute. lia.
  - reflexivity.
Defined.

Lemma split_into_chunks_spec_witness :
  split_into_chunks (text "Hi there. Bye")
  = strip (text "Hi there.") :: split_into_chunks (text " Bye").
Proof.
  apply (proj1 split_into_chunks_spec (text "Hi there") "."%char (text " Bye"));
    reflexivity.
Defined.

Lemma too_short_exactly_below_minimum_witness :
  exists r,
    outcome (ReelGenerator.generate world_without_files "temp" "output"
               example_request) = Ok r
    /\ ReelGenerator.voice_duration r = 3%Q.
Proof.
  apply (proj2 (proj2 (too_short_exactly_below_minimum world_without_files
                         "temp" "output" example_request
                         "temp/voiceover.mp3" eq_refl))).
  - vm_compute. discriminate.
  - vm_compute. discriminate.
  - reflexivity.
Defined.

Lemma unreadable_images_policy_witness :
  FacelessReelAgent.validate_images world_without_files
    ["missing.png"%string] (Some "script"%string) None
  = Raise (FileNotFoundError "No valid image files found").
Proof.
  apply (proj2 (proj2 (proj2 (proj2 unreadable_images_policy)))).
  - discriminate.
  - right. discriminate.
  - reflexivity.
Defined.

Lemma single_audio_chain_witness :
  exists parts, filter_graph world_without_files example_config 5 = Ok parts.
Proof.
  apply (proj2 (proj2 (single_audio_chain world_without_files
                         example_config 5))).
  left. reflexivity.
Defined.

Lemma caption_frames_without_chunks_raise_witness :
  filter_graph world_without_files example_config_captions_only 5
  = Raise IndexError
  /\ build_video world_without_files example_config_captions_only 5
     = Raise IndexError.
Proof.
  apply (caption_frames_without_chunks_raise world_without_files
           example_config_captions_only 5).
  - simpl. lia.
  - reflexivity.
  - reflexivity.
Defined.

Lemma plan_is_index_driven_witness :
  filter_graph world_without_files example_config 5
  = filter_graph world_without_files example_config 5
  /\ (exists a offset style,
         nth_error
           (match filter_graph world_without_files example_config 5 with
            | Ok parts => parts
            | Raise _ => []
            end)
           (length (middle_images example_config) + 2 + 1)
         = Some (xfade a (v (1 + 1)) style (FRepr TRANSITION_DURATION)
                   (F2 offset) (v_join (1 + 1)))
         /\ nth_error TRANSITION_STYLES (1 mod length TRANSITION_STYLES)
            = Some style).
Proof.
  split.
  - apply (proj1 plan_is_index_driven). intros _. reflexivity.
  - apply (proj1 (proj2 (proj2 plan_is_index_driven)) world_without_files
             example_config 5%Q).
    + vm_compute. reflexivity.
    + simpl. lia.
Defined.

Lemma chunk_weights_never_divide_by_zero_witness :
  (1 <= sum (chunk_word_counts [[]; text "two words"]))%Z.
Proof.
  apply (chunk_weights_never_divide_by_zero [[]; text "two words"]
           3%Q 5%Q).
  - discriminate.
  - unfold Qle. simpl. lia.
Defined.

End Instances.

(* ===================================================================== *)
(** * The filter graph in closed form                                     *)
(* ===================================================================== *)

Section ClosedForm.

Import Py Reading VideoBuilder CaptionGenerator Wiring.

Lemma caption_loop_exact (idx : nat) (window_of : nat -> result (Q * Q))
  (n : nat) :
  forall a st,
    (forall i, a <= i < a + n -> exists win, window_of i = Ok win) ->
    for_each (seq a n) (caption_step idx window_of) st
    = Ok {| overlay_parts :=
              overlay_parts st
              ++ map (fun i =>
                        overlay_between
                          (if i =? a then curr_v st else v_cap (i - 1))
                          (idx + i)
                          (F2 (fst (window_or_zero (window_of i))))
                          (F2 (snd (window_or_zero (window_of i))))
                          (v_cap i))
                   (seq a n);
            curr_v := if n =? 0 then curr_v st else v_cap (a + n - 1) |}.
Proof.
  induction n as [|n IH]; intros a st H.
  - simpl. rewrite app_nil_r. destruct st. reflexivity.
  - destruct (H a) as [[t0 t1] Hw]; [lia|].
    cbn [seq for_each map]. unfold caption_step at 1. rewrite Hw. cbn [bind].
    rewrite IH by (intros i Hi; apply H; lia).
    cbn [overlay_parts curr_v]. rewrite Nat.eqb_refl.
    cbn [window_or_zero fst snd].
    rewrite <- app_assoc. cbn [app].
    assert (M : forall f g : nat -> filter_part,
               (forall i, S a <= i -> f i = g i) ->
               map f (seq (S a) n) = map g (seq (S a) n)).
    { intros f g E. apply map_ext_in. intros i Hi. apply in_seq in Hi.
      apply E. lia. }
    rewrite (M _ (fun i =>
                    overlay_between
                      (if i =? a then curr_v st else v_cap (i - 1))
                      (idx + i)
                      (F2 (fst (window_or_zero (window_of i))))
                      (F2 (snd (window_or_zero (window_of i))))
                      (v_cap i))).
    2:{ intros i Hi.
        destruct (Nat.eqb_spec i (S a)) as [E|E];
          destruct (Nat.eqb_spec i a); try lia; [|reflexivity].
        subst i. replace (S a - 1) with a by lia. reflexivity. }
    do 2 f_equal. destruct n; cbn [Nat.eqb]; f_equal; lia.
Qed.

Lemma chosen_window_ok (cfg : config) (voice_duration : Q) (n i : nat) :
  script_chunks cfg <> [] ->
  exists win,
    chosen_window (script_chunks cfg) (script_chunk_windows cfg voice_duration)
      n i = Ok win.
Proof.
  intros C. unfold chosen_window, script_chunk_windows.
  assert (L : length (place INTRO_DURATION
                        (outro_offset voice_duration - INTRO_DURATION)
                        (sum (chunk_word_counts (script_chunks cfg)))
                        (chunk_word_counts (script_chunks cfg)))
              = length (script_chunks cfg)).
  { rewrite place_length. unfold chunk_word_counts. apply length_map. }
  destruct (length (script_chunks cfg) <? n).
  - apply typewriter_window_ok; assumption.
  - apply static_window_ok. intros E. rewrite E in L. simpl in L.
    destruct (script_chunks cfg); [congruence|simpl in L; lia].
Qed.

Lemma captions_shown_positive (cfg : config) (voice_duration : Q) :
  captions_shown cfg voice_duration = true ->
  1 <= length (get (caption_images cfg) []) /\ (0 < voice_duration)%Q.
Proof.
  unfold captions_shown. intros G.
  apply andb_true_iff in G as [Gn Gd].
  apply Nat.ltb_lt in Gn. apply negb_true_iff in Gd. split; [lia|].
  destruct (Qlt_le_dec 0 voice_duration) as [|Hle]; [assumption|].
  assert (Q : Qle_bool (outro_offset voice_duration) INTRO_DURATION = true).
  { apply Qle_bool_iff. unfold outro_offset. lra. }
  congruence.
Qed.

Lemma caption_stage_exact (cfg : config) (voice_duration : Q) (idx : nat) :
  captions_consistent cfg voice_duration ->
  caption_stage cfg voice_duration idx
  = Ok (caption_parts cfg voice_duration idx).
Proof.
  intros C. unfold caption_stage, caption_parts.
  fold (captions_shown cfg voice_duration).
  destruct (captions_shown cfg voice_duration) eqn:G; [|reflexivity].
  destruct (captions_shown_positive cfg voice_duration G) as [Gn Gd].
  destruct C as [C|[C|C]]; [lia|lra|].
  fold (script_chunks cfg) in C |- *.
  rewrite (compute_chunk_windows_place _ _ _ C). cbn [bind].
  fold (script_chunk_windows cfg voice_duration).
  set (n := length (get (caption_images cfg) [])) in *.
  fold (chosen_window (script_chunks cfg)
          (script_chunk_windows cfg voice_duration) n).
  unfold range. rewrite caption_loop_exact.
  2:{ intros i _. apply chosen_window_ok. exact C. }
  cbn [bind overlay_parts curr_v app].
  destruct (Nat.eqb_spec n 0); [lia|]. reflexivity.
Qed.

Lemma title_fold_exact (segs : list segment) :
  forall k st,
    fold_left title_step (combine (seq k (length segs)) segs) st
    = {| title_parts :=
           title_parts st
           ++ segment_title_parts k (title_next_input_idx st) (seg_start st)
                (title_curr_v st) segs;
         title_curr_v :=
           if truthy segs then v_title (k + length segs - 1)
           else title_curr_v st;
         title_next_input_idx := title_next_input_idx st + length segs;
         seg_start := segments_end (seg_start st) segs |}.
Proof.
  induction segs as [|seg segs IH]; intros k st.
  - simpl. rewrite app_nil_r, Nat.add_0_r. destruct st. reflexivity.
  - cbn [length seq combine fold_left]. rewrite IH. unfold title_step.
    cbn [title_parts title_curr_v title_next_input_idx seg_start
         segment_title_parts truthy].
    unfold segments_end. cbn [fold_left].
    rewrite <- app_assoc. cbn [app]. f_equal.
    + destruct segs; cbn [truthy length]; f_equal; lia.
    + lia.
Qed.

Lemma title_stage_exact (cfg : config) (voice_duration : Q) (next : nat) :
  title_stage cfg voice_duration next
  = (title_parts_of cfg voice_duration next, titled_label cfg,
     next + title_count cfg).
Proof.
  unfold title_stage, title_parts_of, titled_label, title_count, has_title.
  destruct (truthy (get (segments cfg) [])) eqn:T.
  - unfold enumerate. rewrite title_fold_exact.
    cbn [title_parts title_curr_v title_next_input_idx app]. rewrite T.
    reflexivity.
  - destruct (negb (String.eqb (get (title cfg) EmptyString) EmptyString)).
    + reflexivity.
    + rewrite Nat.add_0_r. reflexivity.
Qed.

Lemma frame_stage_exact (w : world) (cfg : config) (next : nat) :
  frame_stage w cfg (titled_label cfg) next
  = (frame_parts w cfg next, pre_outro_label w cfg,
     if framed w cfg then next + 1 else next).
Proof.
  unfold frame_stage, frame_parts, pre_outro_label, framed.
  destruct (get (use_overlay cfg) true && path_exists w overlay_path);
    reflexivity.
Qed.

(** The graph that [build_video] assembles, whenever the caption stage
    goes through. *)
Lemma filter_graph_exact (w : world) (cfg : config) (voice_duration : Q) :
  captions_consistent cfg voice_duration ->
  filter_graph w cfg voice_duration = Ok (graph_parts w cfg voice_duration).
Proof.
  intros C. unfold filter_graph, graph_parts.
  rewrite (caption_stage_exact cfg voice_duration _ C). cbn [bind].
  rewrite title_stage_exact, frame_stage_exact.
  rewrite inputs_length.
  set (N := length (middle_images cfg)).
  rewrite join_loop_closed. cbn [join_parts last_label].
  replace (N + 2 - 1) with (N + 1) by lia.
  replace (N + 1 - 1) with N by lia.
  rewrite transition_style_fadeblack. reflexivity.
Qed.

Lemma filter_graph_parts (w : world) (cfg : config) (voice_duration : Q)
  (parts : list filter_part) :
  filter_graph w cfg voice_duration = Ok parts ->
  parts = graph_parts w cfg voice_duration.
Proof.
  intros E.
  generalize (filter_graph_ok_consistent w cfg voice_duration parts E).
  intros C. rewrite (filter_graph_exact w cfg voice_duration C) in E.
  apply Ok_inj in E. congruence.
Qed.

End ClosedForm.

(* ===================================================================== *)
(** * Linear wiring                                                       *)
(* ===================================================================== *)

Section LinearWiring.

Import Py Reading VideoBuilder Wiring.

Lemma linear_ext (parts : list filter_part) :
  forall D D' A A' : label -> Prop,
    (forall l, D l <-> D' l) -> (forall l, A l <-> A' l) ->
    linear D A parts -> linear D' A' parts.
Proof.
  induction parts as [|p parts IH]; intros D D' A A' HD HA; simpl; [auto|].
  intros [N [U [F L]]]. repeat split.
  - exact N.
  - intros a Ha. apply HA. auto.
  - intros X. apply F. apply HD. exact X.
  - eapply IH; [| |exact L].
    + intros l. specialize (HD l). tauto.
    + intros l. unfold available_after_part. specialize (HA l). tauto.
Qed.

Lemma available_after_ext (parts : list filter_part) :
  forall A A' : label -> Prop,
    (forall l, A l <-> A' l) ->
    forall l, available_after A parts l <-> available_after A' parts l.
Proof.
  induction parts as [|p parts IH]; intros A A' HA l; simpl; [auto|].
  apply IH. intros l'. unfold available_after_part. specialize (HA l').
  tauto.
Qed.

Lemma available_after_app (xs ys : list filter_part) :
  forall A,
    available_after A (xs ++ ys) = available_after (available_after A xs) ys.
Proof.
  induction xs as [|p xs IH]; intros A; simpl; [reflexivity|]. apply IH.
Qed.

Lemma linear_app (xs ys : list filter_part) :
  forall D A,
    linear D A xs ->
    linear (defined_after D xs) (available_after A xs) ys ->
    linear D A (xs ++ ys).
Proof.
  induction xs as [|p xs IH]; intros D A Lx Ly.
  - simpl. eapply linear_ext; [| |exact Ly].
    + intros l. unfold defined_after. simpl. tauto.
    + intros l. reflexivity.
  - simpl in Lx |- *. destruct Lx as [N [U [F L]]]. repeat split; auto.
    apply IH; [exact L|].
    eapply linear_ext; [| |exact Ly].
    + intros l. unfold defined_after. simpl. split; intros [H|H]; auto.
      * destruct H; auto.
      * destruct H; auto.
    + intros l. reflexivity.
Qed.

(** Parts that consume no label: they are wired when their labels are
    new and distinct, and leave their labels available. *)
Lemma linear_sources (parts : list filter_part) :
  forall D A,
    (forall p, In p parts -> uses p = []) ->
    NoDup (map defines parts) ->
    (forall l, In l (map defines parts) -> ~ D l) ->
    linear D A parts
    /\ (forall l, available_after A parts l
                  <-> In l (map defines parts) \/ A l).
Proof.
  induction parts as [|p parts IH]; intros D A U N F.
  - simpl. split; [exact I|]. intros l. tauto.
  - inversion N as [|x xs Hx Hxs]; subst.
    destruct (IH (fun l => l = defines p \/ D l)
                (available_after_part A p)) as [L E].
    + intros q Hq. apply U. right. exact Hq.
    + exact Hxs.
    + intros l Hl [X|X].
      * subst l. contradiction.
      * apply (F l); [right; exact Hl|exact X].
    + split.
      * simpl. rewrite (U p) by (left; reflexivity).
        repeat split; [constructor|intros a []| |exact L].
        apply F. left. reflexivity.
      * intros l. simpl. rewrite E. unfold available_after_part.
        rewrite (U p) by (left; reflexivity). simpl.
        split; [intros [H|[H|[H _]]]|intros [[H|H]|H]]; auto.
Qed.

Lemma nodup_app_disjoint {A : Type} (l l' : list A) :
  NoDup (l ++ l') -> forall a, In a l -> In a l' -> False.
Proof.
  induction l as [|x l IH]; intros N a Ha Ha'; [contradiction|].
  simpl in N. inversion N as [|y ys Hy Hys]; subst.
  destruct Ha as [->|Ha].
  - apply Hy. apply in_or_app. right. exact Ha'.
  - eapply IH; eassumption.
Qed.

Lemma last_default {A : Type} (l : list A) (d d' : A) :
  l <> [] -> last l d = last l d'.
Proof.
  induction l as [|x l IH]; intros N; [congruence|].
  destruct l as [|y l]; [reflexivity|].
  change (last (x :: y :: l) d) with (last (y :: l) d).
  change (last (x :: y :: l) d') with (last (y :: l) d').
  apply IH. discriminate.
Qed.

Lemma last_defined_cons (p : filter_part) (parts : list filter_part)
  (h : label) :
  last_defined h (p :: parts) = last_defined (defines p) parts.
Proof.
  unfold last_defined. simpl.
  destruct (map defines parts) as [|x l] eqn:E; [reflexivity|].
  apply last_default. discriminate.
Qed.

Lemma chain_app (xs ys : list filter_part) :
  forall h, chain h xs -> chain (last_defined h xs) ys -> chain h (xs ++ ys).
Proof.
  induction xs as [|p xs IH]; intros h Cx Cy; simpl in *; [exact Cy|].
  destruct Cx as [H Cx]. split; [exact H|]. apply IH; [exact Cx|].
  rewrite last_defined_cons in Cy. exact Cy.
Qed.

Lemma last_defined_app (xs ys : list filter_part) :
  forall h,
    last_defined h (xs ++ ys) = last_defined (last_defined h xs) ys.
Proof.
  induction xs as [|p xs IH]; intros h; [reflexivity|].
  simpl app. rewrite !last_defined_cons. apply IH.
Qed.

(** A chain is wired when its head is available, its labels are new and
    distinct, and its side inputs are distinct available labels; it leaves
    its last label instead of its head and its side inputs. *)
Lemma linear_chain (parts : list filter_part) :
  forall h (D A : label -> Prop),
    chain h parts ->
    NoDup (map defines parts) ->
    (forall l, In l (map defines parts) -> ~ D l) ->
    (forall l, A l -> D l) -> A h ->
    NoDup (sides parts) ->
    (forall s, In s (sides parts) -> A s /\ s <> h) ->
    linear D A parts
    /\ (forall l, available_after A parts l
                  <-> (parts = [] /\ A l)
                      \/ (parts <> []
                          /\ (l = last_defined h parts
                              \/ (A l /\ l <> h /\ ~ In l (sides parts))))).
Proof.
  induction parts as [|p parts IH]; intros h D A C N F AD Ah NS S.
  - simpl. split; [exact I|]. intros l. split; [tauto|].
    intros [[_ H]|[H _]]; [exact H|congruence].
  - simpl in C. destruct C as [Hh C].
    inversion N as [|x xs Hx Hxs]; subst.
    assert (U : uses p = h :: tl (uses p)).
    { destruct (uses p); simpl in Hh; [discriminate|]. injection Hh as ->.
      reflexivity. }
    unfold sides in NS, S. simpl in NS, S. fold (sides parts) in NS, S.
    apply NoDup_app_remove_r in NS as NS1.
    apply NoDup_app_remove_l in NS as NS2.
    assert (Fp : ~ D (defines p)) by (apply F; left; reflexivity).
    destruct (IH (defines p) (fun l => l = defines p \/ D l)
                (available_after_part A p)) as [L E]; auto.
    + intros l Hl [X|X]; [subst l; contradiction|].
      apply (F l); [right; exact Hl|exact X].
    + intros l [X|[X _]]; [left; exact X|right; apply AD; exact X].
    + left. reflexivity.
    + intros s Hs. destruct (S s) as [As Nh]; [apply in_or_app; auto|].
      split.
      * right. split; [exact As|]. rewrite U. intros [X|X]; [congruence|].
        eapply (nodup_app_disjoint _ _ NS); eassumption.
      * intros X. subst s. apply Fp. apply AD. exact As.
    + split.
      * simpl. repeat split; [| |exact Fp|exact L].
        -- rewrite U. constructor; [|exact NS1].
           intros X. destruct (S h) as [_ Nh]; [apply in_or_app; auto|].
           congruence.
        -- intros a Ha. rewrite U in Ha. destruct Ha as [<-|Ha]; [exact Ah|].
           apply S. apply in_or_app. auto.
      * intros l. simpl available_after. rewrite E. clear E IH L.
        rewrite last_defined_cons.
        change (sides (p :: parts)) with (tl (uses p) ++ sides parts).
        unfold available_after_part.
        assert (K : A l -> l <> defines p).
        { intros X Y. subst l. apply Fp, AD, X. }
        assert (IU : In l (uses p) <-> l = h \/ In l (tl (uses p))).
        { rewrite U at 1. simpl. split; intros [X|X]; auto. }
        rewrite in_app_iff.
        destruct parts as [|q parts].
        -- unfold last_defined, sides. simpl. split.
           ++ intros [[_ [X|[X Y]]]|[X _]]; [| |congruence]; right;
                (split; [discriminate|]); [left; exact X|right; tauto].
           ++ intros [[X _]|[_ [X|[X [Y Z]]]]]; [discriminate| |]; left;
                (split; [reflexivity|]); [left; exact X|right; tauto].
        -- split.
           ++ intros [[X _]|[_ [X|[[X|[X Y]] [Z W]]]]];
                [discriminate| | |]; right; (split; [discriminate|]);
                [left; exact X|congruence|right; tauto].
           ++ intros [[X _]|[_ [X|[X [Y Z]]]]]; [discriminate| |]; right;
                (split; [discriminate|]); [left; exact X|].
              right. split; [right; tauto|].
              split; [apply K; exact X|tauto].
Qed.

End LinearWiring.

Section GraphWiring.

Import Py Reading VideoBuilder Wiring.

Lemma nodup_app_kind (l1 l2 : list label) (k : nat) :
  NoDup l1 -> NoDup l2 ->
  (forall a, In a l1 -> kind a < k) -> (forall a, In a l2 -> k <= kind a) ->
  NoDup (l1 ++ l2).
Proof.
  intros N1 N2 K1 K2. apply NoDup_app; auto.
  intros a H1 H2. specialize (K1 a H1). specialize (K2 a H2). lia.
Qed.

Lemma nodup_map_seq (f : nat -> label) (a n : nat) :
  (forall i j, f i = f j -> i = j) -> NoDup (map f (seq a n)).
Proof.
  intros Inj. revert a. induction n as [|n IH]; intros a; simpl.
  - constructor.
  - constructor; [|apply IH].
    intros H. apply in_map_iff in H as [j [E H]]. apply Inj in E.
    apply in_seq in H. lia.
Qed.

Lemma flat_map_singleton {A B : Type} (f : A -> B) (l : list A) :
  flat_map (fun x => [f x]) l = map f l.
Proof. induction l as [|x l IH]; simpl; congruence. Qed.

(** A list of parts made from consecutive numbers is a chain when every
    part consumes the label of its number and defines the label of the
    next. *)
Lemma chain_seq (f : nat -> filter_part) (g : nat -> label) (m : nat) :
  forall a,
    (forall i, a <= i < a + m -> hd_error (uses (f i)) = Some (g i)) ->
    (forall i, a <= i < a + m -> defines (f i) = g (S i)) ->
    chain (g a) (map f (seq a m))
    /\ last_defined (g a) (map f (seq a m)) = g (a + m).
Proof.
  induction m as [|m IH]; intros a U D.
  - simpl. split; [exact I|]. unfold last_defined. simpl.
    rewrite Nat.add_0_r. reflexivity.
  - destruct (IH (S a)) as [C L].
    + intros i Hi. apply U. lia.
    + intros i Hi. apply D. lia.
    + cbn [seq map]. rewrite last_defined_cons.
      rewrite (D a) by lia. split.
      * simpl. split; [apply U; lia|]. rewrite (D a) by lia. exact C.
      * rewrite L. f_equal. lia.
Qed.

Lemma segment_titles_chain (segs : list segment) :
  forall k next start curr,
    chain curr (segment_title_parts k next start curr segs)
    /\ map defines (segment_title_parts k next start curr segs)
       = map v_title (seq k (length segs))
    /\ sides (segment_title_parts k next start curr segs) = []
    /\ last_defined curr (segment_title_parts k next start curr segs)
       = if truthy segs then v_title (k + length segs - 1) else curr.
Proof.
  induction segs as [|seg segs IH]; intros k next start curr.
  - simpl. repeat split.
  - destruct (IH (S k) (next + 1) (start + seg_voice_duration seg)%Q
                (v_title k)) as [C [D [S L]]].
    cbn [segment_title_parts]. rewrite last_defined_cons. repeat split.
    + exact C.
    + cbn [map length seq defines]. rewrite D. reflexivity.
    + unfold sides in *. cbn [flat_map uses tl app]. exact S.
    + cbn [defines]. rewrite L. destruct segs; cbn [truthy length];
        f_equal; lia.
Qed.

Lemma scaled_defines (cfg : config) (per_image : Q) :
  map defines
    (map (fun '(i, img) =>
            input_part (intro_image cfg) (outro_image cfg) per_image i img)
         (enumerate (inputs cfg)))
  = map v (seq 0 (length (inputs cfg)))
  /\ (forall p,
         In p (map (fun '(i, img) =>
                      input_part (intro_image cfg) (outro_image cfg)
                        per_image i img)
                 (enumerate (inputs cfg))) ->
         uses p = []).
Proof.
  unfold enumerate. generalize 0. generalize (inputs cfg).
  intros l. induction l as [|x l IH]; intros a.
  - split; [reflexivity|intros p []].
  - destruct (IH (S a)) as [D U]. split.
    + cbn [length seq combine map]. rewrite D. f_equal.
      unfold input_part.
      destruct (String.eqb x (intro_image cfg)); [reflexivity|].
      destruct (String.eqb x (outro_image cfg)); [reflexivity|].
      destruct (Z.eqb _ 0); reflexivity.
    + intros p [<-|H]; [|apply U; exact H].
      unfold input_part.
      destruct (String.eqb x (intro_image cfg)); [reflexivity|].
      destruct (String.eqb x (outro_image cfg)); [reflexivity|].
      destruct (Z.eqb _ 0); reflexivity.
Qed.

Lemma sides_nil (parts : list filter_part) :
  (forall p, In p parts -> tl (uses p) = []) -> sides parts = [].
Proof.
  induction parts as [|p parts IH]; intros H; [reflexivity|].
  unfold sides in *. simpl. rewrite (H p) by (left; reflexivity).
  apply IH. intros q Hq. apply H. right. exact Hq.
Qed.

Lemma sides_app (xs ys : list filter_part) :
  sides (xs ++ ys) = sides xs ++ sides ys.
Proof. unfold sides. apply flat_map_app. Qed.

(** The crossfades of the middle images chain on [v0]. *)
Lemma joins_chain (per_image : Q) (N : nat) :
  chain (v 0) (map (join_part_at per_image) (seq 0 N))
  /\ last_defined (v 0) (map (join_part_at per_image) (seq 0 N))
     = (if N =? 0 then v 0 else v_join N)
  /\ map defines (map (join_part_at per_image) (seq 0 N))
     = map (fun k => v_join (S k)) (seq 0 N)
  /\ sides (map (join_part_at per_image) (seq 0 N))
     = map (fun k => v (S k)) (seq 0 N).
Proof.
  destruct (chain_seq (join_part_at per_image)
              (fun k => if k =? 0 then v 0 else v_join k) N 0) as [C L].
  - intros i _. reflexivity.
  - intros i _. reflexivity.
  - repeat split.
    + exact C.
    + exact L.
    + rewrite map_map. apply map_ext. intros k. reflexivity.
    + unfold sides. rewrite flat_map_concat_map, map_map.
      rewrite <- flat_map_concat_map.
      apply (flat_map_singleton (fun k => v (S k))).
Qed.

(** The caption overlays chain on [v_base_middle] and end in
    [v_captioned]. *)
Lemma captions_chain (cfg : config) (voice_duration : Q) (idx : nat) :
  chain v_base_middle (caption_parts cfg voice_duration idx)
  /\ last_defined v_base_middle (caption_parts cfg voice_duration idx)
     = v_captioned
  /\ sides (caption_parts cfg voice_duration idx) = []
  /\ NoDup (map defines (caption_parts cfg voice_duration idx))
  /\ (forall l, In l (map defines (caption_parts cfg voice_duration idx)) ->
                3 <= kind l <= 4).
Proof.
  unfold caption_parts.
  destruct (captions_shown cfg voice_duration) eqn:G.
  - apply captions_shown_positive in G as [Gn _].
    set (n := length (get (caption_images cfg) [])) in *.
    set (wf := chosen_window _ _ _).
    destruct (chain_seq (caption_part idx wf)
                (fun i => if i =? 0 then v_base_middle else v_cap (i - 1))
                n 0) as [C L].
    + intros i _. reflexivity.
    + intros i _. cbn. rewrite Nat.sub_0_r. reflexivity.
    + cbn [Nat.eqb Nat.add] in C, L.
      assert (Hn : (n =? 0) = false) by (apply Nat.eqb_neq; lia).
      rewrite Hn in L.
      assert (Dm : map defines (map (caption_part idx wf) (seq 0 n))
                   = map v_cap (seq 0 n)).
      { rewrite map_map. apply map_ext. intros i. reflexivity. }
      repeat split.
      * apply chain_app; [exact C|]. rewrite L. simpl. auto.
      * rewrite last_defined_app. reflexivity.
      * rewrite sides_app. rewrite sides_nil; [reflexivity|].
        intros p Hp. apply in_map_iff in Hp as [i [<- _]]. reflexivity.
      * rewrite map_app, Dm. apply (nodup_app_kind _ _ 4).
        -- apply nodup_map_seq. intros i j X. congruence.
        -- repeat constructor. intros [].
        -- intros a Ha. apply in_map_iff in Ha as [i [<- _]]. simpl. lia.
        -- intros a [<-|[]]. simpl. lia.
      * rewrite map_app, Dm in H. apply in_app_iff in H as [H|[<-|[]]].
        -- apply in_map_iff in H as [i [<- _]]. simpl. lia.
        -- simpl. lia.
      * rewrite map_app, Dm in H. apply in_app_iff in H as [H|[<-|[]]].
        -- apply in_map_iff in H as [i [<- _]]. simpl. lia.
        -- simpl. lia.
  - simpl. repeat split; try (repeat constructor; intros []).
    + destruct H as [<-|[]]. simpl. lia.
    + destruct H as [<-|[]]. simpl. lia.
Qed.

(** The title overlays chain on [v_captioned] and end in the label that
    the next stage reads. *)
Lemma titles_chain (cfg : config) (voice_duration : Q) (idx : nat) :
  chain v_captioned (title_parts_of cfg voice_duration idx)
  /\ last_defined v_captioned (title_parts_of cfg voice_duration idx)
     = titled_label cfg
  /\ sides (title_parts_of cfg voice_duration idx) = []
  /\ NoDup (map defines (title_parts_of cfg voice_duration idx))
  /\ (forall l, In l (map defines (title_parts_of cfg voice_duration idx)) ->
                5 <= kind l <= 6).
Proof.
  unfold title_parts_of, titled_label.
  destruct (truthy (get (segments cfg) [])) eqn:T.
  - destruct (segment_titles_chain (get (segments cfg) []) 0 idx
                INTRO_DURATION v_captioned) as [C [D [S L]]].
    rewrite T in L. repeat split.
    + exact C.
    + exact L.
    + exact S.
    + rewrite D. apply nodup_map_seq. intros i j X. congruence.
    + rewrite D in H. apply in_map_iff in H as [i [<- _]]. simpl. lia.
    + rewrite D in H. apply in_map_iff in H as [i [<- _]]. simpl. lia.
  - destruct (has_title cfg).
    + simpl. repeat split; try (repeat constructor; intros []).
      * destruct H as [<-|[]]. simpl. lia.
      * destruct H as [<-|[]]. simpl. lia.
    + simpl. repeat split; try constructor; destruct H.
Qed.

Lemma titled_label_kind (cfg : config) : 4 <= kind (titled_label cfg) <= 6.
Proof.
  unfold titled_label. destruct (truthy _); [simpl; lia|].
  destruct (has_title cfg); simpl; lia.
Qed.

(** The video chain of the graph, from the first crossfade to the last
    title overlay. *)
Lemma video_chain (cfg : config) (voice_duration per_image : Q)
  (i j : nat) :
  let N := length (middle_images cfg) in
  let parts :=
    map (join_part_at per_image) (seq 0 N)
    ++ [null (if N =? 0 then v 0 else v_join N) v_base_middle]
    ++ caption_parts cfg voice_duration i
    ++ title_parts_of cfg voice_duration j in
  chain (v 0) parts
  /\ last_defined (v 0) parts = titled_label cfg
  /\ sides parts = map (fun k => v (S k)) (seq 0 N)
  /\ NoDup (map defines parts)
  /\ (forall l, In l (map defines parts) -> 1 <= kind l <= 6)
  /\ parts <> [].
Proof.
  intros N parts. subst parts.
  destruct (joins_chain per_image N) as [Cj [Lj [Dj Sj]]].
  destruct (captions_chain cfg voice_duration i) as [Cc [Lc [Sc [Nc Kc]]]].
  destruct (titles_chain cfg voice_duration j) as [Ct [Lt [St [Nt Kt]]]].
  assert (Kj : forall l,
             In l (map defines (map (join_part_at per_image) (seq 0 N))) ->
             kind l = 1).
  { intros l H. rewrite Dj in H. apply in_map_iff in H as [k [<- _]].
    reflexivity. }
  repeat split.
  - apply chain_app; [exact Cj|]. rewrite Lj.
    apply (chain_app [_]); [simpl; auto|].
    change (last_defined _ [null _ v_base_middle]) with v_base_middle.
    apply chain_app; [exact Cc|]. rewrite Lc. exact Ct.
  - rewrite last_defined_app, Lj.
    rewrite (last_defined_app [_]).
    rewrite last_defined_app.
    change (last_defined _ [null _ v_base_middle]) with v_base_middle.
    rewrite Lc. exact Lt.
  - rewrite !sides_app, Sj, Sc, St. simpl. rewrite app_nil_r. reflexivity.
  - rewrite !map_app. apply (nodup_app_kind _ _ 2).
    + rewrite Dj. apply nodup_map_seq. intros a b X. congruence.
    + apply (nodup_app_kind _ _ 3).
      * repeat constructor. intros [].
      * apply (nodup_app_kind _ _ 5); auto.
        -- intros a Ha. apply Kc in Ha. lia.
        -- intros a Ha. apply Kt in Ha. lia.
      * intros a [<-|[]]. simpl. lia.
      * intros a Ha. apply in_app_iff in Ha as [Ha|Ha].
        -- apply Kc in Ha. lia.
        -- apply Kt in Ha. lia.
    + intros a Ha. rewrite (Kj a Ha). lia.
    + intros a Ha. apply in_app_iff in Ha as [[<-|[]]|Ha]; [simpl; lia|].
      apply in_app_iff in Ha as [Ha|Ha].
      * apply Kc in Ha. lia.
      * apply Kt in Ha. lia.
  - rewrite !map_app in H. apply in_app_iff in H as [H|H].
    + rewrite (Kj l H). lia.
    + apply in_app_iff in H as [[<-|[]]|H]; [simpl; lia|].
      apply in_app_iff in H as [H|H]; [apply Kc in H|apply Kt in H]; lia.
  - rewrite !map_app in H. apply in_app_iff in H as [H|H].
    + rewrite (Kj l H). lia.
    + apply in_app_iff in H as [[<-|[]]|H]; [simpl; lia|].
      apply in_app_iff in H as [H|H]; [apply Kc in H|apply Kt in H]; lia.
  - intros X. apply app_eq_nil in X as [_ X]. discriminate.
Qed.

(** The end of the graph: the news frame, the crossfade into the outro
    and the audio chain consume the last video label and the outro, and
    leave [v_final] and [a_delayed]. *)
Lemma graph_end_linear (w : world) (cfg : config) (k n a : nat)
  (o d : number) (D A : label -> Prop) :
  (forall l, D l -> kind l <= 6) ->
  (forall l, A l <-> l = titled_label cfg \/ l = v k) ->
  let parts :=
    frame_parts w cfg n
    ++ [xfade (pre_outro_label w cfg) (v k) "fadeblack"
          (FRepr TRANSITION_DURATION) o v_final]
    ++ [atrim_adelay a d 3000 3000] in
  linear D A parts
  /\ (forall l, available_after A parts l <-> l = v_final \/ l = a_delayed).
Proof.
  intros KD HA parts. subst parts.
  generalize (titled_label_kind cfg). revert HA.
  unfold frame_parts, pre_outro_label.
  generalize (titled_label cfg). intros t HA Kt.
  assert (Tv : t <> v k) by (intros X; rewrite X in Kt; simpl in Kt; lia).
  assert (F : forall l, 7 <= kind l -> ~ D l).
  { intros l Hl X. apply KD in X. lia. }
  assert (Fa : forall l, 7 <= kind l -> ~ A l).
  { intros l Hl X. apply HA in X as [X|X]; rewrite X in Hl; simpl in Hl; lia. }
  assert (To : t <> ov_scaled).
  { intros X. rewrite X in Kt. simpl in Kt. lia. }
  assert (Fresh : forall l (P : Prop),
             7 <= kind l -> (P -> False) -> ~ (P \/ D l)).
  { intros l P Hl NP [X|X]; [auto|]. revert X. apply F. exact Hl. }
  destruct (framed w cfg).
  - split.
    + simpl. unfold available_after_part. simpl. repeat split.
      * constructor.
      * intros x [].
      * apply F. simpl. lia.
      * repeat constructor; simpl; [intros [X|[]]; congruence|intros []].
      * intros x [<-|[<-|[]]]; [right|left; reflexivity].
        split; [apply HA; auto|tauto].
      *
        apply Fresh; [simpl; lia|]. intros X. discriminate.
      * repeat constructor; simpl; [intros [X|[]]; discriminate|intros []].
      * intros x [<-|[<-|[]]]; [left; reflexivity|right].
        split; [|intros [X|[X|[]]]; [congruence|discriminate]].
        right. split; [apply HA; auto|tauto].
      * rewrite <- or_assoc.
        apply Fresh; [simpl; lia|]. intros [X|X]; discriminate.
      * constructor.
      * intros x [].
      * rewrite <- !or_assoc.
        apply Fresh; [simpl; lia|]. intros [[X|X]|X]; discriminate.
    + intros l. simpl. unfold available_after_part. simpl.
      rewrite HA. split.
      * intros [X|[[X|[[X|[[X|[[X|X] _]] Y]] Z]] _]]; auto; exfalso; intuition congruence.
      * intros [-> | ->]; [right|left; reflexivity].
        split; [left; reflexivity|intuition discriminate].
  - split.
    + simpl. unfold available_after_part. simpl. repeat split.
      * repeat constructor; simpl; [intros [X|[]]; congruence|intros []].
      * intros x [<-|[<-|[]]]; apply HA; auto.
      * apply F. simpl. lia.
      * constructor.
      * intros x [].
      * apply Fresh; [simpl; lia|]. intros X. discriminate.
    + intros l. simpl. unfold available_after_part. simpl.
      rewrite HA. split.
      * intros [X|[[X|[[X|X] Y]] _]]; auto; exfalso; intuition congruence.
      * intros [-> | ->]; [right|left; reflexivity].
        split; [left; reflexivity|].
        assert (Tf : t <> v_final).
        { intros X. rewrite X in Kt. simpl in Kt. lia. }
        intuition (discriminate || congruence).
Qed.

Lemma graph_parts_linear (w : world) (cfg : config) (voice_duration : Q) :
  linear nothing nothing (graph_parts w cfg voice_duration)
  /\ (forall l,
         available_after nothing (graph_parts w cfg voice_duration) l
         <-> l = v_final \/ l = a_delayed).
Proof.
  unfold graph_parts.
  set (N := length (middle_images cfg)).
  set (per_image := per_image_duration voice_duration N).
  set (nc := length (get (caption_images cfg) [])).
  set (scaled := map _ (enumerate (inputs cfg))).
  destruct (scaled_defines cfg per_image) as [Ds Us].
  fold scaled in Ds, Us. rewrite inputs_length in Ds. fold N in Ds.
  pose (video :=
          map (join_part_at per_image) (seq 0 N)
          ++ [null (if N =? 0 then v 0 else v_join N) v_base_middle]
          ++ caption_parts cfg voice_duration (N + 2 + 1)
          ++ title_parts_of cfg voice_duration (N + 2 + 1 + nc)).
  pose (ending :=
          frame_parts w cfg (N + 2 + 1 + nc + title_count cfg)
          ++ [xfade (pre_outro_label w cfg) (v (N + 1)) "fadeblack"
                (FRepr TRANSITION_DURATION) (F2 (outro_offset voice_duration))
                v_final]
          ++ [atrim_adelay (N + 2) (F2 voice_duration) 3000 3000]).
  match goal with
  | |- linear _ _ ?g /\ _ => replace g with (scaled ++ video ++ ending)
  end.
  2:{ unfold video, ending. rewrite <- !app_assoc. reflexivity. }
  destruct (video_chain cfg voice_duration per_image (N + 2 + 1)
              (N + 2 + 1 + nc)) as [Cv [Lv [Sv [Nv [Kv Ev]]]]].
  fold N in Cv, Lv, Sv, Nv, Kv, Ev. fold video in Cv, Lv, Sv, Nv, Kv, Ev.
  (* the scaled inputs *)
  destruct (linear_sources scaled nothing nothing) as [L1 E1].
  { exact Us. }
  { rewrite Ds. apply nodup_map_seq. intros a b X. congruence. }
  { intros l _ []. }
  assert (A1 : forall l,
             available_after nothing scaled l
             <-> exists i, i < N + 2 /\ l = v i).
  { intros l. rewrite E1, Ds. unfold nothing. split.
    - intros [H|[]]. apply in_map_iff in H as [i [<- H]].
      apply in_seq in H. exists i. split; [lia|reflexivity].
    - intros [i [Hi ->]]. left. apply in_map. apply in_seq. lia. }
  assert (D1 : forall l,
             defined_after nothing scaled l
             <-> exists i, i < N + 2 /\ l = v i).
  { intros l. unfold defined_after. rewrite <- A1, E1. tauto. }
  (* the video chain *)
  destruct (linear_chain video (v 0) (defined_after nothing scaled)
              (available_after nothing scaled)) as [L2 E2]; auto.
  { intros l Hl X. apply Kv in Hl. apply D1 in X as [i [_ ->]].
    simpl in Hl. lia. }
  { intros l X. apply D1. apply A1. exact X. }
  { apply A1. exists 0. split; [lia|reflexivity]. }
  { rewrite Sv. apply nodup_map_seq. intros a b X. congruence. }
  { intros s Hs. rewrite Sv in Hs. apply in_map_iff in Hs as [k [<- Hk]].
    apply in_seq in Hk. split; [|discriminate].
    apply A1. exists (S k). split; [lia|reflexivity]. }
  (* the end of the graph *)
  destruct (graph_end_linear w cfg (N + 1)
              (N + 2 + 1 + nc + title_count cfg) (N + 2)
              (F2 (outro_offset voice_duration)) (F2 voice_duration)
              (defined_after (defined_after nothing scaled) video)
              (available_after (available_after nothing scaled) video))
    as [L3 E3].
  { intros l [X|X].
    - apply Kv in X. lia.
    - apply D1 in X as [i [_ ->]]. simpl. lia. }
  { intros l. rewrite E2, Lv, Sv. split.
    - intros [[X _]|[_ [X|[X [Y Z]]]]]; [contradiction|left; exact X|].
      right. apply A1 in X as [i [Hi ->]]. f_equal.
      destruct (Nat.eq_dec i 0) as [->|Hz]; [congruence|].
      destruct (Nat.eq_dec i (N + 1)) as [->|Hn]; [reflexivity|].
      exfalso. apply Z. destruct i as [|i]; [congruence|].
      apply (in_map (fun k => v (S k))). apply in_seq. lia.
    - intros [X|X]; right; (split; [exact Ev|]); [left; exact X|right].
      subst l. split; [apply A1; exists (N + 1); split; [lia|reflexivity]|].
      split; [intros X; injection X; lia|].
      intros X. apply in_map_iff in X as [k [X Hk]]. apply in_seq in Hk.
      injection X. lia. }
  fold ending in L3, E3.
  split.
  - apply linear_app; [exact L1|]. apply linear_app; [exact L2|exact L3].
  - intros l. rewrite !available_after_app. apply E3.
Qed.

(** X1.  Every filter graph that [build_video] builds is wired linearly:
    each part reads labels that an earlier part defined and that no part
    consumed since, no label is defined twice, and when the graph is
    complete exactly the two mapped labels, [v_final] and [a_delayed],
    are left unconsumed. *)
Theorem graph_wired_linearly (w : world) (cfg : config) (voice_duration : Q)
  (parts : list filter_part) :
  filter_graph w cfg voice_duration = Ok parts ->
  linear nothing nothing parts
  /\ (forall l, available_after nothing parts l
                <-> l = v_final \/ l = a_delayed).
Proof.
  intros E. apply filter_graph_parts in E. subst parts.
  apply graph_parts_linear.
Qed.

End GraphWiring.

(* ===================================================================== *)
(** * Further properties of the code                                      *)
(* ===================================================================== *)

Section WiringInstance.

Import Py Reading VideoBuilder Wiring Examples.

Lemma graph_wired_linearly_witness :
  exists parts,
    filter_graph world_with_overlay config_with_captions 5 = Ok parts
    /\ linear nothing nothing parts
    /\ (forall l, available_after nothing parts l
                  <-> l = v_final \/ l = a_delayed).
Proof.
  eexists. split; [vm_compute; reflexivity|].
  apply (graph_wired_linearly world_with_overlay config_with_captions 5%Q).
  vm_compute. reflexivity.
Defined.

End WiringInstance.

Section RenderedFrames.

Import Py Reading CaptionGenerator VideoBuilder Wiring.

Lemma words_before_cons (x : str) (cs : list str) (j : nat) :
  words_before (x :: cs) (S j) = length (split x) + words_before cs j.
Proof. reflexivity. Qed.

(** Where frame [i] of the typewriter rendering comes from. *)
Lemma rendered_frames_from (cs : list str) :
  forall c0 i c wz,
    nth_error
      (flat_map
         (fun '(chunk_idx, chunk) =>
            map (fun word_step => (chunk_idx, word_step))
              (word_steps true (length (split chunk))))
         (combine (seq c0 (length cs)) cs)) i = Some (c, wz) ->
    exists j chunk w,
      c = c0 + j /\ nth_error cs j = Some chunk
      /\ w < length (split chunk) /\ wz = Z.of_nat w
      /\ i = words_before cs j + w.
Proof.
  induction cs as [|x cs IH]; intros c0 i c wz H.
  - destruct i; discriminate.
  - cbn [length seq combine flat_map] in H.
    set (n := length (split x)) in *.
    assert (Ln : length (map (fun word_step : Z => (c0, word_step))
                       (word_steps true n)) = n).
    { unfold word_steps, range. rewrite !length_map, length_seq.
      reflexivity. }
    destruct (Nat.lt_ge_cases i n) as [Hi|Hi].
    + rewrite nth_error_app1 in H by lia.
      unfold word_steps, range in H. rewrite map_map in H.
      rewrite nth_error_map in H.
      rewrite (nth_error_nth' _ 0) in H by (rewrite length_seq; lia).
      rewrite seq_nth in H by lia. simpl in H. injection H as <- <-.
      exists 0, x, i. repeat split; auto.
    + rewrite nth_error_app2 in H by lia. rewrite Ln in H.
      destruct (IH (S c0) (i - n) c wz H) as [j [chunk [w [A [B [C [D E]]]]]]].
      exists (S j), chunk, w. repeat split; auto; [clear - A; lia|].
      rewrite words_before_cons. fold n. clear - E Hi. lia.
Qed.

Lemma rendered_frames_length (cs : list str) :
  forall c0,
    length
      (flat_map
         (fun '(chunk_idx, chunk) =>
            map (fun word_step => (chunk_idx, word_step))
              (word_steps true (length (split chunk))))
         (combine (seq c0 (length cs)) cs))
    = words_before cs (length cs).
Proof.
  induction cs as [|x cs IH]; intros c0; [reflexivity|].
  cbn [length seq combine flat_map]. rewrite length_app, IH.
  unfold word_steps, range. rewrite !length_map, length_seq.
  rewrite words_before_cons. reflexivity.
Qed.

Lemma words_before_at_least (cs : list str) :
  Forall (fun c => 1 <= length (split c)) cs ->
  length cs <= words_before cs (length cs).
Proof.
  induction 1 as [|x cs Hx F IH]; [simpl; lia|].
  cbn [length]. rewrite words_before_cons. lia.
Qed.

(** When there are no more words than chunks, every chunk is one word. *)
Lemma one_word_chunks (cs : list str) :
  Forall (fun c => 1 <= length (split c)) cs ->
  words_before cs (length cs) <= length cs ->
  forall j chunk,
    nth_error cs j = Some chunk ->
    length (split chunk) = 1 /\ words_before cs j = j.
Proof.
  induction 1 as [|x cs Hx F IH]; intros T j chunk Hj.
  - destruct j; discriminate.
  - generalize (words_before_at_least cs F). intros G.
    cbn [length] in T. rewrite words_before_cons in T.
    destruct j as [|j].
    + simpl in Hj. injection Hj as <-. split; [lia|reflexivity].
    + simpl in Hj. destruct (IH ltac:(lia) j chunk Hj) as [A B].
      split; [exact A|]. rewrite words_before_cons. lia.
Qed.

Lemma typewriter_window_at (chunks : list str) (chunk_windows : list (Q * Q))
  (ci : nat) (chunk : str) (chunkStart chunkEnd : Q) (wi : nat) :
  nth_error chunks ci = Some chunk ->
  nth_error chunk_windows ci = Some (chunkStart, chunkEnd) ->
  wi < length (split chunk) ->
  typewriter_window chunks chunk_windows (words_before chunks ci + wi)
  = Ok (sub_window chunkStart chunkEnd (split chunk) wi).
Proof.
  intros Hc Hw Hi. unfold typewriter_window.
  destruct (locate_frame_spec chunks ci wi chunk Hc Hi) as [A [B _]].
  rewrite A, B.
  rewrite (index_nth_error chunk_windows ci _ Hw). simpl.
  rewrite (index_nth_error chunks ci _ Hc). simpl.
  apply word_window_sub. intros E. rewrite E in Hi. simpl in Hi. lia.
Qed.

(** The window of the only word of a chunk is the window of the chunk. *)
Lemma sub_window_one_word (s e : Q) (words : list str) :
  length words = 1 ->
  (fst (sub_window s e words 0) == s)%Q
  /\ (snd (sub_window s e words 0) == e)%Q.
Proof.
  intros L. destruct words as [|w0 [|w1 ws]]; try discriminate.
  unfold sub_window, total_char_weight, cum_char_weight.
  cbn [fst snd length firstn map Nat.add]. unfold sum. cbn [fold_left].
  set (x := (0 + Z.max (Z.of_nat (length w0)) 2)%Z).
  assert (X : ~ (inject_Z x == 0)%Q).
  { unfold Qeq, inject_Z. simpl. subst x. lia. }
  change (inject_Z 0) with 0%Q. split; field; exact X.
Qed.

(** X3.  Every caption frame that [render_captions_to_images] draws for
    [generate] is overlaid by [build_video] during the window of its own
    word: frame [i], drawn for the words up to word [word_idx] of chunk
    [chunk_idx], reads caption input [i] and is enabled from the start to
    the end of the character-weighted share of that word in the window of
    that chunk. *)
Theorem rendered_frame_shown_in_word_window
  (script : str) (temp_dir : string) (base : config) (voice_duration : Q)
  (caption_start_idx i ci : nat) (wz : Z) :
  (0 < voice_duration)%Q ->
  caption_images base
  = Some (map (ReelGenerator.caption_path temp_dir)
            (range (length (render_captions_to_images script true)))) ->
  VideoBuilder.script base = Some script ->
  nth_error (render_captions_to_images script true) i = Some (ci, wz) ->
  exists parts chunk_windows chunk chunkStart chunkEnd prev t0 t1,
    caption_stage base voice_duration caption_start_idx = Ok parts
    /\ compute_chunk_windows INTRO_DURATION
         (outro_offset voice_duration - INTRO_DURATION)
         (split_into_chunks script) = Ok chunk_windows
    /\ nth_error (split_into_chunks script) ci = Some chunk
    /\ nth_error chunk_windows ci = Some (chunkStart, chunkEnd)
    /\ nth_error parts i
       = Some (overlay_between prev (caption_start_idx + i) (F2 t0) (F2 t1)
                 (v_cap i))
    /\ (t0 == fst (sub_window chunkStart chunkEnd (split chunk)
                     (Z.to_nat wz)))%Q
    /\ (t1 == snd (sub_window chunkStart chunkEnd (split chunk)
                     (Z.to_nat wz)))%Q.
Proof.
  intros HD Hc Hs Hf.
  set (frames := render_captions_to_images script true) in *.
  set (chunks := split_into_chunks script) in *.
  assert (Hi : i < length frames).
  { apply nth_error_Some. congruence. }
  destruct (rendered_frames_from chunks 0 i ci wz Hf)
    as [j [chunk [w [A [B [C [Dz E]]]]]]].
  simpl in A. subst j wz. rewrite Nat2Z.id.
  assert (N : chunks <> []).
  { intros X. rewrite X in B. destruct ci; discriminate. }
  assert (Hn : length (get (caption_images base) []) = length frames).
  { rewrite Hc. cbn [get]. unfold range.
    rewrite length_map, length_seq. reflexivity. }
  assert (Hk : script_chunks base = chunks).
  { unfold script_chunks. rewrite Hs. reflexivity. }
  assert (Hw : length (script_chunk_windows base voice_duration)
               = length chunks).
  { unfold script_chunk_windows. rewrite place_length, Hk.
    unfold chunk_word_counts. apply length_map. }
  assert (Lc : ci < length chunks).
  { apply nth_error_Some. congruence. }
  destruct (nth_error (script_chunk_windows base voice_duration) ci)
    as [[cs ce]|] eqn:W.
  2:{ apply nth_error_None in W. lia. }
  assert (Sh : captions_shown base voice_duration = true).
  { unfold captions_shown. rewrite Hn. apply andb_true_iff. split.
    - apply Nat.ltb_lt. lia.
    - apply negb_true_iff. destruct (Qle_bool _ _) eqn:G; [|reflexivity].
      apply Qle_bool_iff in G. unfold outro_offset in G. lra. }
  exists (caption_parts base voice_duration caption_start_idx),
    (script_chunk_windows base voice_duration), chunk, cs, ce.
  assert (Win : exists t0 t1,
             chosen_window chunks
               (script_chunk_windows base voice_duration) (length frames) i
             = Ok (t0, t1)
             /\ (t0 == fst (sub_window cs ce (split chunk) w))%Q
             /\ (t1 == snd (sub_window cs ce (split chunk) w))%Q).
  { unfold chosen_window. destruct (length chunks <? length frames) eqn:Mode.
    - exists (fst (sub_window cs ce (split chunk) w)),
        (snd (sub_window cs ce (split chunk) w)).
      rewrite E.
      rewrite (typewriter_window_at chunks _ ci chunk cs ce w B W C).
      rewrite <- surjective_pairing. repeat split; reflexivity.
    - apply Nat.ltb_ge in Mode.
      unfold frames, render_captions_to_images in Mode.
      fold chunks in Mode. rewrite rendered_frames_length in Mode.
      assert (F : Forall (fun c => 1 <= length (split c)) chunks).
      { eapply Forall_impl; [|apply (split_into_chunks_stripped script)].
        intros c H. apply H. }
      destruct (one_word_chunks chunks F Mode ci chunk B) as [One Same].
      assert (w = 0) by lia. subst w. rewrite Same, Nat.add_0_r in E.
      subst i.
      destruct (sub_window_one_word cs ce (split chunk) One) as [S0 S1].
      exists cs, ce. repeat split.
      + unfold static_window. rewrite Hw.
        rewrite Z.min_l by lia. apply index_nth_error. exact W.
      + symmetry. exact S0.
      + symmetry. exact S1. }
  destruct Win as [t0 [t1 [Wi [T0 T1]]]].
  exists (if i =? 0 then v_base_middle else v_cap (i - 1)), t0, t1.
  repeat split.
  - apply caption_stage_exact.
    apply (generate_builder_config_consistent script temp_dir); assumption.
  - unfold script_chunk_windows. rewrite Hk.
    apply compute_chunk_windows_place. exact N.
  - exact B.
  - exact W.
  - unfold caption_parts. rewrite Sh, Hn.
    rewrite nth_error_app1 by (rewrite length_map, length_seq; exact Hi).
    rewrite nth_error_map.
    rewrite (nth_error_nth' _ 0) by (rewrite length_seq; exact Hi).
    rewrite seq_nth by exact Hi. cbn [option_map Nat.add].
    unfold caption_part. rewrite Hk, Wi. reflexivity.
  - exact T0.
  - exact T1.
Qed.

End RenderedFrames.

Section GenerateOutcome.

Import Py Reading CaptionGenerator ReelGenerator.


(** What [generate] does after the voiceover is selected, by cases. *)
Lemma generate_outcome (w : world) (temp_dir output_dir : string)
  (cfg : config) (voiceover_path : string) :
  outcome (select_voiceover w temp_dir cfg) = Ok voiceover_path ->
  let measured := audio_duration w voiceover_path in
  let N := length (middle_images cfg) in
  outcome (generate w temp_dir output_dir cfg)
  = if negb (Qle_bool 3 measured) then Raise too_short
    else if N =? 0 then Raise no_middle_images
    else if negb (ffmpeg_succeeds w stage_build_video)
    then Raise (RuntimeError "Video construction failed."%string)
    else Ok {| voice_duration := measured;
               per_image_duration := (measured / inject_Z (Z.of_nat N))%Q;
               final_video_duration := (3 + measured + 3)%Q;
               output_file := path_join output_dir "final_reel.mp4" |}.
Proof.
  intros Hv measured N. unfold generate.
  destruct (select_voiceover w temp_dir cfg) as [evs r] eqn:Sel.
  unfold outcome in Hv. cbn [snd] in Hv. subst r.
  cbn [emit bindM get_audio_duration ret app events outcome fst snd].
  fold measured. fold N.
  destruct (negb (Qle_bool 3 measured)); [reflexivity|].
  destruct (N =? 0); [reflexivity|].
  destruct (negb (Qle_bool (1 # 2) _)); cbn [emit ret bindM];
    match goal with
    | |- context [VideoBuilder.build_video w ?c ?d] =>
        destruct (build_video_ok w c d
                    (generate_builder_config_consistent
                       (script cfg) temp_dir c d eq_refl eq_refl))
          as [cmd B]; rewrite B
    end;
    cbn [lift bindM emit snd];
    destruct (ffmpeg_succeeds w stage_build_video);
    reflexivity.
Qed.

(** With a probe that prints the duration of the surroundings the run is
    the one of [ReelGenerator.generate]. *)
Lemma generate_with_measured_duration
  (w : world) (temp_dir output_dir : string) (cfg : config) :
  Ffprobe.generate w (Ffprobe.prints_duration w) temp_dir output_dir cfg
  = generate w temp_dir output_dir cfg.
Proof. reflexivity. Qed.



(** X5.  What a successful [generate] reports: the measured duration of
    the voiceover, the final duration as that plus 3 seconds of intro and 3
    of outro, the output under [output_dir], and as [per_image_duration]
    the voiceover divided by the number of middle images.  That is not the
    time the builder gives an image: the builder shows every middle image
    for [1 + 1/N] seconds longer. *)
Theorem generate_report
  (w : world) (temp_dir output_dir : string) (cfg : config)
  (voiceover_path : string) (r : reel) :
  outcome (select_voiceover w temp_dir cfg) = Ok voiceover_path ->
  outcome (generate w temp_dir output_dir cfg) = Ok r ->
  let N := length (middle_images cfg) in
  voice_duration r = audio_duration w voiceover_path
  /\ (final_video_duration r == voice_duration r + 6)%Q
  /\ output_file r = path_join output_dir "final_reel.mp4"
  /\ 1 <= N
  /\ (per_image_duration r * inject_Z (Z.of_nat N) == voice_duration r)%Q
  /\ (VideoBuilder.per_image_duration (voice_duration r) N
      == per_image_duration r + 1 + 1 / inject_Z (Z.of_nat N))%Q.
Proof.
  intros Hp Hr N.
  rewrite (generate_outcome w temp_dir output_dir cfg voiceover_path Hp)
    in Hr.
  destruct (negb (Qle_bool 3 _)); [discriminate|].
  fold N in Hr.
  destruct (Nat.eqb_spec N 0) as [Z|Z]; [discriminate|].
  destruct (negb (ffmpeg_succeeds w stage_build_video)); [discriminate|].
  apply Ok_inj in Hr. subst r.
  cbn [voice_duration final_video_duration output_file per_image_duration].
  assert (Nz : ~ (inject_Z (Z.of_nat N) == 0)%Q).
  { unfold Qeq, inject_Z. simpl. lia. }
  repeat split.
  - ring.
  - lia.
  - field. exact Nz.
  - unfold VideoBuilder.per_image_duration.
    destruct (Nat.ltb_spec 0 N) as [_|]; [|lia].
    unfold VideoBuilder.TRANSITION_DURATION. field. exact Nz.
Qed.

End GenerateOutcome.

Section StreamInputs.

Import Py Reading VideoBuilder Wiring BuilderInputs.

Lemma nth_error_skip {A : Type} (l1 l2 : list A) (m k : nat) :
  length l1 = m -> nth_error (l1 ++ l2) (m + k) = nth_error l2 k.
Proof.
  intros <-. rewrite nth_error_app2 by lia. f_equal. lia.
Qed.

Lemma input_path_image (cfg : config) (img : string) :
  input_path (image_input cfg img) = img.
Proof.
  unfold image_input. destruct (_ || _); [reflexivity|].
  destruct (_ || _); reflexivity.
Qed.

(** The stream and the label of a scaled input. *)
Lemma scaled_part_stream (cfg : config) (per_image : Q) (p : filter_part) :
  In p (map (fun '(i, img) =>
               input_part (intro_image cfg) (outro_image cfg) per_image i img)
          (enumerate (inputs cfg))) ->
  exists i img,
    nth_error (inputs cfg) i = Some img
    /\ stream_of p = Some i /\ defines p = v i.
Proof.
  intros H. apply in_map_iff in H as [[i img] [<- H]].
  apply enumerate_in in H. exists i, img. split; [exact H|].
  unfold input_part.
  destruct (String.eqb img (intro_image cfg)); [split; reflexivity|].
  destruct (String.eqb img (outro_image cfg)); [split; reflexivity|].
  destruct (Z.eqb _ 0); split; reflexivity.
Qed.

Lemma caption_part_stream (cfg : config) (voice_duration : Q) (idx : nat)
  (p : filter_part) (n : nat) :
  In p (caption_parts cfg voice_duration idx) -> stream_of p = Some n ->
  exists i,
    i < length (get (caption_images cfg) [])
    /\ n = idx + i /\ defines p = v_cap i.
Proof.
  unfold caption_parts. destruct (captions_shown cfg voice_duration).
  - intros H St. apply in_app_iff in H as [H|[<-|[]]]; [|discriminate].
    apply in_map_iff in H as [i [<- H]]. apply in_seq in H.
    simpl in St. injection St as <-. exists i. repeat split. lia.
  - intros [<-|[]] St. discriminate.
Qed.

Lemma segment_title_stream (segs : list segment) (p : filter_part) (n : nat) :
  forall k next start curr,
    In p (segment_title_parts k next start curr segs) ->
    stream_of p = Some n ->
    exists j, j < length segs /\ n = next + j /\ defines p = v_title (k + j).
Proof.
  induction segs as [|seg segs IH]; intros k next start curr H St;
    [destruct H|].
  destruct H as [<-|H].
  - simpl in St. injection St as <-. exists 0. simpl.
    rewrite !Nat.add_0_r. repeat split. lia.
  - destruct (IH _ _ _ _ H St) as [j [A [B C]]]. exists (S j). simpl.
    repeat split; [lia|lia|]. rewrite C. f_equal. lia.
Qed.

Lemma segment_inputs_nth (temp_dir : string) (segs : list segment) (j : nat) :
  j < length segs ->
  nth_error
    (map (fun '(seg_i, _) => plain_input (seg_title_path temp_dir seg_i))
       (enumerate segs)) j
  = Some (plain_input (seg_title_path temp_dir j)).
Proof.
  intros H. destruct (nth_error segs j) as [seg|] eqn:E.
  2:{ apply nth_error_None in E. lia. }
  rewrite nth_error_map, (nth_error_enumerate segs j seg E). reflexivity.
Qed.

(** Where the inputs of the command stand in [input_args]. *)
Lemma input_args_layout (w : world) (cfg : config) (temp_dir : string) :
  let N := length (middle_images cfg) in
  let nc := length (get (caption_images cfg) []) in
  let args := input_args w cfg temp_dir in
  (forall i img,
      nth_error (inputs cfg) i = Some img ->
      nth_error args i = Some (image_input cfg img))
  /\ nth_error args (N + 2) = Some (plain_input (voiceover_audio cfg))
  /\ (forall i,
         i < nc ->
         exists cap,
           nth_error (get (caption_images cfg) []) i = Some cap
           /\ nth_error args (N + 2 + 1 + i) = Some (plain_input cap))
  /\ (forall j,
         nth_error args (N + 2 + 1 + nc + j)
         = nth_error
             ((if truthy (get (segments cfg) []) then
                 map (fun '(seg_i, _) =>
                        plain_input (seg_title_path temp_dir seg_i))
                   (enumerate (get (segments cfg) []))
               else if has_title cfg then [plain_input (title_png temp_dir)]
               else [])
              ++ (if framed w cfg then [plain_input overlay_path] else []))
             j).
Proof.
  intros N nc args. subst args. unfold input_args.
  assert (LA : length (map (image_input cfg) (inputs cfg)) = N + 2).
  { rewrite length_map. apply inputs_length. }
  repeat split.
  - intros i img H. rewrite nth_error_app1.
    + rewrite nth_error_map, H. reflexivity.
    + rewrite length_map. apply nth_error_Some. congruence.
  - replace (N + 2) with (N + 2 + 0) at 1 by lia.
    rewrite (nth_error_skip _ _ (N + 2) 0 LA). reflexivity.
  - intros i Hi.
    destruct (nth_error (get (caption_images cfg) []) i) as [cap|] eqn:E.
    2:{ apply nth_error_None in E. fold nc in E. lia. }
    exists cap. split; [reflexivity|].
    replace (N + 2 + 1 + i) with (N + 2 + (1 + i)) by lia.
    rewrite (nth_error_skip _ _ (N + 2) (1 + i) LA).
    rewrite (nth_error_skip [_] _ 1 i eq_refl).
    rewrite nth_error_app1 by (rewrite length_map; exact Hi).
    rewrite nth_error_map, E. reflexivity.
  - intros j.
    replace (N + 2 + 1 + nc + j) with (N + 2 + (1 + (nc + j))) by lia.
    rewrite (nth_error_skip _ _ (N + 2) _ LA).
    rewrite (nth_error_skip [_] _ 1 _ eq_refl).
    rewrite (nth_error_skip _ _ nc j) by apply length_map.
    reflexivity.
Qed.

(** X2.  Every stream index that the filter graph reads exists among the
    [-i] inputs of the command and is the file that the part is meant
    for: [[i:v]] of [v{i}] is [inputs[i]], the overlay that defines
    [v_cap{i}] reads [caption_images[i]], the overlay of segment [k] reads
    [title_seg_{k}.png], the single title reads [title_overlay.png], the
    news frame reads [assets/main_overlay.png] and the audio chain reads
    the voiceover. *)
Theorem streams_read_their_inputs (w : world) (cfg : config)
  (voice_duration : Q) (temp_dir : string) (parts : list filter_part)
  (p : filter_part) (n : nat) :
  filter_graph w cfg voice_duration = Ok parts ->
  In p parts -> stream_of p = Some n ->
  exists a,
    nth_error (input_args w cfg temp_dir) n = Some a
    /\ match defines p with
       | v i => n = i /\ nth_error (inputs cfg) i = Some (input_path a)
       | v_cap i =>
           nth_error (get (caption_images cfg) []) i = Some (input_path a)
       | v_title k =>
           k < length (get (segments cfg) [])
           /\ input_path a = seg_title_path temp_dir k
       | v_titled => input_path a = title_png temp_dir
       | ov_scaled => input_path a = overlay_path
       | a_delayed => input_path a = voiceover_audio cfg
       | _ => False
       end.
Proof.
  intros E Hp Hs. apply filter_graph_parts in E. subst parts.
  destruct (input_args_layout w cfg temp_dir) as [F1 [F2 [F3 F4]]].
  unfold graph_parts in Hp.
  set (N := length (middle_images cfg)) in *.
  set (nc := length (get (caption_images cfg) [])) in *.
  apply in_app_iff in Hp as [Hp|Hp].
  { destruct (scaled_part_stream cfg _ p Hp) as [i [img [A [B C]]]].
    rewrite B in Hs. injection Hs as ->. rewrite C.
    exists (image_input cfg img). rewrite input_path_image. auto. }
  apply in_app_iff in Hp as [Hp|Hp].
  { apply in_map_iff in Hp as [k [<- _]]. discriminate. }
  apply in_app_iff in Hp as [[<-|[]]|Hp]; [discriminate|].
  apply in_app_iff in Hp as [Hp|Hp].
  { destruct (caption_part_stream cfg voice_duration _ p n Hp Hs)
      as [i [A [B C]]].
    destruct (F3 i A) as [cap [G H]]. subst n. rewrite C.
    exists (plain_input cap). split; [exact H|exact G]. }
  apply in_app_iff in Hp as [Hp|Hp].
  { unfold title_parts_of in Hp.
    destruct (truthy (get (segments cfg) [])) eqn:T.
    - destruct (segment_title_stream _ p n _ _ _ _ Hp Hs) as [j [A [B C]]].
      subst n. rewrite C. cbn [Nat.add].
      exists (plain_input (seg_title_path temp_dir j)). split; [|auto].
      rewrite F4, ?T, nth_error_app1.
      + apply segment_inputs_nth. exact A.
      + rewrite length_map. unfold enumerate.
        rewrite length_combine, length_seq. lia.
    - destruct (has_title cfg) eqn:H; [|destruct Hp].
      destruct Hp as [<-|[]]. simpl in Hs. injection Hs as <-.
      exists (plain_input (title_png temp_dir)). split; [|reflexivity].
      replace (N + 2 + 1 + nc) with (N + 2 + 1 + nc + 0) by lia.
      rewrite F4, ?T, ?H. reflexivity. }
  apply in_app_iff in Hp as [Hp|Hp].
  { unfold frame_parts in Hp. destruct (framed w cfg) eqn:Fr; [|destruct Hp].
    destruct Hp as [<-|[<-|[]]]; [|discriminate].
    simpl in Hs. injection Hs as <-.
    exists (plain_input overlay_path). split; [|reflexivity].
    rewrite F4, ?Fr. unfold title_count.
    destruct (truthy (get (segments cfg) [])).
    - rewrite nth_error_app2; rewrite length_map; unfold enumerate;
        rewrite length_combine, length_seq, Nat.min_id; [|lia].
      rewrite Nat.sub_diag. reflexivity.
    - destruct (has_title cfg); reflexivity. }
  apply in_app_iff in Hp as [[<-|[]]|[<-|[]]]; [discriminate|].
  simpl in Hs. injection Hs as <-.
  exists (plain_input (voiceover_audio cfg)). split; [exact F2|reflexivity].
Qed.

End StreamInputs.

Section SegmentTitles.

Import Py Reading VideoBuilder Wiring.

Lemma segments_end_sum (segs : list segment) :
  forall start,
    (segments_end start segs
     == start + Qsum (map seg_voice_duration segs))%Q.
Proof.
  induction segs as [|seg segs IH]; intros start.
  - unfold segments_end. simpl. ring.
  - unfold segments_end in *. cbn [fold_left map Qsum fold_right].
    rewrite IH. unfold Qsum. ring.
Qed.

(** The title overlay of the [j]-th segment from number [k] on. *)
Lemma segment_title_parts_nth (segs : list segment) :
  forall k next start curr j seg,
    nth_error segs j = Some seg ->
    exists prev,
      nth_error (segment_title_parts k next start curr segs) j
      = Some (overlay_between prev (next + j)
                (F2 (segments_end start (firstn j segs)))
                (F2 (segments_end start (firstn j segs)
                     + seg_voice_duration seg)%Q)
                (v_title (k + j))).
Proof.
  induction segs as [|s segs IH]; intros k next start curr j seg H.
  - destruct j; discriminate.
  - destruct j as [|j].
    + simpl in H. injection H as ->. exists curr. simpl.
      rewrite !Nat.add_0_r. reflexivity.
    + simpl in H.
      destruct (IH (S k) (next + 1) (start + seg_voice_duration s)%Q
                  (v_title k) j seg H) as [prev E].
      exists prev. cbn [segment_title_parts nth_error firstn].
      rewrite E. unfold segments_end. cbn [fold_left].
      replace (next + 1 + j) with (next + S j) by lia.
      replace (S k + j) with (k + S j) by lia. reflexivity.
Qed.

Lemma segment_title_overlay (w : world) (cfg : config)
  (voice_duration : Q) (parts : list filter_part) (k : nat) (seg : segment) :
  filter_graph w cfg voice_duration = Ok parts ->
  nth_error (get (segments cfg) []) k = Some seg ->
  exists prev t0 t1,
    In (overlay_between prev
          (length (inputs cfg) + 1 + length (get (caption_images cfg) []) + k)
          (F2 t0) (F2 t1) (v_title k)) parts
    /\ (t0 == INTRO_DURATION
              + Qsum (map seg_voice_duration
                        (firstn k (get (segments cfg) []))))%Q
    /\ (t1 == t0 + seg_voice_duration seg)%Q.
Proof.
  intros E H. apply filter_graph_parts in E. subst parts.
  assert (T : truthy (get (segments cfg) []) = true).
  { destruct (get (segments cfg) []); [destruct k; discriminate|reflexivity]. }
  destruct (segment_title_parts_nth (get (segments cfg) []) 0
              (length (middle_images cfg) + 2 + 1
               + length (get (caption_images cfg) []))
              INTRO_DURATION v_captioned k seg H) as [prev P].
  rewrite inputs_length.
  exists prev, (segments_end INTRO_DURATION (firstn k (get (segments cfg) []))),
    (segments_end INTRO_DURATION (firstn k (get (segments cfg) []))
     + seg_voice_duration seg)%Q.
  split; [|split].
  - unfold graph_parts. apply in_or_app. right. apply in_or_app. right.
    apply in_or_app. right. apply in_or_app. right. apply in_or_app. left.
    unfold title_parts_of. rewrite T.
    eapply nth_error_In. exact P.
  - apply segments_end_sum.
  - reflexivity.
Qed.

(** X6.  In a combined reel the title of every segment is overlaid exactly
    while the voiceover of that segment plays: the overlay of segment [k]
    reads title input [k], starts 3 seconds plus the voice durations of
    the segments before it into the video, and lasts for the voice
    duration of its own segment. *)
Theorem segment_title_shown_during_its_voice (w : world) (cfg : config)
  (voice_duration : Q) (parts : list filter_part) (k : nat) (seg : segment) :
  filter_graph w cfg voice_duration = Ok parts ->
  nth_error (get (segments cfg) []) k = Some seg ->
  exists prev t0 t1,
    In (overlay_between prev
          (length (inputs cfg) + 1 + length (get (caption_images cfg) []) + k)
          (F2 t0) (F2 t1) (v_title k)) parts
    /\ (t0 == INTRO_DURATION
              + Qsum (map seg_voice_duration
                        (firstn k (get (segments cfg) []))))%Q
    /\ (t1 == t0 + seg_voice_duration seg)%Q.
Proof. exact (segment_title_overlay w cfg voice_duration parts k seg). Qed.

End SegmentTitles.

Section Callers.

Import Py Reading CaptionGenerator VideoBuilder Wiring LanggraphPipeline.

(** Static rendering draws one frame per chunk. *)
Lemma static_frames_length (cs : list str) :
  forall c0,
    length
      (flat_map
         (fun '(chunk_idx, chunk) =>
            map (fun word_step => (chunk_idx, word_step))
              (word_steps false (length (split chunk))))
         (combine (seq c0 (length cs)) cs))
    = length cs.
Proof.
  induction cs as [|x cs IH]; intros c0; [reflexivity|].
  cbn [length seq combine flat_map word_steps map app]. rewrite IH.
  reflexivity.
Qed.

Lemma caption_image_paths_length (caption_data : list (nat * Z)) :
  length (caption_image_paths caption_data) = length caption_data.
Proof.
  unfold caption_image_paths, range. rewrite length_map. apply length_seq.
Qed.

Lemma reel_config_consistent (images : list string) (script_text : str)
  (current_result : reel_result) (voice : Q) :
  captions_consistent (reel_config images script_text current_result) voice.
Proof.
  apply (generate_builder_config_consistent script_text temp_dir);
    reflexivity.
Qed.

Lemma combined_config_consistent (article_data : list article) (voice : Q) :
  captions_consistent (combined_config article_data) voice.
Proof.
  unfold captions_consistent. cbn [combined_config caption_images script get].
  rewrite caption_image_paths_length.
  unfold render_captions_to_images. rewrite static_frames_length.
  destruct (split_into_chunks (combined_script article_data)).
  - left. reflexivity.
  - right. right. discriminate.
Qed.

Lemma total_voice_duration_sum (article_data : list article) :
  forall acc,
    (fold_left (fun a ad => a + article_voice_duration ad) article_data acc
     == acc + Qsum (map article_voice_duration article_data))%Q.
Proof.
  induction article_data as [|ad ads IH]; intros acc.
  - simpl. ring.
  - cbn [fold_left map Qsum fold_right]. rewrite IH. unfold Qsum. ring.
Qed.

Lemma Qsum_firstn_last (l : list Q) (k : nat) (x : Q) :
  nth_error l k = Some x -> S k = length l ->
  (Qsum (firstn k l) + x == Qsum l)%Q.
Proof.
  revert k. induction l as [|y l IH]; intros k H L.
  - destruct k; discriminate.
  - destruct k as [|k].
    + simpl in H. injection H as ->. destruct l; [|discriminate].
      simpl. ring.
    + simpl in H, L. cbn [firstn Qsum fold_right].
      rewrite <- (IH k H) by lia. unfold Qsum. ring.
Qed.

(** X7.  [assemble_reel] marks the reel as a success whatever ffmpeg
    does: on the configuration it builds the builder never raises, and the
    boolean that [build_video] returns for a failed ffmpeg run is not
    looked at.  An entry that is not already failed therefore always comes
    back with status success and the path of the reel. *)
Theorem assemble_reel_reports_success (w : world) (images : list string)
  (script_text : str) (current_result : reel_result) :
  status current_result <> "failed"%string ->
  exists r,
    assemble_reel w images script_text current_result = Some r
    /\ status r = "success"%string
    /\ reel_path r
       = Some ("outputs/final_reels/reel_" ++ folder current_result
               ++ ".mp4")%string
    /\ error r = error current_result.
Proof.
  intros H. unfold assemble_reel.
  destruct (String.eqb_spec (status current_result) "failed") as [E|_];
    [contradiction|].
  destruct (build_video_ok w (reel_config images script_text current_result)
              (get (voice_duration current_result) 0%Q)
              (reel_config_consistent _ _ _ _)) as [cmd B].
  rewrite B. eexists. repeat split.
Qed.

(** X8.  The combined reel is always built, and in it the title of every
    article is overlaid exactly while the voiceover of that article plays
    in the concatenated audio: it starts 3 seconds plus the durations of
    the articles before it into the video and lasts for the duration of
    its own article, so that the title of the last article ends where the
    outro starts. *)
Theorem combined_reel_titles_follow_the_voice (w : world)
  (article_data : list article) :
  exists cmd,
    build_combined_reel w article_data
    = Ok (cmd, ffmpeg_succeeds w stage_build_video)
    /\ forall k ad,
         nth_error article_data k = Some ad ->
         exists prev n t0 t1,
           In (overlay_between prev n (F2 t0) (F2 t1) (v_title k))
              (filter_complex cmd)
           /\ (t0 == INTRO_DURATION
                     + Qsum (map article_voice_duration
                               (firstn k article_data)))%Q
           /\ (t1 == t0 + article_voice_duration ad)%Q
           /\ (S k = length article_data ->
               (t1 == outro_offset (total_voice_duration article_data))%Q).
Proof.
  unfold build_combined_reel, build_video.
  set (cfg := combined_config article_data).
  set (D := total_voice_duration article_data).
  rewrite (filter_graph_exact w cfg D
             (combined_config_consistent article_data D)).
  cbn [bind]. eexists. split; [reflexivity|].
  intros k ad H. cbn [assemble_command filter_complex].
  set (make := fun ad =>
                 {| seg_title := article_title ad;
                    seg_voice_duration := article_voice_duration ad |}).
  assert (Hs : nth_error (get (segments cfg) []) k = Some (make ad)).
  { cbn [cfg combined_config segments get].
    apply (map_nth_error make). exact H. }
  destruct (segment_title_overlay w cfg D (graph_parts w cfg D) k (make ad)
              (filter_graph_exact w cfg D
                 (combined_config_consistent article_data D)) Hs)
    as [prev [t0 [t1 [I [T0 T1]]]]].
  assert (M : map seg_voice_duration (firstn k (get (segments cfg) []))
              = map article_voice_duration (firstn k article_data)).
  { cbn [cfg combined_config segments get].
    rewrite firstn_map, map_map. reflexivity. }
  rewrite M in T0. cbn [make seg_voice_duration] in T1.
  eexists prev, _, t0, t1. repeat split; [exact I|exact T0|exact T1|].
  intros L. rewrite T1, T0. unfold outro_offset, D, total_voice_duration.
  rewrite total_voice_duration_sum.
  rewrite <- (Qsum_firstn_last (map article_voice_duration article_data) k
                (article_voice_duration ad)).
  - rewrite firstn_map. ring.
  - apply (map_nth_error article_voice_duration). exact H.
  - rewrite length_map. exact L.
Qed.

(** With as many caption frames as chunks, frame [i] is overlaid during
    the window of chunk [i]. *)
Lemma static_caption_overlay (cfg : config) (voice_duration : Q)
  (idx i : nat) (chunkStart chunkEnd : Q) :
  captions_shown cfg voice_duration = true ->
  length (get (caption_images cfg) []) = length (script_chunks cfg) ->
  nth_error (script_chunk_windows cfg voice_duration) i
  = Some (chunkStart, chunkEnd) ->
  nth_error (caption_parts cfg voice_duration idx) i
  = Some (overlay_between (if i =? 0 then v_base_middle else v_cap (i - 1))
            (idx + i) (F2 chunkStart) (F2 chunkEnd) (v_cap i)).
Proof.
  intros Sh Hn W.
  assert (Hw : length (script_chunk_windows cfg voice_duration)
               = length (script_chunks cfg)).
  { unfold script_chunk_windows. rewrite place_length.
    unfold chunk_word_counts. apply length_map. }
  assert (Hi : i < length (script_chunks cfg)).
  { rewrite <- Hw. apply nth_error_Some. congruence. }
  unfold caption_parts. rewrite Sh, Hn.
  rewrite nth_error_app1 by (rewrite length_map, length_seq; exact Hi).
  rewrite nth_error_map.
  rewrite (nth_error_nth' _ 0) by (rewrite length_seq; exact Hi).
  rewrite seq_nth by exact Hi. cbn [option_map Nat.add].
  unfold caption_part, chosen_window. rewrite Nat.ltb_irrefl.
  unfold static_window. rewrite Hw, Z.min_l by lia.
  rewrite (index_nth_error _ i _ W). reflexivity.
Qed.

(** X9.  The combined reel shows every sentence of the combined script
    during the window of that sentence: caption frame [i] reads caption
    input [i] and is enabled during the [i]-th chunk window, whose length
    is the share of the narration that the words of the sentence make up. *)
Theorem combined_reel_caption_windows (w : world)
  (article_data : list article) (i : nat) (chunk : str) :
  (0 < total_voice_duration article_data)%Q ->
  nth_error (split_into_chunks (combined_script article_data)) i
  = Some chunk ->
  let chunks := split_into_chunks (combined_script article_data) in
  let voice := total_voice_duration article_data in
  let total_words := list_sum (map (fun c => length (split c)) chunks) in
  exists cmd chunk_windows chunkStart chunkEnd prev,
    build_combined_reel w article_data
    = Ok (cmd, ffmpeg_succeeds w stage_build_video)
    /\ compute_chunk_windows INTRO_DURATION
         (outro_offset voice - INTRO_DURATION) chunks = Ok chunk_windows
    /\ nth_error chunk_windows i = Some (chunkStart, chunkEnd)
    /\ In (overlay_between prev
             (length (flat_map article_images article_data) + 2 + 1 + i)
             (F2 chunkStart) (F2 chunkEnd) (v_cap i))
          (filter_complex cmd)
    /\ (chunkEnd - chunkStart
        == inject_Z (Z.of_nat (length (split chunk)))
           / inject_Z (Z.of_nat total_words) * voice)%Q.
Proof.
  intros HD Hc chunks voice total_words.
  assert (N : chunks <> []).
  { intros E. unfold chunks in E. rewrite E in Hc. destruct i; discriminate. }
  assert (R : (INTRO_DURATION < outro_offset voice)%Q).
  { unfold outro_offset, voice. lra. }
  destruct (script_windows_tile (combined_script article_data)
              INTRO_DURATION (outro_offset voice) N R)
    as [ws [E [L [_ [Wd _]]]]].
  fold chunks in E, L, Wd.
  assert (Li : i < length ws).
  { rewrite L. apply nth_error_Some. unfold chunks. congruence. }
  destruct (nth_error ws i) as [[cs ce]|] eqn:Hw.
  2:{ apply nth_error_None in Hw. lia. }
  set (cfg := combined_config article_data).
  assert (Hk : script_chunks cfg = chunks) by reflexivity.
  assert (Ws : script_chunk_windows cfg voice = ws).
  { generalize (compute_chunk_windows_place INTRO_DURATION
                  (outro_offset voice - INTRO_DURATION) chunks N).
    rewrite E. intros X. apply Ok_inj in X. rewrite X. reflexivity. }
  assert (Hn : length (get (caption_images cfg) []) = length chunks).
  { cbn [cfg combined_config caption_images get].
    rewrite caption_image_paths_length.
    unfold render_captions_to_images. apply static_frames_length. }
  assert (Sh : captions_shown cfg voice = true).
  { unfold captions_shown. rewrite Hn. apply andb_true_iff. split.
    - apply Nat.ltb_lt. lia.
    - apply negb_true_iff. destruct (Qle_bool _ _) eqn:G; [|reflexivity].
      apply Qle_bool_iff in G. lra. }
  unfold build_combined_reel, build_video. fold cfg. fold voice.
  rewrite (filter_graph_exact w cfg voice
             (combined_config_consistent article_data voice)).
  cbn [bind]. eexists. exists ws, cs, ce. eexists.
  split; [reflexivity|]. split; [exact E|]. split; [exact Hw|].
  split.
  - cbn [assemble_command filter_complex]. unfold graph_parts.
    apply in_or_app. right. apply in_or_app. right.
    apply in_or_app. right. apply in_or_app. left.
    eapply nth_error_In.
    apply (static_caption_overlay cfg voice _ i cs ce Sh).
    + rewrite Hn, Hk. reflexivity.
    + rewrite Ws. exact Hw.
  - generalize (Wd i chunk (cs, ce) Hc Hw). unfold width. cbn [fst snd].
    intros X. rewrite X. unfold outro_offset. fold total_words. field.
    unfold Qeq, inject_Z. simpl.
    assert (T : 1 <= total_words).
    { unfold total_words.
      assert (F : Forall (fun c => 1 <= length (split c)) chunks).
      { eapply Forall_impl;
          [|apply (split_into_chunks_stripped
                     (combined_script article_data))].
        intros c H. apply H. }
      generalize (words_before_at_least chunks F). unfold words_before.
      rewrite firstn_all. destruct chunks; [congruence|]. simpl. lia. }
    lia.
Qed.

End Callers.

Section FurtherInstances.

Import Py Reading CaptionGenerator VideoBuilder Wiring BuilderInputs.
Import LanggraphPipeline Examples PipelineExamples.

Lemma rendered_frame_shown_in_word_window_witness :
  exists parts chunk_windows chunk chunkStart chunkEnd prev t0 t1,
    caption_stage config_from_generate 5 5 = Ok parts
    /\ compute_chunk_windows INTRO_DURATION
         (outro_offset 5 - INTRO_DURATION)
         (split_into_chunks (text "Hello world. Bye.")) = Ok chunk_windows
    /\ nth_error (split_into_chunks (text "Hello world. Bye.")) 0 = Some chunk
    /\ nth_error chunk_windows 0 = Some (chunkStart, chunkEnd)
    /\ nth_error parts 1
       = Some (overlay_between prev (5 + 1) (F2 t0) (F2 t1) (v_cap 1))
    /\ (t0 == fst (sub_window chunkStart chunkEnd (split chunk)
                     (Z.to_nat 1)))%Q
    /\ (t1 == snd (sub_window chunkStart chunkEnd (split chunk)
                     (Z.to_nat 1)))%Q.
Proof.
  apply (rendered_frame_shown_in_word_window (text "Hello world. Bye.")
           "temp" config_from_generate 5%Q 5 1 0 1%Z).
  - reflexivity.
  - vm_compute. reflexivity.
  - reflexivity.
  - vm_compute. reflexivity.
Defined.

Lemma generate_report_witness :
  exists r,
    outcome (ReelGenerator.generate world_without_files "temp" "output"
               example_request) = Ok r
    /\ (ReelGenerator.final_video_duration r
        == ReelGenerator.voice_duration r + 6)%Q.
Proof.
  eexists. split; [vm_compute; reflexivity|].
  refine (proj1 (proj2 (generate_report world_without_files "temp" "output"
                          example_request "temp/voiceover.mp3" _ _ _))).
  - vm_compute. reflexivity.
  - vm_compute. reflexivity.
Defined.

Lemma streams_read_their_inputs_witness :
  exists a,
    nth_error (input_args world_with_overlay config_with_captions "temp") 4
    = Some a
    /\ input_path a = voiceover_audio config_with_captions.
Proof.
  apply (streams_read_their_inputs world_with_overlay config_with_captions
           5%Q "temp"
           (graph_parts world_with_overlay config_with_captions 5)
           (atrim_adelay 4 (F2 5) 3000 3000) 4).
  - vm_compute. reflexivity.
  - vm_compute. tauto.
  - reflexivity.
Defined.

Lemma segment_title_shown_during_its_voice_witness :
  exists prev t0 t1,
    In (overlay_between prev (5 + 1 + 2 + 1) (F2 t0) (F2 t1) (v_title 1))
       (graph_parts world_without_files config_with_segments 10)
    /\ (t0 == INTRO_DURATION + Qsum [4])%Q
    /\ (t1 == t0 + 6)%Q.
Proof.
  apply (segment_title_shown_during_its_voice world_without_files
           config_with_segments 10%Q
           (graph_parts world_without_files config_with_segments 10) 1
           {| seg_title := "Second"; seg_voice_duration := 6 |}).
  - vm_compute. reflexivity.
  - reflexivity.
Defined.

Lemma assemble_reel_reports_success_witness :
  exists r,
    assemble_reel world_ffmpeg_fails ["a.jpg"; "b.jpg"]%string
      (text "Hello world. Bye.") result_after_voiceover = Some r
    /\ status r = "success"%string
    /\ reel_path r = Some "outputs/final_reels/reel_article_001.mp4"%string
    /\ error r = None.
Proof.
  apply (assemble_reel_reports_success world_ffmpeg_fails
           ["a.jpg"; "b.jpg"]%string (text "Hello world. Bye.")
           result_after_voiceover).
  apply String.eqb_neq. reflexivity.
Defined.

Lemma combined_reel_caption_windows_witness :
  exists cmd chunk_windows chunkStart chunkEnd prev,
    build_combined_reel world_without_files two_articles
    = Ok (cmd, true)
    /\ compute_chunk_windows INTRO_DURATION
         (outro_offset (total_voice_duration two_articles) - INTRO_DURATION)
         (split_into_chunks (combined_script two_articles)) = Ok chunk_windows
    /\ nth_error chunk_windows 1 = Some (chunkStart, chunkEnd)
    /\ In (overlay_between prev (3 + 2 + 1 + 1) (F2 chunkStart) (F2 chunkEnd)
             (v_cap 1))
          (filter_complex cmd)
    /\ (chunkEnd - chunkStart
        == inject_Z 2 / inject_Z 10 * total_voice_duration two_articles)%Q.
Proof.
  apply (combined_reel_caption_windows world_without_files two_articles 1
           (text "Roads closed.")).
  - reflexivity.
  - vm_compute. reflexivity.
Defined.

(** ffprobe prints a complaint instead of a duration: the run ends with
    the [ValueError] of [float], after the probe and before any timing. *)
Example probe_failure_ends_the_run :
  outcome (Ffprobe.generate world_without_files Ffprobe.prints_no_number
             "temp" "output" example_request)
  = Raise (ValueError "could not convert string to float")
  /\ last (events (Ffprobe.generate world_without_files
                     Ffprobe.prints_no_number "temp" "output"
                     example_request))
       (log_info msg_starting_pipeline)
     = ran_ffprobe "temp/voiceover.mp3".
Proof. split; vm_compute; reflexivity. Qed.

End FurtherInstances.

Section SlideshowRuns.

Import Py FacelessVideoService SlideshowPlan.

Lemma until_failure_none (w : world) (evs : list event) :
  existsb (failed w) evs = false -> until_failure w evs = evs.
Proof.
  induction evs as [|e evs IH]; intros H; [reflexivity|].
  simpl in H |- *. apply orb_false_iff in H as [H1 H2].
  rewrite H1, IH by exact H2. reflexivity.
Qed.

Lemma until_failure_app (w : world) (a b : list event) :
  until_failure w (a ++ b)
  = if existsb (failed w) a then until_failure w a
    else a ++ until_failure w b.
Proof.
  induction a as [|e a IH]; [reflexivity|].
  simpl. destruct (failed w e); [reflexivity|]. simpl. rewrite IH.
  destruct (existsb (failed w) a); reflexivity.
Qed.

(** A loop of ffmpeg runs goes through its jobs until one fails. *)
Lemma run_loop (w : world) {A S : Type} (stage_of : S -> A -> stage)
  (job_of : S -> A -> ffmpeg_job) (next : S -> A -> S)
  (body : S -> A -> M S) (xs : list A) :
  (forall acc x,
      body acc x
      = (_run_ffmpeg w (job_of acc x) (stage_of acc x) ;;;
         ret (next acc x))) ->
  forall acc,
    for_eachM xs body acc
    = (until_failure w (loop_events stage_of job_of next xs acc),
       if existsb (failed w) (loop_events stage_of job_of next xs acc)
       then Raise (RuntimeError "FFmpeg failed"%string)
       else Ok (fold_left next xs acc)).
Proof.
  intros B. induction xs as [|x xs IH]; intros acc; [reflexivity|].
  cbn [for_eachM loop_events until_failure existsb failed fold_left].
  rewrite B. unfold _run_ffmpeg.
  destruct (ffmpeg_succeeds w (stage_of acc x)) eqn:F;
    cbn [emit ret raise bindM app negb orb]; [|reflexivity].
  rewrite IH. reflexivity.
Qed.

Lemma segment_loop_events (tmp_dir : string) (per_image : Q)
  (xs : list (nat * string)) :
  forall acc,
    loop_events (fun (_ : list string) e => stage_segment (fst e))
      (fun _ e =>
         job_segment (snd e) (if fst e mod 2 =? 0 then zoom_in else zoom_out)
           (int (per_image * inject_Z FPS)%Q) per_image
           (seg_path tmp_dir (fst e)))
      (fun acc e => acc ++ [seg_path tmp_dir (fst e)]) xs acc
    = map (segment_event tmp_dir per_image) xs.
Proof.
  induction xs as [|[i img] xs IH]; intros acc; [reflexivity|].
  cbn [loop_events map]. rewrite IH. reflexivity.
Qed.

Lemma segment_loop_paths (tmp_dir : string) (valid : list string) :
  forall a acc,
    fold_left (fun acc (e : nat * string) => acc ++ [seg_path tmp_dir (fst e)])
      (combine (seq a (length valid)) valid) acc
    = acc ++ map (seg_path tmp_dir) (seq a (length valid)).
Proof.
  induction valid as [|x valid IH]; intros a acc.
  - simpl. rewrite app_nil_r. reflexivity.
  - cbn [length seq combine fold_left map fst]. rewrite IH, <- app_assoc.
    reflexivity.
Qed.

Lemma xfade_loop_events (transition_dur : Q) (tmp_dir : string)
  (per_image : Q) (segment_paths : list string) (m : nat) :
  forall a current,
    loop_events (fun (_ : string) i => stage_xfade i)
      (fun current i =>
         job_xfade current (nth i segment_paths EmptyString)
           (transition_style (i - 1)) transition_dur
           (per_image - transition_dur)%Q (merged_path tmp_dir i))
      (fun _ i => merged_path tmp_dir i) (seq a m) current
    = map (fun i =>
             ran_ffmpeg (stage_xfade i)
               (job_xfade
                  (if i =? a then current else merged_path tmp_dir (i - 1))
                  (nth i segment_paths EmptyString)
                  (transition_style (i - 1)) transition_dur
                  (per_image - transition_dur)%Q (merged_path tmp_dir i)))
        (seq a m).
Proof.
  induction m as [|m IH]; intros a current; [reflexivity|].
  cbn [seq loop_events map]. rewrite Nat.eqb_refl, IH. f_equal.
  apply map_ext_in. intros i Hi. apply in_seq in Hi.
  destruct (Nat.eqb_spec i (S a)) as [->|N].
  - replace (S a =? a) with false by (symmetry; apply Nat.eqb_neq; lia).
    replace (S a - 1) with a by lia. reflexivity.
  - replace (i =? a) with false by (symmetry; apply Nat.eqb_neq; lia).
    reflexivity.
Qed.

Lemma xfade_loop_last (tmp_dir : string) (m : nat) :
  forall a current,
    fold_left (fun (_ : string) i => merged_path tmp_dir i) (seq a m) current
    = if m =? 0 then current else merged_path tmp_dir (a + m - 1).
Proof.
  induction m as [|m IH]; intros a current; [reflexivity|].
  cbn [seq fold_left]. rewrite IH. destruct m; simpl.
  - f_equal. lia.
  - f_equal. lia.
Qed.

Lemma seg_paths_nth (tmp_dir : string) (n i : nat) :
  i < n ->
  nth i (map (seg_path tmp_dir) (seq 0 n)) EmptyString = seg_path tmp_dir i.
Proof.
  intros H.
  rewrite (nth_indep _ EmptyString (seg_path tmp_dir 0))
    by (rewrite length_map, length_seq; exact H).
  rewrite (map_nth (seg_path tmp_dir) (seq 0 n) 0 i).
  rewrite seq_nth by exact H. reflexivity.
Qed.

Lemma slideshow_run (w : world) (transition_dur : Q)
  (images : list string) (total_duration : Q) (tmp_dir : string) :
  filter (path_isfile w) images <> [] ->
  let run := _build_slideshow w transition_dur images total_duration tmp_dir in
  let steps :=
    plan transition_dur (filter (path_isfile w) images) total_duration
      tmp_dir in
  events run = until_failure w steps
  /\ outcome run
     = if existsb (failed w) steps
       then Raise (RuntimeError "FFmpeg failed"%string)
       else Ok (path_join tmp_dir "slideshow.mp4").
Proof.
  intros V run steps. subst run steps. unfold _build_slideshow, plan.
  set (valid := filter (path_isfile w) images) in *.
  set (n := length valid).
  set (per_image := (total_duration / inject_Z (Z.of_nat n))%Q).
  set (output := path_join tmp_dir "slideshow.mp4").
  assert (Hn : 1 <= n).
  { unfold n. destruct valid; [congruence|simpl; lia]. }
  replace (truthy valid) with true by (destruct valid; [congruence|reflexivity]).
  cbn [negb].
  rewrite (run_loop w (fun (_ : list string) e => stage_segment (fst e))
             (fun _ e =>
                job_segment (snd e)
                  (if fst e mod 2 =? 0 then zoom_in else zoom_out)
                  (int (per_image * inject_Z FPS)%Q) per_image
                  (seg_path tmp_dir (fst e)))
             (fun acc e => acc ++ [seg_path tmp_dir (fst e)])).
  2:{ intros acc [i img]. reflexivity. }
  rewrite segment_loop_events.
  replace (fold_left
             (fun acc (e : nat * string) => acc ++ [seg_path tmp_dir (fst e)])
             (VideoBuilder.enumerate valid) [])
    with (map (seg_path tmp_dir) (seq 0 n))
    by (symmetry; apply (segment_loop_paths tmp_dir valid 0 [])).
  set (SE := map (segment_event tmp_dir per_image)
               (VideoBuilder.enumerate valid)).
  set (XE := map (xfade_event transition_dur tmp_dir per_image)
               (seq 1 (n - 1))).
  set (paths := map (seg_path tmp_dir) (seq 0 n)).
  assert (Lp : length paths = n).
  { unfold paths. rewrite length_map. apply length_seq. }
  assert (P0 : nth 0 paths EmptyString = seg_path tmp_dir 0).
  { apply seg_paths_nth. lia. }
  rewrite until_failure_app, existsb_app.
  destruct (existsb (failed w) SE) eqn:FS; cbn [bindM orb].
  { split; reflexivity. }
  rewrite (until_failure_none w SE FS). rewrite Lp.
  destruct (Nat.eqb_spec n 1) as [N1|N1].
  - (* one clip *)
    unfold XE. rewrite N1. cbn [seq map app].
    cbn [emit ret bindM existsb failed until_failure orb app].
    rewrite P0. split; reflexivity.
  - (* the clips are merged one by one *)
    rewrite (run_loop w (fun (_ : string) i => stage_xfade i)
               (fun current i =>
                  job_xfade current (nth i paths EmptyString)
                    (transition_style (i - 1)) transition_dur
                    (per_image - transition_dur)%Q (merged_path tmp_dir i))
               (fun _ i => merged_path tmp_dir i)).
    2:{ intros acc i. reflexivity. }
    rewrite xfade_loop_events, xfade_loop_last, P0.
    assert (X : map (fun i =>
                       ran_ffmpeg (stage_xfade i)
                         (job_xfade
                            (if i =? 1 then seg_path tmp_dir 0
                             else merged_path tmp_dir (i - 1))
                            (nth i paths EmptyString)
                            (transition_style (i - 1)) transition_dur
                            (per_image - transition_dur)%Q
                            (merged_path tmp_dir i)))
                  (seq 1 (n - 1)) = XE).
    { unfold XE. apply map_ext_in. intros i Hi. apply in_seq in Hi.
      unfold xfade_event, paths. rewrite seg_paths_nth by lia.
      reflexivity. }
    rewrite X.
    replace (n - 1 =? 0) with false by (symmetry; apply Nat.eqb_neq; lia).
    replace (1 + (n - 1) - 1) with (n - 1) by lia.
    rewrite until_failure_app, existsb_app.
    destruct (existsb (failed w) XE) eqn:FX;
      cbn [emit ret bindM existsb failed until_failure orb app].
    + split; reflexivity.
    + rewrite (until_failure_none w XE FX).
      rewrite <- ?app_assoc. split; reflexivity.
Qed.

(** X10.  [_build_slideshow] follows one plan and stops at the first
    ffmpeg run that fails.  With at least one image that is a file, the
    plan is: render image [i] into [seg_{i}.mp4] (zooming in for an even
    [i], out for an odd one), then merge clip [i] into what is merged so
    far with transition [(i - 1) mod 6], always at the same offset
    [per_image - transition_dur], into [merged_{i}.mp4], then rename the
    last clip to [slideshow.mp4].  The runs that happen are the plan up to
    and including the first failing ffmpeg run; the result is the path of
    the slideshow if no run fails and a RuntimeError otherwise. *)
Theorem slideshow_stops_at_first_failure (w : world) (transition_dur : Q)
  (images : list string) (total_duration : Q) (tmp_dir : string) :
  filter (path_isfile w) images <> [] ->
  let run := _build_slideshow w transition_dur images total_duration tmp_dir in
  let steps :=
    plan transition_dur (filter (path_isfile w) images) total_duration
      tmp_dir in
  events run = until_failure w steps
  /\ outcome run
     = if existsb (failed w) steps
       then Raise (RuntimeError "FFmpeg failed"%string)
       else Ok (path_join tmp_dir "slideshow.mp4").
Proof.
  exact (slideshow_run w transition_dur images total_duration tmp_dir).
Qed.

End SlideshowRuns.

Section FileNames.

Import Py.

Lemma string_of_nat_inj (n m : nat) :
  string_of_nat n = string_of_nat m -> n = m.
Proof.
  intros H.
  assert (K : forall d,
             exists d',
               NilZero.uint_of_string (NilZero.string_of_uint d) = Some d'
               /\ Nat.of_uint d' = Nat.of_uint d).
  { intros d. destruct d;
      try (eexists; split; [apply NilZero.usu; discriminate|reflexivity]).
    exists (Decimal.D0 Decimal.Nil). split; [apply NilZero.usu_nil|].
    reflexivity. }
  destruct (K (Nat.to_uint n)) as [dn [En Hn]].
  destruct (K (Nat.to_uint m)) as [dm [Em Hm]].
  unfold string_of_nat in H. rewrite H in En. rewrite En in Em.
  injection Em as ->.
  rewrite <- (DecimalNat.Unsigned.of_to n), <- (DecimalNat.Unsigned.of_to m).
  congruence.
Qed.

Lemma append_cancel_l (a b c : string) :
  (a ++ b = a ++ c)%string -> b = c.
Proof.
  induction a as [|x a IH]; simpl; intros H; [exact H|].
  injection H as H. apply IH. exact H.
Qed.

Lemma length_append (a b : string) :
  String.length (a ++ b) = String.length a + String.length b.
Proof. induction a as [|x a IH]; simpl; [reflexivity|]. rewrite IH. reflexivity. Qed.

Lemma append_cancel_r (t : string) :
  forall a b : string, (a ++ t = b ++ t)%string -> a = b.
Proof.
  induction a as [|x a IH]; intros b H.
  - destruct b as [|y b]; [reflexivity|].
    apply (f_equal String.length) in H. simpl in H.
    rewrite length_append in H. lia.
  - destruct b as [|y b].
    + apply (f_equal String.length) in H. simpl in H.
      rewrite length_append in H. lia.
    + simpl in H. injection H as -> H. f_equal. apply IH. exact H.
Qed.

(** File names that differ only in their number are different files. *)
Lemma numbered_path_inj (dir pre post : string) (n m : nat) :
  path_join dir (pre ++ string_of_nat n ++ post)
  = path_join dir (pre ++ string_of_nat m ++ post) ->
  n = m.
Proof.
  unfold path_join. intros H.
  apply append_cancel_l in H. apply append_cancel_l in H.
  apply append_cancel_l in H. apply append_cancel_r in H.
  apply string_of_nat_inj. exact H.
Qed.

End FileNames.

Section SlideshowFileNames.

Import Py FacelessVideoService SlideshowPlan SlideshowFiles.

Lemma nodup_map_numbered {A : Type} (f : nat -> A) (a n : nat) :
  (forall i j, f i = f j -> i = j) -> NoDup (map f (seq a n)).
Proof.
  intros Inj. revert a. induction n as [|n IH]; intros a; simpl.
  - constructor.
  - constructor; [|apply IH].
    intros H. apply in_map_iff in H as [j [E H]]. apply Inj in E.
    apply in_seq in H. lia.
Qed.

Lemma plan_files_written (transition_dur : Q) (valid : list string)
  (total_duration : Q) (tmp_dir : string) :
  files_written (plan transition_dur valid total_duration tmp_dir)
  = map (seg_path tmp_dir) (seq 0 (length valid))
    ++ map (merged_path tmp_dir) (seq 1 (length valid - 1))
    ++ [path_join tmp_dir "slideshow.mp4"].
Proof.
  unfold plan, files_written. rewrite !flat_map_app. f_equal; [|f_equal].
  - unfold VideoBuilder.enumerate.
    generalize (total_duration / inject_Z (Z.of_nat (length valid)))%Q.
    intros per. generalize 0.
    induction valid as [|x valid IH]; intros a; [reflexivity|].
    cbn [length seq combine map flat_map app written segment_event].
    rewrite IH. reflexivity.
  - induction (seq 1 (length valid - 1)) as [|i l IH]; [reflexivity|].
    cbn [map flat_map app written xfade_event]. rewrite IH. reflexivity.
Qed.

Lemma seg_path_inj (tmp_dir : string) (i j : nat) :
  seg_path tmp_dir i = seg_path tmp_dir j -> i = j.
Proof. apply numbered_path_inj. Qed.

Lemma merged_path_inj (tmp_dir : string) (i j : nat) :
  merged_path tmp_dir i = merged_path tmp_dir j -> i = j.
Proof. apply numbered_path_inj. Qed.

Lemma seg_not_merged (tmp_dir : string) (i j : nat) :
  seg_path tmp_dir i <> merged_path tmp_dir j.
Proof.
  unfold seg_path, merged_path, path_join. intros H.
  apply append_cancel_l in H. apply append_cancel_l in H.
  simpl in H. discriminate.
Qed.

Lemma seg_not_slideshow (tmp_dir : string) (i : nat) :
  seg_path tmp_dir i <> path_join tmp_dir "slideshow.mp4".
Proof.
  unfold seg_path, path_join. intros H.
  apply append_cancel_l in H. apply append_cancel_l in H.
  simpl in H. discriminate.
Qed.

Lemma merged_not_slideshow (tmp_dir : string) (i : nat) :
  merged_path tmp_dir i <> path_join tmp_dir "slideshow.mp4".
Proof.
  unfold merged_path, path_join. intros H.
  apply append_cancel_l in H. apply append_cancel_l in H.
  simpl in H. discriminate.
Qed.

(** The steps of the plan by position. *)
Lemma plan_steps (transition_dur : Q) (valid : list string)
  (total_duration : Q) (tmp_dir : string) :
  let n := length valid in
  let per_image := (total_duration / inject_Z (Z.of_nat n))%Q in
  let steps := plan transition_dur valid total_duration tmp_dir in
  (forall i, i < n ->
     exists img,
       nth_error steps i = Some (segment_event tmp_dir per_image (i, img)))
  /\ (forall i, 1 <= i < n ->
        nth_error steps (n + (i - 1))
        = Some (xfade_event transition_dur tmp_dir per_image i))
  /\ nth_error steps (n + (n - 1))
     = Some (renamed (if n =? 1 then seg_path tmp_dir 0
                      else merged_path tmp_dir (n - 1))
               (path_join tmp_dir "slideshow.mp4"))
  /\ length steps = n + (n - 1) + 1.
Proof.
  intros n per_image steps. subst steps. unfold plan. fold n. fold per_image.
  assert (L1 : length (map (segment_event tmp_dir per_image)
                         (VideoBuilder.enumerate valid)) = n).
  { rewrite length_map. unfold VideoBuilder.enumerate.
    rewrite length_combine, length_seq. fold n. lia. }
  assert (L2 : length (map (xfade_event transition_dur tmp_dir per_image)
                         (seq 1 (n - 1))) = n - 1).
  { rewrite length_map. apply length_seq. }
  repeat split.
  - intros i Hi. destruct (nth_error valid i) as [img|] eqn:E.
    2:{ apply nth_error_None in E. fold n in E. lia. }
    exists img. rewrite nth_error_app1 by lia.
    rewrite nth_error_map, (nth_error_enumerate valid i img E). reflexivity.
  - intros i Hi. rewrite nth_error_app2 by lia. rewrite L1.
    replace (n + (i - 1) - n) with (i - 1) by lia.
    rewrite nth_error_app1 by lia. rewrite nth_error_map.
    rewrite (nth_error_nth' _ 0) by (rewrite length_seq; lia).
    rewrite seq_nth by lia. cbn [option_map].
    replace (1 + (i - 1)) with i by lia. reflexivity.
  - rewrite nth_error_app2 by lia. rewrite L1.
    replace (n + (n - 1) - n) with (n - 1) by lia.
    rewrite nth_error_app2 by lia. rewrite L2, Nat.sub_diag. reflexivity.
  - rewrite !length_app, L1, L2. simpl. lia.
Qed.

(** X11.  The files of a slideshow never clash: the steps of the plan
    write pairwise distinct files, and every intermediate clip that a
    crossfade or the final rename reads was written by an earlier step.  No
    step therefore overwrites a clip that it or a later step reads. *)
Theorem slideshow_files_never_clash (transition_dur : Q)
  (valid : list string) (total_duration : Q) (tmp_dir : string) :
  valid <> [] ->
  let steps := plan transition_dur valid total_duration tmp_dir in
  NoDup (files_written steps)
  /\ forall k e clip,
       nth_error steps k = Some e -> In clip (clips_read e) ->
       exists j e',
         j < k /\ nth_error steps j = Some e' /\ written e' = Some clip.
Proof.
  intros V steps. subst steps.
  destruct (plan_steps transition_dur valid total_duration tmp_dir)
    as [Seg [Xf [Rn Len]]].
  set (n := length valid) in *.
  set (per_image := (total_duration / inject_Z (Z.of_nat n))%Q) in *.
  set (steps := plan transition_dur valid total_duration tmp_dir) in *.
  assert (Hn : 1 <= n).
  { unfold n. destruct valid; [congruence|simpl; lia]. }
  split.
  - unfold steps. rewrite plan_files_written. fold n.
    apply NoDup_app.
    + apply nodup_map_numbered. apply seg_path_inj.
    + apply NoDup_app.
      * apply nodup_map_numbered. apply merged_path_inj.
      * repeat constructor. intros [].
      * intros a Ha [<-|[]]. apply in_map_iff in Ha as [i [E _]].
        exact (merged_not_slideshow tmp_dir i E).
    + intros a Ha Hb. apply in_map_iff in Ha as [i [<- _]].
      apply in_app_iff in Hb as [Hb|[Hb|[]]].
      * apply in_map_iff in Hb as [j [E _]].
        exact (seg_not_merged tmp_dir i j (eq_sym E)).
      * exact (seg_not_slideshow tmp_dir i (eq_sym Hb)).
  - intros k e clip Hk Hc.
    assert (Lk : k < n + (n - 1) + 1).
    { rewrite <- Len. apply nth_error_Some. congruence. }
    assert (Seg0 : forall i, i < n ->
               exists e', nth_error steps i = Some e'
                          /\ written e' = Some (seg_path tmp_dir i)).
    { intros i Hi. destruct (Seg i Hi) as [img E]. eexists.
      split; [exact E|reflexivity]. }
    assert (Mer : forall i, 1 <= i < n ->
               exists e', nth_error steps (n + (i - 1)) = Some e'
                          /\ written e' = Some (merged_path tmp_dir i)).
    { intros i Hi. eexists. split; [apply Xf; exact Hi|reflexivity]. }
    destruct (Nat.lt_ge_cases k n) as [C1|C1].
    { destruct (Seg k C1) as [img E]. rewrite E in Hk. injection Hk as <-.
      destruct Hc. }
    destruct (Nat.eq_dec k (n + (n - 1))) as [C2|C2].
    { subst k. rewrite Rn in Hk. injection Hk as <-.
      destruct Hc as [<-|[]].
      destruct (Nat.eqb_spec n 1) as [N1|N1].
      - destruct (Seg0 0 ltac:(lia)) as [e' [A B]].
        exists 0, e'. repeat split; [lia|exact A|exact B].
      - destruct (Mer (n - 1) ltac:(lia)) as [e' [A B]].
        exists (n + (n - 1 - 1)), e'. repeat split; [lia|exact A|exact B]. }
    pose (i := k - n + 1).
    assert (Hi : 1 <= i < n) by (unfold i; lia).
    assert (Ek : k = n + (i - 1)) by (unfold i; lia).
    rewrite Ek, (Xf i Hi) in Hk. injection Hk as <-.
    destruct Hc as [<-|[<-|[]]].
    + destruct (Nat.eqb_spec i 1) as [I1|I1].
      * destruct (Seg0 0 ltac:(lia)) as [e' [A B]].
        exists 0, e'. repeat split; [lia|exact A|exact B].
      * destruct (Mer (i - 1) ltac:(lia)) as [e' [A B]].
        exists (n + (i - 1 - 1)), e'. repeat split; [lia|exact A|exact B].
    + destruct (Seg0 i ltac:(lia)) as [e' [A B]].
      exists i, e'. repeat split; [lia|exact A|exact B].
Qed.

End SlideshowFileNames.

Section OverlayFiles.

Import Py BuilderInputs.

(** X12.  The overlay images never overwrite each other: the caption
    frames [caption_{k}.png], the segment titles [title_seg_{k}.png] and
    the title [title_overlay.png] that the renderers write under
    [temp_dir] are pairwise distinct files, whatever the numbers of frames
    and segments. *)
Theorem overlay_images_distinct (temp_dir : string) (frames segs : nat) :
  NoDup (map (ReelGenerator.caption_path temp_dir) (range frames)
         ++ map (seg_title_path temp_dir) (range segs)
         ++ [title_png temp_dir]).
Proof.
  unfold range. apply NoDup_app.
  - apply nodup_map_numbered. intros i j. apply numbered_path_inj.
  - apply NoDup_app.
    + apply nodup_map_numbered. intros i j. apply numbered_path_inj.
    + repeat constructor. intros [].
    + intros a Ha [<-|[]]. apply in_map_iff in Ha as [i [E _]].
      unfold seg_title_path, title_png, path_join in E.
      apply append_cancel_l in E. apply append_cancel_l in E.
      simpl in E. discriminate.
  - intros a Ha Hb. apply in_map_iff in Ha as [i [<- _]].
    apply in_app_iff in Hb as [Hb|[Hb|[]]].
    + apply in_map_iff in Hb as [j [E _]].
      unfold seg_title_path, ReelGenerator.caption_path, path_join in E.
      apply append_cancel_l in E. apply append_cancel_l in E.
      simpl in E. discriminate.
    + unfold title_png, ReelGenerator.caption_path, path_join in Hb.
      apply append_cancel_l in Hb. apply append_cancel_l in Hb.
      simpl in Hb. discriminate.
Qed.

End OverlayFiles.

Section FacelessCaptions.

Import Py PyRe Reading ReelAgentCaptions VideoServiceCaptions.

Lemma caption_windows_tile (intro per : Q) (sentences : list str) :
  (0 < per)%Q ->
  forall k,
    tiles (intro + inject_Z (Z.of_nat k) * per)%Q
      (map (fun c : str * Q * Q => (snd (fst c), snd c))
         (map (fun '(i, sentence) =>
                 (display sentence,
                  (intro + inject_Z (Z.of_nat i) * per)%Q,
                  (intro + inject_Z (Z.of_nat i) * per + per)%Q))
            (combine (seq k (length sentences)) sentences)))
      (intro + inject_Z (Z.of_nat (k + length sentences)) * per)%Q.
Proof.
  intros Hp. induction sentences as [|s sentences IH]; intros k.
  - simpl. constructor. rewrite Nat.add_0_r. reflexivity.
  - cbn [length seq combine map fst snd]. constructor.
    + reflexivity.
    + lra.
    + eapply tiles_start; [eapply tiles_weaken; [apply (IH (S k))|]|].
      * replace (k + S (length sentences)) with (S k + length sentences)
          by lia. reflexivity.
      * rewrite Nat2Z.inj_succ, <- Z.add_1_r, inject_Z_plus.
        change (inject_Z 1) with 1%Q. ring.
Qed.

Lemma display_short (sentence : str) : length (display sentence) <= 80.
Proof.
  unfold display. destruct (Nat.leb_spec (length sentence) 80) as [H|H].
  - exact H.
  - rewrite length_app, length_firstn.
    change (length (list_ascii_of_string "...")) with 3. lia.
Qed.

(** X13.  The captions of a faceless reel tile the time between the
    intro and the outro.  With at least one sentence and a positive usable
    duration, [_build_captions] gives one caption per sentence, in order,
    each of at most 80 characters and of the same length of time; the
    first starts when the intro ends, each starts where the previous one
    ends, and the last ends after the usable duration.  When the audio is
    at least one second longer than intro and outro together, that is
    exactly the span of the slideshow: the last caption ends when the
    slideshow of [build_reel] ends, at [audio_duration - outro]. *)
Theorem faceless_captions_tile_the_slideshow
  (intro_duration outro_duration : Q) (script_text : str)
  (audio_duration : Q) :
  caption_sentences script_text <> [] ->
  (0 < usable_duration intro_duration outro_duration audio_duration)%Q ->
  let sentences := caption_sentences script_text in
  let usable := usable_duration intro_duration outro_duration audio_duration in
  let captions :=
    _build_captions intro_duration outro_duration script_text audio_duration in
  map (fun c : str * Q * Q => fst (fst c)) captions = map display sentences
  /\ Forall (fun c : str * Q * Q =>
               length (fst (fst c)) <= 80
               /\ (snd c - snd (fst c)
                   == usable / inject_Z (Z.of_nat (length sentences)))%Q)
       captions
  /\ tiles intro_duration
       (map (fun c : str * Q * Q => (snd (fst c), snd c)) captions)
       (intro_duration + usable)
  /\ ((1 <= audio_duration - intro_duration - outro_duration)%Q ->
      (intro_duration + usable
       == intro_duration
          + slideshow_duration intro_duration outro_duration audio_duration)%Q
      /\ (intro_duration + usable == audio_duration - outro_duration)%Q).
Proof.
  intros N U sentences usable captions. subst captions.
  unfold _build_captions. fold sentences. fold usable.
  fold sentences in N. clearbody sentences.
  replace (truthy sentences) with true
    by (destruct sentences; [contradiction|reflexivity]).
  cbn [negb].
  set (n := length sentences).
  assert (Hn : 1 <= n).
  { unfold n. destruct sentences; [contradiction|simpl; lia]. }
  assert (Nz : ~ (inject_Z (Z.of_nat n) == 0)%Q).
  { unfold Qeq, inject_Z. simpl. lia. }
  set (per := (usable / inject_Z (Z.of_nat n))%Q).
  assert (Hp : (0 < per)%Q).
  { unfold per. apply Qlt_shift_div_l.
    - unfold Qlt, inject_Z. simpl. lia.
    - rewrite Qmult_0_l. exact U. }
  repeat split.
  - clear N Hp Nz Hn. clearbody per. clear n. unfold VideoBuilder.enumerate.
    generalize 0.
    induction sentences as [|s l IH]; intros a; [reflexivity|].
    cbn [length seq combine map fst]. rewrite IH. reflexivity.
  - apply Forall_forall. intros c H.
    apply in_map_iff in H as [[i s] [<- _]]. cbn [fst snd]. split.
    + apply display_short.
    + fold per. ring.
  - eapply tiles_start; [eapply tiles_weaken|].
    + apply (caption_windows_tile intro_duration per sentences Hp 0).
    + cbn [Nat.add]. fold n. unfold per. field. exact Nz.
    + simpl. ring.
  - unfold slideshow_duration.
    destruct (Qle_bool (audio_duration - intro_duration - outro_duration) 1)
      eqn:G.
    + apply Qle_bool_iff in G. unfold usable, usable_duration.
      destruct (Qle_bool (audio_duration - intro_duration - outro_duration) 0)
        eqn:G0.
      * apply Qle_bool_iff in G0. lra.
      * lra.
    + unfold usable, usable_duration.
      destruct (Qle_bool (audio_duration - intro_duration - outro_duration) 0)
        eqn:G0.
      * apply Qle_bool_iff in G0. lra.
      * reflexivity.
  - unfold usable, usable_duration.
    destruct (Qle_bool (audio_duration - intro_duration - outro_duration) 0)
      eqn:G0.
    + apply Qle_bool_iff in G0. lra.
    + ring.
Qed.

Lemma flat_map_kept {A B : Type} (f : A -> list B) (g : A -> B)
  (l : list A) :
  (forall x, In x l -> f x = [g x]) -> flat_map f l = map g l.
Proof.
  induction l as [|x l IH]; intros H; [reflexivity|].
  simpl. rewrite (H x) by (left; reflexivity).
  rewrite IH; [reflexivity|]. intros y Hy. apply H. right. exact Hy.
Qed.

Lemma flat_map_dropped {A B : Type} (f : A -> list B) (l : list A) :
  (forall x, In x l -> f x = []) -> flat_map f l = [].
Proof.
  induction l as [|x l IH]; intros H; [reflexivity|].
  simpl. rewrite (H x) by (left; reflexivity). simpl.
  apply IH. intros y Hy. apply H. right. exact Hy.
Qed.

Lemma usable_duration_sign (intro_duration outro_duration audio_duration : Q) :
  (0 <= intro_duration)%Q -> (0 <= outro_duration)%Q ->
  ((0 < audio_duration)%Q ->
   (0 < usable_duration intro_duration outro_duration audio_duration)%Q)
  /\ ((audio_duration <= 0)%Q ->
      (usable_duration intro_duration outro_duration audio_duration <= 0)%Q).
Proof.
  intros Hi Ho. unfold usable_duration.
  destruct (Qle_bool (audio_duration - intro_duration - outro_duration) 0)
    eqn:G.
  - split; intros H; exact H.
  - assert (L : (0 < audio_duration - intro_duration - outro_duration)%Q).
    { destruct (Qlt_le_dec 0 (audio_duration - intro_duration
                              - outro_duration)) as [|Hle]; [assumption|].
      apply Qle_bool_iff in Hle. congruence. }
    split; intros H; lra.
Qed.

(** With non-negative intro and outro durations and an audio of positive
    duration, [_build_caption_filters] turns every caption that
    [_build_captions] produced into one drawtext filter, in order, with the
    same window.  With an audio duration that is not positive every caption
    has an empty or inverted window and all of them are skipped. *)
Lemma caption_filters_of_captions (font_path : string)
  (intro_duration outro_duration : Q) (script_text : str)
  (audio_duration : Q) :
  (0 <= intro_duration)%Q -> (0 <= outro_duration)%Q ->
  let captions :=
    _build_captions intro_duration outro_duration script_text audio_duration in
  ((0 < audio_duration)%Q ->
   _build_caption_filters font_path (Some captions)
   = map (fun '(text, start, end_) =>
            drawtext (escape text) font_path (VideoBuilder.F2 start)
              (VideoBuilder.F2 end_))
       captions)
  /\ ((audio_duration <= 0)%Q ->
      _build_caption_filters font_path (Some captions) = []).
Proof.
  intros Hi Ho captions.
  destruct (usable_duration_sign intro_duration outro_duration audio_duration
              Hi Ho) as [Pos Neg].
  assert (F : _build_caption_filters font_path (Some captions)
              = flat_map
                  (fun '(text, start, end_) =>
                     if Qle_bool end_ start then []
                     else [drawtext (escape text) font_path
                             (VideoBuilder.F2 start) (VideoBuilder.F2 end_)])
                  captions).
  { unfold _build_caption_filters. destruct captions; reflexivity. }
  rewrite F. clear F. subst captions. unfold _build_captions.
  set (sentences := caption_sentences script_text).
  destruct sentences as [|s0 rest] eqn:E; [split; reflexivity|].
  cbn [truthy negb]. rewrite <- E.
  set (usable := usable_duration intro_duration outro_duration
                   audio_duration) in *.
  set (n := length sentences).
  assert (Hn : (0 < inject_Z (Z.of_nat n))%Q).
  { unfold n. rewrite E. unfold Qlt, inject_Z. simpl. lia. }
  set (per := (usable / inject_Z (Z.of_nat n))%Q).
  split; intros H.
  - apply flat_map_kept. intros [[text start] end_] In1.
    apply in_map_iff in In1 as [[i s] [Eq _]].
    injection Eq as _ <- <-.
    assert (Hp : (0 < per)%Q).
    { unfold per. apply Qlt_shift_div_l; [exact Hn|].
      rewrite Qmult_0_l. apply Pos. exact H. }
    destruct (Qle_bool _ _) eqn:G; [|reflexivity].
    apply Qle_bool_iff in G. fold per in G. lra.
  - apply flat_map_dropped. intros [[text start] end_] In1.
    apply in_map_iff in In1 as [[i s] [Eq _]].
    injection Eq as _ <- <-.
    assert (Hp : (per <= 0)%Q).
    { unfold per. apply Qle_shift_div_r; [exact Hn|].
      rewrite Qmult_0_l. apply Neg. exact H. }
    destruct (Qle_bool _ _) eqn:G; [reflexivity|].
    assert (L : (intro_duration + inject_Z (Z.of_nat i) * per + per
                 <= intro_duration + inject_Z (Z.of_nat i) * per)%Q) by lra.
    apply Qle_bool_iff in L. fold per in G. congruence.
Qed.

Lemma build_captions_length (intro_duration outro_duration : Q)
  (script_text : str) (audio_duration : Q) :
  length (_build_captions intro_duration outro_duration script_text
            audio_duration)
  = length (caption_sentences script_text).
Proof.
  unfold _build_captions.
  destruct (caption_sentences script_text) as [|s0 rest] eqn:E;
    [reflexivity|].
  cbn [truthy negb]. unfold VideoBuilder.enumerate.
  rewrite length_map, length_combine, length_seq. apply Nat.min_id.
Qed.

(** X14.  Which captions of the agent the final mix burns in.  With
    non-negative intro and outro durations, a script that has a sentence,
    an audio of positive duration and an ffmpeg that has the drawtext
    filter, the [-vf] option of the last command of [_concat_and_mix] holds
    one drawtext filter for every caption of [_build_captions], as many as
    the script has sentences, in order, each with the escaped text and the
    window of its caption, and nothing is skipped.  Without the drawtext
    filter the command has no [-vf] option and every caption is dropped,
    with the warning whenever there was a filter to drop; with an audio
    duration that is not positive, or a script without a sentence, the
    command has no [-vf] option either and no warning is logged. *)
Theorem captions_reach_the_final_mix (has_drawtext : bool)
  (font_path concat_out audio_path output_path : string)
  (intro_duration outro_duration : Q) (script_text : str)
  (audio_duration : Q) :
  (0 <= intro_duration)%Q -> (0 <= outro_duration)%Q ->
  let captions :=
    _build_captions intro_duration outro_duration script_text audio_duration in
  let burned :=
    map (fun '(text, start, end_) =>
           drawtext (escape text) font_path (VideoBuilder.F2 start)
             (VideoBuilder.F2 end_))
        captions in
  let mix :=
    final_mix has_drawtext font_path concat_out audio_path (Some captions)
      output_path in
  mix_inputs (snd mix) = [concat_out; audio_path]
  /\ mix_output (snd mix) = output_path
  /\ length burned = length (caption_sentences script_text)
  /\ ((0 < audio_duration)%Q -> caption_sentences script_text <> [] ->
      (has_drawtext = true -> mix = (false,
                                     {| mix_inputs := [concat_out; audio_path];
                                        vf := Some burned;
                                        mix_output := output_path |}))
      /\ (has_drawtext = false -> fst mix = true /\ vf (snd mix) = None))
  /\ ((audio_duration <= 0)%Q \/ caption_sentences script_text = [] ->
      fst mix = false /\ vf (snd mix) = None).
Proof.
  intros Hi Ho captions burned mix.
  destruct (caption_filters_of_captions font_path intro_duration
              outro_duration script_text audio_duration Hi Ho) as [Pos Neg].
  fold captions in Pos, Neg. fold burned in Pos.
  assert (Lb : length burned = length (caption_sentences script_text)).
  { unfold burned. rewrite length_map. apply build_captions_length. }
  unfold mix, final_mix.
  split; [|split; [|split; [|split]]].
  - cbn [snd].
    match goal with
    | |- mix_inputs (if ?b then _ else _) = _ => destruct b; reflexivity
    end.
  - cbn [snd].
    match goal with
    | |- mix_output (if ?b then _ else _) = _ => destruct b; reflexivity
    end.
  - exact Lb.
  - intros HD Hs. rewrite (Pos HD).
    assert (T : truthy burned = true).
    { destruct burned; [|reflexivity].
      destruct (caption_sentences script_text); [congruence|discriminate]. }
    split; intros ->; cbn [negb andb fst snd]; rewrite ?T; cbn [fst snd vf].
    + reflexivity.
    + split; reflexivity.
  - intros [HD|Hs].
    + rewrite (Neg HD). cbn [truthy]. rewrite andb_false_r.
      cbn [truthy fst snd vf]. split; reflexivity.
    + assert (E : captions = []).
      { unfold captions, _build_captions. rewrite Hs. reflexivity. }
      rewrite E. cbn [_build_caption_filters truthy negb].
      rewrite andb_false_r. cbn [truthy fst snd vf]. split; reflexivity.
Qed.

(** The escaped form of one character. *)
Lemma escape_cons (c : ascii) (text : str) :
  escape (c :: text)
  = (if Ascii.eqb c "'"%char then list_ascii_of_string "'\''"
     else if Ascii.eqb c ":"%char then list_ascii_of_string "\:"
     else [c])
    ++ escape text.
Proof.
  unfold escape, replace_char. cbn [flat_map]. rewrite flat_map_app.
  f_equal. destruct (Ascii.eqb_spec c "'"%char) as [->|N]; [reflexivity|].
  cbn [flat_map app]. rewrite app_nil_r. reflexivity.
Qed.

Lemma escape_head (text : str) (rest : str) :
  escape text <> ":"%char :: rest.
Proof.
  destruct text as [|c text]; [discriminate|]. rewrite escape_cons.
  destruct (Ascii.eqb_spec c "'"%char) as [->|N1]; [discriminate|].
  destruct (Ascii.eqb_spec c ":"%char) as [->|N2]; [discriminate|].
  simpl. congruence.
Qed.

(** X15.  [_build_caption_filters] escapes a caption in one pass and
    without loss: the two [replace] calls together turn every single quote
    into ['\''] and every colon into [\:], touch nothing else (the second
    call never changes what the first inserted), and two different
    captions never get the same escaped text. *)
Theorem escape_is_one_pass_and_injective :
  (forall text,
      escape text
      = flat_map
          (fun c => if Ascii.eqb c "'"%char then list_ascii_of_string "'\''"
                    else if Ascii.eqb c ":"%char
                    then list_ascii_of_string "\:"
                    else [c])
          text)
  /\ (forall text1 text2, escape text1 = escape text2 -> text1 = text2).
Proof.
  split.
  - intros s. induction s as [|c s IH]; [reflexivity|].
    rewrite escape_cons, IH. reflexivity.
  - induction text1 as [|a t1 IH]; intros text2 H.
    + destruct text2 as [|b t2]; [reflexivity|].
      rewrite escape_cons in H. exfalso.
      destruct (Ascii.eqb b "'"%char); [discriminate|].
      destruct (Ascii.eqb b ":"%char); discriminate.
    + destruct text2 as [|b t2].
      * rewrite escape_cons in H. exfalso.
        destruct (Ascii.eqb a "'"%char); [discriminate|].
        destruct (Ascii.eqb a ":"%char); discriminate.
      * rewrite !escape_cons in H.
        destruct (Ascii.eqb_spec a "'"%char) as [->|A1];
          destruct (Ascii.eqb_spec b "'"%char) as [->|B1].
        -- simpl in H. injection H as H. f_equal. apply IH. exact H.
        -- destruct (Ascii.eqb_spec b ":"%char) as [->|B2];
             simpl in H; [discriminate|]. injection H as H _. congruence.
        -- destruct (Ascii.eqb_spec a ":"%char) as [->|A2];
             simpl in H; [discriminate|]. injection H as H _. congruence.
        -- destruct (Ascii.eqb_spec a ":"%char) as [->|A2];
             destruct (Ascii.eqb_spec b ":"%char) as [->|B2]; simpl in H.
           ++ injection H as H. f_equal. apply IH. exact H.
           ++ injection H as <- H. exfalso.
              exact (escape_head t2 (escape t1) (eq_sym H)).
           ++ injection H as -> H. exfalso.
              exact (escape_head t1 (escape t2) H).
           ++ injection H as -> H. f_equal. apply IH. exact H.
Qed.

End FacelessCaptions.

Section AgentSlideshow.

Import Py Reading FacelessVideoService FacelessReelAgent SlideshowPlan.

(** X16.  A reel made through the agent never degrades to the black
    placeholder: the images that [generate_reel] passes on are a non-empty
    list of files, so [_build_slideshow] drops none of them, logs no
    warning and sets out to render one clip per accepted image. *)
Theorem agent_images_all_get_a_clip (w : world) (images : list string)
  (script_text audio_path : option string) (valid_images : list string)
  (transition_dur total_duration : Q) (tmp_dir : string) :
  validate_images w images script_text audio_path = Ok valid_images ->
  let run :=
    _build_slideshow w transition_dur valid_images total_duration tmp_dir in
  valid_images <> []
  /\ filter (path_isfile w) valid_images = valid_images
  /\ events run
     = until_failure w
         (plan transition_dur valid_images total_duration tmp_dir)
  /\ Forall (fun e => is_log e = false) (events run)
  /\ length (filter (fun e => match e with
                              | ran_ffmpeg (stage_segment _) _ => true
                              | _ => false
                              end)
               (plan transition_dur valid_images total_duration tmp_dir))
     = length valid_images.
Proof.
  intros H run. subst run. unfold validate_images in H.
  destruct (negb (truthy images)); [discriminate|].
  assert (V : valid_images = filter (path_isfile w) images
              /\ valid_images <> []).
  { destruct audio_path, script_text;
      try discriminate;
      (destruct (filter (path_isfile w) images) eqn:E;
       [discriminate|]; apply Ok_inj in H; subst valid_images;
       split; [reflexivity|discriminate]). }
  destruct V as [V N].
  assert (F : filter (path_isfile w) valid_images = valid_images).
  { rewrite V. apply filter_idempotent. }
  assert (N' : filter (path_isfile w) valid_images <> []).
  { rewrite F. exact N. }
  destruct (slideshow_run w transition_dur valid_images total_duration
              tmp_dir N') as [Ev _].
  rewrite F in Ev.
  repeat split; [exact N|exact F|exact Ev| |].
  - apply build_slideshow_silent. exact N'.
  - unfold plan. rewrite !filter_app.
    rewrite !length_app.
    assert (A : forall l a per,
               length (filter (fun e => match e with
                                        | ran_ffmpeg (stage_segment _) _ => true
                                        | _ => false
                                        end)
                         (map (segment_event tmp_dir per)
                            (combine (seq a (length l)) l)))
               = length l).
    { induction l as [|x l IH]; intros a per; [reflexivity|].
      cbn [length seq combine map filter segment_event]. rewrite IH.
      reflexivity. }
    unfold VideoBuilder.enumerate. rewrite A.
    assert (B : forall l,
               filter (fun e => match e with
                                | ran_ffmpeg (stage_segment _) _ => true
                                | _ => false
                                end)
                 (map (xfade_event transition_dur tmp_dir
                         (total_duration
                          / inject_Z (Z.of_nat (length valid_images)))%Q) l)
               = []).
    { induction l as [|i l IH]; [reflexivity|].
      cbn [map filter xfade_event]. exact IH. }
    rewrite B. simpl. lia.
Qed.

End AgentSlideshow.

Section FormatTimestamp.

Import Binary64 Timestamp.

Lemma nearest_even_lower (q : Q) (a : Z) :
  (inject_Z a <= q)%Q -> (a <= nearest_even q)%Z.
Proof.
  intros H. unfold nearest_even.
  assert (F : (a <= Qfloor q)%Z).
  { rewrite <- (Qfloor_Z a). apply Qfloor_resp_le. exact H. }
  destruct (Qcompare _ _); [destruct (Z.even _)| |]; lia.
Qed.

Lemma nearest_even_upper (q : Q) (b : Z) :
  (q <= inject_Z b)%Q -> (nearest_even q <= b)%Z.
Proof.
  intros H. unfold nearest_even.
  assert (F : (Qfloor q <= b)%Z).
  { rewrite <- (Qfloor_Z b). apply Qfloor_resp_le. exact H. }
  assert (G : (0 < q - inject_Z (Qfloor q))%Q -> (Qfloor q + 1 <= b)%Z).
  { intros P. destruct (Z.eq_dec (Qfloor q) b) as [E|E]; [|lia].
    rewrite E in P. lra. }
  destruct (Qcompare_spec (q - inject_Z (Qfloor q)) (1 # 2)) as [E|E|E].
  - destruct (Z.even _); [lia|]. apply G. rewrite E. reflexivity.
  - lia.
  - apply G. lra.
Qed.

(** Rounding to the nearest integer moves a number by at most a half. *)
Lemma nearest_even_error (q : Q) :
  (Qabs (inject_Z (nearest_even q) - q) <= 1 # 2)%Q.
Proof.
  generalize (Qfloor_le q) (Qlt_floor q). intros L U.
  rewrite inject_Z_plus in U. change (inject_Z 1) with 1%Q in U.
  apply Qabs_Qle_condition. unfold nearest_even.
  destruct (Qcompare_spec (q - inject_Z (Qfloor q)) (1 # 2)) as [E|E|E].
  - destruct (Z.even _);
      rewrite ?inject_Z_plus; change (inject_Z 1) with 1%Q; split; lra.
  - split; lra.
  - rewrite inject_Z_plus. change (inject_Z 1) with 1%Q. split; lra.
Qed.

Lemma pow2_nonneg (j : Z) :
  (0 <= j)%Z -> pow2 j = inject_Z (2 ^ j).
Proof.
  intros H. unfold pow2. destruct (Z.leb_spec 0 j); [reflexivity|lia].
Qed.

Lemma inject_Z_pos (z : Z) : (0 < z)%Z -> (0 < inject_Z z)%Q.
Proof. intros H. unfold Qlt, inject_Z. simpl. lia. Qed.

(** The exponent of a number below [2^(E+1)] is at most [E]. *)
Lemma exponent_le (q : Q) (E : Z) :
  (0 <= E)%Z -> (Qabs q < inject_Z (2 ^ (E + 1)))%Q ->
  (exponent q <= E)%Z.
Proof.
  intros HE H. unfold exponent.
  destruct (Qle_bool 1 (Qabs q)) eqn:G.
  - apply Qle_bool_iff in G.
    assert (P : (1 <= Qfloor (Qabs q))%Z).
    { rewrite <- (Qfloor_Z 1). apply Qfloor_resp_le. exact G. }
    assert (U : (Qfloor (Qabs q) < 2 ^ (E + 1))%Z).
    { generalize (Qfloor_le (Qabs q)). intros L.
      assert (X : (inject_Z (Qfloor (Qabs q)) < inject_Z (2 ^ (E + 1)))%Q)
        by lra.
      rewrite <- Zlt_Qlt in X. exact X. }
    apply Z.log2_lt_pow2 in U; lia.
  - generalize (Z.log2_up_nonneg (Qceiling (/ Qabs q))). lia.
Qed.

(** Binary64 rounding does not cross the numbers [k / 2^j0] as long as
    they are themselves binary64 numbers: below [2^(53 - j0)] a number
    between two of them is rounded to a number between them. *)
Lemma round_between (q : Q) (j0 lo hi : Z) :
  (0 <= j0 <= 52)%Z ->
  (Qabs q < inject_Z (2 ^ (53 - j0)))%Q ->
  (inject_Z lo / inject_Z (2 ^ j0) <= q)%Q ->
  (q <= inject_Z hi / inject_Z (2 ^ j0))%Q ->
  (inject_Z lo / inject_Z (2 ^ j0) <= round q)%Q
  /\ (round q <= inject_Z hi / inject_Z (2 ^ j0))%Q.
Proof.
  intros Hj Hq Hlo Hhi. unfold round.
  destruct (Qeq_bool q 0) eqn:Z0.
  { apply Qeq_bool_iff in Z0. split; rewrite <- Z0; assumption. }
  set (j := Z.min (52 - exponent q) 1074).
  assert (J : (j0 <= j)%Z).
  { assert (X : (exponent q <= 52 - j0)%Z).
    { apply exponent_le; [lia|].
      replace (52 - j0 + 1)%Z with (53 - j0)%Z by lia. exact Hq. }
    unfold j. lia. }
  rewrite (pow2_nonneg j) by lia.
  replace j with (j0 + (j - j0))%Z by lia.
  rewrite Z.pow_add_r by lia.
  set (g0 := (2 ^ j0)%Z) in *. set (gd := (2 ^ (j - j0))%Z).
  assert (P0 : (0 < g0)%Z) by (apply Z.pow_pos_nonneg; lia).
  assert (Pd : (0 < gd)%Z) by (apply Z.pow_pos_nonneg; lia).
  assert (Q0 : (0 < inject_Z g0)%Q) by (apply inject_Z_pos; exact P0).
  assert (Qd : (0 < inject_Z gd)%Q) by (apply inject_Z_pos; exact Pd).
  assert (Qg : (0 < inject_Z (g0 * gd))%Q) by (apply inject_Z_pos; lia).
  assert (N0 : ~ (inject_Z g0 == 0)%Q) by lra.
  assert (S : forall k : Z,
             (inject_Z k / inject_Z g0 * inject_Z (g0 * gd)
              == inject_Z (k * gd))%Q).
  { intros k. rewrite !inject_Z_mult. field. exact N0. }
  split.
  - apply Qle_shift_div_l; [exact Qg|]. rewrite (S lo).
    rewrite <- Zle_Qle. apply nearest_even_lower. rewrite <- (S lo).
    apply Qmult_le_compat_r; [exact Hlo|]. apply Qlt_le_weak. exact Qg.
  - apply Qle_shift_div_r; [exact Qg|]. rewrite (S hi).
    rewrite <- Zle_Qle. apply nearest_even_upper. rewrite <- (S hi).
    apply Qmult_le_compat_r; [exact Hhi|]. apply Qlt_le_weak. exact Qg.
Qed.

(** [int] of a float that is not negative is its floor. *)
Lemma int_between (q : Q) (k : Z) :
  (0 <= k)%Z -> (inject_Z k <= q)%Q -> (q < inject_Z (k + 1))%Q ->
  Py.int q = k.
Proof.
  intros Hk L U.
  assert (F : Qfloor q = k).
  { generalize (Qfloor_le q) (Qlt_floor q). intros A B.
    assert (X : (inject_Z (Qfloor q) < inject_Z (k + 1))%Q) by lra.
    assert (Y : (inject_Z k < inject_Z (Qfloor q + 1))%Q) by lra.
    rewrite <- Zlt_Qlt in X, Y. lia. }
  rewrite <- F. unfold Py.int, Qfloor. destruct q as [n d]. cbn [Qnum Qden].
  apply Z.quot_div_nonneg; [|lia].
  assert (X : (0 <= inject_Z k)%Q).
  { change 0%Q with (inject_Z 0). rewrite <- Zle_Qle. exact Hk. }
  assert (Y : (0 <= n # d)%Q) by lra.
  unfold Qle in Y. simpl in Y. lia.
Qed.

(** [int] of a float between -1 and 1 is 0. *)
Lemma int_of_fraction (q : Q) :
  (-1 < q)%Q -> (q < 1)%Q -> Py.int q = 0%Z.
Proof.
  intros L U. unfold Py.int. destruct q as [n d]. cbn [Qnum Qden].
  unfold Qlt in L, U. simpl in L, U.
  destruct (Z.le_gt_cases 0 n) as [P|P].
  - apply Z.quot_small. lia.
  - replace n with (- (- n))%Z by lia. rewrite Z.quot_opp_l by lia.
    rewrite Z.quot_small by lia. reflexivity.
Qed.

(** The true division of a natural number by a divisor of at most [2^21],
    with a quotient below [2^31]: [int] of the float is the integer
    quotient, the rounding does not reach the next integer. *)
Lemma int_of_division (n : Z) (m : positive) :
  (0 <= n)%Z -> (Zpos m <= 2097152)%Z -> (n / Zpos m < 4294967295)%Z ->
  Py.int (div_int n (Zpos m)) = (n / Zpos m)%Z.
Proof.
  intros Hn Hm Hk. set (K := (n / Zpos m)%Z) in *.
  assert (K0 : (0 <= K)%Z) by (unfold K; apply Z.div_pos; lia).
  assert (K1 : (K * Zpos m <= n)%Z)
    by (unfold K; rewrite Z.mul_comm; apply Z.mul_div_le; lia).
  assert (K2 : (n < (K + 1) * Zpos m)%Z).
  { unfold K. generalize (Z.mod_pos_bound n (Zpos m) ltac:(lia)).
    generalize (Z.div_mod n (Zpos m) ltac:(lia)). nia. }
  unfold div_int.
  set (q := (inject_Z n / inject_Z (Zpos m))%Q).
  assert (Q0 : (0 <= q)%Q).
  { unfold q, Qle, Qdiv, Qmult, Qinv, inject_Z. simpl. lia. }
  destruct (round_between q 21 (K * 2097152) ((K + 1) * 2097152 - 1))
    as [L U].
  - lia.
  - rewrite Qabs_pos by exact Q0. change (2 ^ (53 - 21))%Z with 4294967296%Z.
    unfold q, Qlt, Qdiv, Qmult, Qinv, inject_Z. simpl. nia.
  - change (2 ^ 21)%Z with 2097152%Z.
    unfold q, Qle, Qdiv, Qmult, Qinv, inject_Z. simpl. nia.
  - change (2 ^ 21)%Z with 2097152%Z.
    unfold q, Qle, Qdiv, Qmult, Qinv, inject_Z. simpl. nia.
  - change (2 ^ 21)%Z with 2097152%Z in L, U.
    apply int_between; [exact K0| |].
    + eapply Qle_trans; [|exact L].
      unfold Qle, Qdiv, Qmult, Qinv, inject_Z. simpl. lia.
    + eapply Qle_lt_trans; [exact U|].
      unfold Qlt, Qdiv, Qmult, Qinv, inject_Z. simpl. lia.
Qed.

(** Below [2^20] binary64 rounding moves a number by at most [2^-34]. *)
Lemma round_error (y : Q) :
  (Qabs y < 1048576)%Q ->
  (Qabs (round y - y) <= 1 # 17179869184)%Q.
Proof.
  intros Hy. unfold round.
  destruct (Qeq_bool y 0) eqn:Z0.
  { apply Qeq_bool_iff in Z0. rewrite Z0. discriminate. }
  set (j := Z.min (52 - exponent y) 1074).
  assert (J : (33 <= j)%Z).
  { assert (X : (exponent y <= 19)%Z) by (apply exponent_le; [lia|exact Hy]).
    unfold j. lia. }
  rewrite (pow2_nonneg j) by lia.
  assert (G : (8589934592 <= inject_Z (2 ^ j))%Q).
  { change 8589934592%Q with (inject_Z (2 ^ 33)). rewrite <- Zle_Qle.
    apply Z.pow_le_mono_r; lia. }
  set (g := inject_Z (2 ^ j)) in *.
  generalize (nearest_even_error (y * g)). intros E.
  apply Qabs_Qle_condition in E. destruct E as [E1 E2].
  set (r := inject_Z (nearest_even (y * g))) in *.
  assert (N : ~ (g == 0)%Q) by lra.
  assert (F : (r / g - y == (r - y * g) / g)%Q) by (field; exact N).
  apply Qabs_Qle_condition. rewrite F. split.
  - apply Qle_shift_div_l; [lra|]. lra.
  - apply Qle_shift_div_r; [lra|]. lra.
Qed.

(** The microseconds of a normalised duration. *)
Lemma timedelta_microseconds (x : Q) (td : timedelta) :
  timedelta_of_seconds x = Some td ->
  let us := total_microseconds x in
  ((days td * 86400 + seconds td) * 1000000 + microseconds td = us)%Z
  /\ microseconds td = (us mod 1000000)%Z.
Proof.
  unfold timedelta_of_seconds. cbv zeta. intros H.
  set (us := total_microseconds x) in *.
  destruct (_ || _); [discriminate|]. injection H as <-.
  cbn [days seconds microseconds].
  split; Z.div_mod_to_equations; lia.
Qed.

Lemma timedelta_in_range (x : Q) :
  (-86400000000 <= total_microseconds x <= 86400000000000000)%Z ->
  exists td, timedelta_of_seconds x = Some td.
Proof.
  intros H. unfold timedelta_of_seconds.
  set (us := total_microseconds x) in *.
  destruct ((us / 86400000000 <? -999999999)%Z
            || (999999999 <? us / 86400000000)%Z) eqn:G.
  - exfalso. apply orb_true_iff in G as [G|G]; apply Z.ltb_lt in G;
      revert G; Z.div_mod_to_equations; lia.
  - eexists. reflexivity.
Qed.

(** The fraction that [math.modf] splits off has the sign of the number
    and is less than one. *)
Lemma fraction_bounds (x : Q) :
  let f := (x - inject_Z (Py.int x))%Q in
  (-1 < f)%Q /\ (f < 1)%Q
  /\ ((0 <= x)%Q -> (0 <= f)%Q /\ (0 <= Py.int x)%Z)
  /\ ((x <= 0)%Q -> (f <= 0)%Q /\ (Py.int x <= 0)%Z).
Proof.
  destruct x as [n d]. unfold Py.int. cbn [Qnum Qden].
  generalize (Z.quot_rem' n (Zpos d)). intros E.
  set (q := Z.quot n (Zpos d)) in *. set (r := Z.rem n (Zpos d)) in *.
  assert (Rp : (0 <= n -> 0 <= r < Zpos d)%Z).
  { intros H. apply Z.rem_bound_pos; lia. }
  assert (Rn : (n <= 0 -> - Zpos d < r <= 0)%Z).
  { intros H. apply Z.rem_bound_pos_neg; lia. }
  unfold Qlt, Qle, Qminus, Qplus, Qopp, inject_Z. simpl.
  rewrite !Z.mul_1_r, ?Pos.mul_1_r.
  repeat split; intros; nia.
Qed.

Lemma total_microseconds_near (x : Q) :
  (Qabs (inject_Z (total_microseconds x) - x * 1000000)
   <= (1 # 2) + (1 # 17179869184))%Q.
Proof.
  unfold total_microseconds, mul.
  destruct (fraction_bounds x) as [F1 [F2 _]].
  set (i := Py.int x) in *.
  set (y := ((x - inject_Z i) * 1000000)%Q).
  assert (Hy : (Qabs y < 1048576)%Q).
  { apply Qabs_Qlt_condition. unfold y. split; lra. }
  generalize (round_error y Hy) (nearest_even_error (round y)).
  intros A B. apply Qabs_Qle_condition in A, B.
  apply Qabs_Qle_condition.
  rewrite inject_Z_plus, inject_Z_mult.
  change (inject_Z 1000000) with 1000000%Q.
  unfold y in *. set (u := round _) in *.
  set (r := inject_Z (nearest_even u)) in *.
  destruct A, B. split; lra.
Qed.

(** The microseconds of a time lie between those of the whole seconds
    around it. *)
Lemma total_microseconds_nonneg (x : Q) :
  (0 <= x)%Q ->
  (Py.int x * 1000000 <= total_microseconds x
   <= (Py.int x + 1) * 1000000)%Z.
Proof.
  intros Hx. unfold total_microseconds, mul.
  destruct (fraction_bounds x) as [F1 [F2 [F3 _]]].
  destruct (F3 Hx) as [F0 I0].
  set (i := Py.int x) in *.
  set (y := ((x - inject_Z i) * 1000000)%Q).
  destruct (round_between y 0 0 1000000) as [L U].
  - lia.
  - apply Qabs_Qlt_condition. unfold y.
    change (inject_Z (2 ^ (53 - 0))) with 9007199254740992%Q. split; lra.
  - unfold y. change (inject_Z 0 / inject_Z (2 ^ 0))%Q with 0%Q. lra.
  - unfold y. change (inject_Z 1000000 / inject_Z (2 ^ 0))%Q
      with 1000000%Q. lra.
  - change (inject_Z 0 / inject_Z (2 ^ 0))%Q with 0%Q in L.
    change (inject_Z 1000000 / inject_Z (2 ^ 0))%Q with 1000000%Q in U.
    assert (A : (0 <= nearest_even (round y))%Z).
    { apply nearest_even_lower. change (inject_Z 0) with 0%Q. lra. }
    assert (B : (nearest_even (round y) <= 1000000)%Z).
    { apply nearest_even_upper. change (inject_Z 1000000) with 1000000%Q.
      lra. }
    lia.
Qed.

Lemma total_microseconds_negative_fraction (x : Q) :
  (- (999999 # 1000000) <= x)%Q -> (x < 0)%Q ->
  (-999999 <= total_microseconds x <= 0)%Z.
Proof.
  intros Lo Hi. unfold total_microseconds, mul.
  rewrite (int_of_fraction x) by lra.
  set (y := ((x - inject_Z 0) * 1000000)%Q).
  destruct (round_between y 0 (-999999) 0) as [L U].
  - lia.
  - apply Qabs_Qlt_condition. unfold y.
    change (inject_Z (2 ^ (53 - 0))) with 9007199254740992%Q.
    change (inject_Z 0) with 0%Q. split; lra.
  - unfold y. change (inject_Z (-999999) / inject_Z (2 ^ 0))%Q
      with (-999999)%Q. change (inject_Z 0) with 0%Q. lra.
  - unfold y. change (inject_Z 0 / inject_Z (2 ^ 0))%Q with 0%Q.
    change (inject_Z 0) with 0%Q. lra.
  - change (inject_Z (-999999) / inject_Z (2 ^ 0))%Q with (-999999)%Q in L.
    change (inject_Z 0 / inject_Z (2 ^ 0))%Q with 0%Q in U.
    assert (A : (-999999 <= nearest_even (round y))%Z).
    { apply nearest_even_lower. change (inject_Z (-999999)) with (-999999)%Q.
      lra. }
    assert (B : (nearest_even (round y) <= 0)%Z).
    { apply nearest_even_upper. change (inject_Z 0) with 0%Q. lra. }
    lia.
Qed.

(** X17.  For a float that is not negative and below [2^31],
    [format_timestamp] prints fields that read back as the time: the
    microseconds that [timedelta] keeps are the time up to half a
    microsecond (and the rounding of one product, [2^-34]); minutes and
    seconds are below 60, the milliseconds below 1000, and hours, minutes,
    seconds and milliseconds together are those microseconds cut to the
    millisecond.  The divisions of [total_seconds()] and of
    [microseconds / 1000] are float divisions; their rounding never reaches
    the next whole number. *)
Theorem timestamp_fields_read_back (x : Q) :
  (round x == x)%Q -> (0 <= x)%Q -> (x < 2147483648)%Q ->
  let us := total_microseconds x in
  (Qabs (inject_Z us - x * 1000000) <= (1 # 2) + (1 # 17179869184))%Q
  /\ exists td,
       timedelta_of_seconds x = Some td
       /\ let '(hours, minutes, secs, millis) := timestamp_fields td in
          (0 <= hours /\ 0 <= minutes < 60 /\ 0 <= secs < 60
           /\ 0 <= millis < 1000
           /\ ((hours * 60 + minutes) * 60 + secs) * 1000 + millis
              = us / 1000)%Z.
Proof.
  intros _ Hx Hb us. split; [apply total_microseconds_near|].
  generalize (total_microseconds_nonneg x Hx). fold us. intros B.
  destruct (fraction_bounds x) as [_ [_ [F _]]].
  destruct (F Hx) as [F0 I0].
  assert (I1 : (Py.int x < 2147483648)%Z).
  { assert (X : (inject_Z (Py.int x) < inject_Z 2147483648)%Q).
    { change (inject_Z 2147483648) with 2147483648%Q. lra. }
    rewrite <- Zlt_Qlt in X. exact X. }
  destruct (timedelta_in_range x) as [td E]; [fold us; lia|].
  exists td. split; [exact E|].
  destruct (timedelta_microseconds x td E) as [T M]. fold us in T, M.
  unfold timestamp_fields, total_seconds. rewrite T, M.
  rewrite (int_of_division us 1000000)
    by (try (Z.div_mod_to_equations; lia); lia).
  rewrite (int_of_division (us mod 1000000) 1000)
    by (Z.div_mod_to_equations; lia).
  Z.div_mod_to_equations. lia.
Qed.

(** X18.  A negative time of less than a second loses its sign: for a
    float [-0.999999 <= x < 0], [timedelta] keeps between -999999 and 0
    microseconds, and [format_timestamp] prints hours, minutes and seconds
    as [00] and as milliseconds those of the microsecond field of the
    normalised duration, so that for instance -0.5 is printed like 0.5. *)
Theorem negative_fraction_prints_without_sign (x : Q) :
  (round x == x)%Q -> (- (999999 # 1000000) <= x)%Q -> (x < 0)%Q ->
  let us := total_microseconds x in
  (-999999 <= us <= 0)%Z
  /\ format_timestamp x
     = Some ("00:00:00," ++ format_int 3 ((us mod 1000000) / 1000))%string.
Proof.
  intros _ Lo Hi us.
  generalize (total_microseconds_negative_fraction x Lo Hi). fold us.
  intros B. split; [exact B|].
  unfold format_timestamp.
  destruct (timedelta_in_range x) as [td E]; [fold us; lia|].
  rewrite E.
  destruct (timedelta_microseconds x td E) as [T M]. fold us in T, M.
  unfold timestamp_fields, total_seconds. rewrite T, M.
  rewrite (int_of_division (us mod 1000000) 1000)
    by (Z.div_mod_to_equations; lia).
  assert (Z0 : Py.int (div_int us 1000000) = 0%Z).
  { unfold div_int.
    set (q := (inject_Z us / inject_Z 1000000)%Q).
    destruct (round_between q 21 (-2097151) 0) as [L U].
    - lia.
    - apply Qabs_Qlt_condition.
      change (inject_Z (2 ^ (53 - 21))) with 4294967296%Q.
      unfold q, Qlt, Qdiv, Qmult, Qinv, inject_Z. simpl. lia.
    - change (2 ^ 21)%Z with 2097152%Z.
      unfold q, Qle, Qdiv, Qmult, Qinv, inject_Z. simpl. lia.
    - change (2 ^ 21)%Z with 2097152%Z.
      unfold q, Qle, Qdiv, Qmult, Qinv, inject_Z. simpl. lia.
    - change (2 ^ 21)%Z with 2097152%Z in L, U.
      apply int_of_fraction.
      + eapply Qlt_le_trans; [|exact L]. reflexivity.
      + eapply Qle_lt_trans; [exact U|]. reflexivity. }
  rewrite Z0. reflexivity.
Qed.

End FormatTimestamp.

Section MoreInstances.

Import Py Reading FacelessVideoService FacelessReelAgent.
Import SlideshowPlan SlideshowFiles PyRe ReelAgentCaptions VideoServiceCaptions.
Import Timestamp.

Lemma slideshow_stops_at_first_failure_witness :
  outcome (_build_slideshow world_second_merge_fails 1
             ["a.png"; "b.png"; "c.png"]%string 12 "tmp")
  = Raise (RuntimeError "FFmpeg failed"%string)
  /\ length (events (_build_slideshow world_second_merge_fails 1
                       ["a.png"; "b.png"; "c.png"]%string 12 "tmp")) = 5.
Proof.
  destruct (slideshow_stops_at_first_failure world_second_merge_fails 1%Q
              ["a.png"; "b.png"; "c.png"]%string 12%Q "tmp") as [E O].
  - discriminate.
  - split.
    + rewrite O. vm_compute. reflexivity.
    + rewrite E. vm_compute. reflexivity.
Defined.

Lemma slideshow_files_never_clash_witness :
  NoDup (files_written (plan 1 ["a.png"; "b.png"]%string 12 "tmp")).
Proof.
  apply (slideshow_files_never_clash 1%Q ["a.png"; "b.png"]%string 12%Q
           "tmp").
  discriminate.
Defined.

Lemma faceless_captions_tile_the_slideshow_witness :
  tiles 3
    (map (fun c : str * Q * Q => (snd (fst c), snd c))
       (_build_captions 3 3 (text "[0:00-0:05] Hello world. Bye now!") 12))
    (3 + usable_duration 3 3 12).
Proof.
  apply (faceless_captions_tile_the_slideshow 3%Q 3%Q
           (text "[0:00-0:05] Hello world. Bye now!") 12%Q).
  - vm_compute. discriminate.
  - vm_compute. reflexivity.
Defined.

Lemma captions_reach_the_final_mix_witness :
  exists start end_ second,
    final_mix true "font.ttf" "tmp/concat.mp4" "vo.mp3"
      (Some (_build_captions 3 3 (text "It's 5:30. Go!") 12)) "out.mp4"
    = (false,
       {| mix_inputs := ["tmp/concat.mp4"; "vo.mp3"]%string;
          vf := Some [drawtext (text "It'\''s 5\:30.") "font.ttf"
                        (VideoBuilder.F2 start) (VideoBuilder.F2 end_);
                      second];
          mix_output := "out.mp4" |})
    /\ (start == 3)%Q /\ (end_ == 6)%Q.
Proof.
  destruct (captions_reach_the_final_mix true "font.ttf" "tmp/concat.mp4"
              "vo.mp3" "out.mp4" 3%Q 3%Q (text "It's 5:30. Go!") 12%Q
              ltac:(discriminate) ltac:(discriminate))
    as [_ [_ [_ [A _]]]].
  destruct A as [A _]; [reflexivity|vm_compute; discriminate|].
  rewrite (A eq_refl).
  eexists _, _, _. split; [vm_compute; reflexivity|].
  split; reflexivity.
Defined.

Lemma agent_images_all_get_a_clip_witness :
  ["a.png"; "b.png"]%string <> []
  /\ filter (path_isfile world_with_all_files) ["a.png"; "b.png"]%string
     = ["a.png"; "b.png"]%string.
Proof.
  destruct (agent_images_all_get_a_clip world_with_all_files
              ["a.png"; "b.png"]%string (Some "script"%string) None
              ["a.png"; "b.png"]%string 1%Q 12%Q "tmp" eq_refl)
    as [A [B _]].
  split; [exact A|exact B].
Defined.

Lemma timestamp_fields_read_back_witness :
  (Qabs (inject_Z (total_microseconds (7323 # 2)) - (7323 # 2) * 1000000)
   <= (1 # 2) + (1 # 17179869184))%Q
  /\ exists td,
       timedelta_of_seconds (7323 # 2) = Some td
       /\ let '(hours, minutes, secs, millis) := timestamp_fields td in
          (0 <= hours /\ 0 <= minutes < 60 /\ 0 <= secs < 60
           /\ 0 <= millis < 1000
           /\ ((hours * 60 + minutes) * 60 + secs) * 1000 + millis
              = total_microseconds (7323 # 2) / 1000)%Z.
Proof.
  apply (timestamp_fields_read_back (7323 # 2)).
  - vm_compute. reflexivity.
  - discriminate.
  - reflexivity.
Defined.

Lemma negative_fraction_prints_without_sign_witness :
  format_timestamp (-4612838939931995 # 2305843009213693952)
  = Some "00:00:00,998"%string.
Proof.
  destruct (negative_fraction_prints_without_sign
              (-4612838939931995 # 2305843009213693952)) as [_ E].
  - vm_compute. reflexivity.
  - discriminate.
  - reflexivity.
  - rewrite E. vm_compute. reflexivity.
Defined.

(** The float nearest to 0.2499995 lies below it, but its product with
    [1e6] rounds to 249999.5 and then to the even 250000: the timestamp
    shows 250 milliseconds. *)
Example product_is_rounded_before_the_microseconds :
  total_microseconds (4503590620171241 # 18014398509481984) = 250000%Z
  /\ format_timestamp (4503590620171241 # 18014398509481984)
     = Some "00:00:00,250"%string.
Proof. split; vm_compute; reflexivity. Qed.

(** A full second below zero keeps its sign, in the hours. *)
Example negative_second_prints_a_sign :
  format_timestamp (-1) = Some "-1:59:59,000"%string.
Proof. vm_compute. reflexivity. Qed.

End MoreInstances.

Section FramesTile.

Import Py Reading CaptionGenerator VideoBuilder Wiring FrameWindows.

Lemma tiles_app (xs : list (Q * Q)) :
  forall a m ys b, tiles a xs m -> tiles m ys b -> tiles a (xs ++ ys) b.
Proof.
  induction xs as [|x xs IH]; intros a m ys b Tx Ty.
  - inversion Tx; subst. simpl. apply (tiles_start ys m a b Ty).
    symmetry. assumption.
  - inversion Tx; subst. simpl. constructor; try assumption.
    eapply IH; eassumption.
Qed.

Lemma tiles_same (ws ws' : list (Q * Q)) :
  Forall2 same_window ws ws' -> forall a b, tiles a ws b -> tiles a ws' b.
Proof.
  induction 1 as [|x y ws ws' [E0 E1] F IH]; intros a b T.
  - inversion T; subst. constructor. assumption.
  - inversion T; subst. destruct y as [u0 u1]. cbn [fst snd] in E0, E1.
    constructor.
    + rewrite <- E0. assumption.
    + rewrite <- E0, <- E1. assumption.
    + apply IH. eapply tiles_start; eassumption.
Qed.

Lemma forall2_nth {A B : Type} (R : A -> B -> Prop) (l : list A) :
  forall l',
    length l = length l' ->
    (forall i x y, nth_error l i = Some x -> nth_error l' i = Some y -> R x y) ->
    Forall2 R l l'.
Proof.
  induction l as [|x l IH]; intros [|y l'] L H; try discriminate.
  - constructor.
  - constructor.
    + apply (H 0); reflexivity.
    + apply IH; [simpl in L; lia|]. intros i a b Ha Hb.
      apply (H (S i)); assumption.
Qed.

(** The word windows of chunks whose windows tile a range tile it too. *)
Lemma word_windows_tile (wins : list (Q * Q)) :
  forall chunks a b,
    tiles a wins b -> length chunks = length wins ->
    Forall (fun c => 1 <= length (split c)) chunks ->
    tiles a (word_windows chunks wins) b.
Proof.
  induction wins as [|[t0 t1] wins IH]; intros chunks a b T L F.
  - destruct chunks; [|discriminate]. exact T.
  - destruct chunks as [|c chunks]; [discriminate|].
    inversion T; subst. inversion F; subst.
    unfold word_windows. cbn [combine flat_map].
    apply (tiles_start _ t0 a b); [|assumption].
    eapply tiles_app.
    + apply tiles_sub_windows; [|assumption].
      intros E. rewrite E in *. simpl in *. lia.
    + apply IH; [assumption|simpl in L; lia|assumption].
Qed.

Lemma word_windows_nth (chunks : list str) :
  forall wins ci chunk chunkStart chunkEnd w,
    nth_error chunks ci = Some chunk ->
    nth_error wins ci = Some (chunkStart, chunkEnd) ->
    w < length (split chunk) ->
    nth_error (word_windows chunks wins) (words_before chunks ci + w)
    = Some (sub_window chunkStart chunkEnd (split chunk) w).
Proof.
  induction chunks as [|c chunks IH];
    intros wins ci chunk cs ce w Hc Hw Hlt.
  - destruct ci; discriminate.
  - destruct wins as [|[t0 t1] wins]; [destruct ci; discriminate|].
    unfold word_windows. cbn [combine flat_map].
    destruct ci as [|ci].
    + simpl in Hc, Hw. injection Hc as ->. injection Hw as -> ->.
      change (words_before (chunk :: chunks) 0) with 0. cbn [Nat.add].
      rewrite nth_error_app1 by (rewrite length_map, length_seq; exact Hlt).
      rewrite nth_error_map.
      rewrite (nth_error_nth' _ 0) by (rewrite length_seq; exact Hlt).
      rewrite seq_nth by exact Hlt. reflexivity.
    + simpl in Hc, Hw. rewrite words_before_cons.
      rewrite nth_error_app2 by (rewrite length_map, length_seq; lia).
      rewrite length_map, length_seq.
      replace (length (split c) + words_before chunks ci + w
               - length (split c))
        with (words_before chunks ci + w) by lia.
      apply (IH wins ci chunk cs ce w Hc Hw Hlt).
Qed.

Lemma word_windows_length (chunks : list str) :
  forall wins,
    length chunks = length wins ->
    length (word_windows chunks wins) = words_before chunks (length chunks).
Proof.
  induction chunks as [|c chunks IH]; intros [|[t0 t1] wins] L;
    try discriminate; [reflexivity|].
  unfold word_windows. cbn [combine flat_map length].
  rewrite length_app, length_map, length_seq, words_before_cons.
  f_equal. apply IH. simpl in L. lia.
Qed.

(** The window that the builder chooses for the frame of word [w] of
    chunk [ci], when there is one frame per word. *)
Lemma chosen_window_of_frame (script : str) (wins : list (Q * Q))
  (ci : nat) (chunk : str) (chunkStart chunkEnd : Q) (w : nat) :
  let chunks := split_into_chunks script in
  length wins = length chunks ->
  nth_error chunks ci = Some chunk ->
  nth_error wins ci = Some (chunkStart, chunkEnd) ->
  w < length (split chunk) ->
  exists t0 t1,
    chosen_window chunks wins (words_before chunks (length chunks))
      (words_before chunks ci + w) = Ok (t0, t1)
    /\ same_window (sub_window chunkStart chunkEnd (split chunk) w) (t0, t1).
Proof.
  intros chunks Hw B W C. unfold chosen_window.
  destruct (length chunks <? words_before chunks (length chunks)) eqn:Mode.
  - exists (fst (sub_window chunkStart chunkEnd (split chunk) w)),
      (snd (sub_window chunkStart chunkEnd (split chunk) w)).
    rewrite (typewriter_window_at chunks _ ci chunk _ _ w B W C).
    rewrite <- surjective_pairing. repeat split; reflexivity.
  - apply Nat.ltb_ge in Mode.
    assert (F : Forall (fun c => 1 <= length (split c)) chunks).
    { eapply Forall_impl; [|apply (split_into_chunks_stripped script)].
      intros c H. apply H. }
    destruct (one_word_chunks chunks F Mode ci chunk B) as [One Same].
    assert (w = 0) by lia. subst w. rewrite Same, Nat.add_0_r.
    assert (Lc : ci < length chunks).
    { apply nth_error_Some. congruence. }
    destruct (sub_window_one_word chunkStart chunkEnd (split chunk) One)
      as [S0 S1].
    exists chunkStart, chunkEnd. split.
    + unfold static_window. rewrite Hw.
      rewrite Z.min_l by lia. apply index_nth_error. exact W.
    + split; assumption.
Qed.

Lemma caption_parts_windows (idx : nat) (wf : nat -> result (Q * Q))
  (n : nat) (last : filter_part) :
  enabled_window last = [] ->
  flat_map enabled_window (map (caption_part idx wf) (seq 0 n) ++ [last])
  = map (fun i => (fst (window_or_zero (wf i)), snd (window_or_zero (wf i))))
      (seq 0 n).
Proof.
  intros L. rewrite flat_map_app. cbn [flat_map]. rewrite L, !app_nil_r.
  induction (seq 0 n) as [|i l IH]; [reflexivity|].
  cbn [map flat_map caption_part enabled_window app]. rewrite IH.
  reflexivity.
Qed.

(** X19.  The caption frames of [generate] cover the narration without
    gap or overlap: with a script that has a chunk and a voiceover of
    positive duration, the windows of the caption overlays, in the order of
    the frames, start when the intro ends, each start where the previous
    one ends with a positive length, and the last ends at the outro
    offset. *)
Theorem caption_frames_tile_the_narration
  (script : str) (temp_dir : string) (base : config) (voice_duration : Q)
  (caption_start_idx : nat) (parts : list filter_part) :
  (0 < voice_duration)%Q ->
  caption_images base
  = Some (map (ReelGenerator.caption_path temp_dir)
            (range (length (render_captions_to_images script true)))) ->
  VideoBuilder.script base = Some script ->
  split_into_chunks script <> [] ->
  caption_stage base voice_duration caption_start_idx = Ok parts ->
  tiles INTRO_DURATION (flat_map enabled_window parts)
    (outro_offset voice_duration).
Proof.
  intros HD Hc Hs N Hp.
  set (chunks := split_into_chunks script) in *.
  assert (Cons : captions_consistent base voice_duration).
  { apply (generate_builder_config_consistent script temp_dir); assumption. }
  rewrite (caption_stage_exact base voice_duration _ Cons) in Hp.
  apply Ok_inj in Hp. subst parts.
  assert (F : Forall (fun c => 1 <= length (split c)) chunks).
  { eapply Forall_impl; [|apply (split_into_chunks_stripped script)].
    intros c H. apply H. }
  set (n := words_before chunks (length chunks)).
  assert (Hn : length (get (caption_images base) []) = n).
  { rewrite Hc. cbn [get]. unfold range.
    rewrite length_map, length_seq. unfold render_captions_to_images.
    apply rendered_frames_length. }
  assert (Hk : script_chunks base = chunks).
  { unfold script_chunks. rewrite Hs. reflexivity. }
  assert (Pos : 1 <= n).
  { generalize (words_before_at_least chunks F). fold n.
    destruct chunks; [congruence|]. simpl. lia. }
  assert (Sh : captions_shown base voice_duration = true).
  { unfold captions_shown. rewrite Hn. apply andb_true_iff. split.
    - apply Nat.ltb_lt. lia.
    - apply negb_true_iff. destruct (Qle_bool _ _) eqn:G; [|reflexivity].
      apply Qle_bool_iff in G. unfold outro_offset in G. lra. }
  assert (R : (INTRO_DURATION < outro_offset voice_duration)%Q).
  { unfold outro_offset. lra. }
  destruct (script_windows_tile script INTRO_DURATION
              (outro_offset voice_duration) N R) as [ws [E [L [T _]]]].
  fold chunks in E, L.
  assert (Ws : script_chunk_windows base voice_duration = ws).
  { generalize (compute_chunk_windows_place INTRO_DURATION
                  (outro_offset voice_duration - INTRO_DURATION) chunks N).
    rewrite E. intros X. apply Ok_inj in X. rewrite X.
    unfold script_chunk_windows. rewrite Hk. reflexivity. }
  unfold caption_parts. rewrite Sh, Hn, Hk, Ws.
  rewrite caption_parts_windows by reflexivity.
  apply (tiles_same (word_windows chunks ws)).
  2:{ apply word_windows_tile; [exact T|symmetry; exact L|exact F]. }
  apply forall2_nth.
  { rewrite length_map, length_seq. apply word_windows_length.
    symmetry. exact L. }
  intros i x y Hx Hy.
  assert (Hi : i < n).
  { assert (X : i < length (map (fun i =>
                                   (fst (window_or_zero
                                           (chosen_window chunks ws n i)),
                                    snd (window_or_zero
                                           (chosen_window chunks ws n i))))
                              (seq 0 n))).
    { apply nth_error_Some. congruence. }
    rewrite length_map, length_seq in X. exact X. }
  rewrite nth_error_map, (nth_error_nth' _ 0) in Hy
    by (rewrite length_seq; exact Hi).
  rewrite seq_nth in Hy by exact Hi. cbn [option_map Nat.add] in Hy.
  injection Hy as <-.
  destruct (nth_error (render_captions_to_images script true) i)
    as [[ci wz]|] eqn:Fr.
  2:{ apply nth_error_None in Fr. unfold render_captions_to_images in Fr.
      rewrite rendered_frames_length in Fr. fold chunks in Fr. fold n in Fr.
      lia. }
  destruct (rendered_frames_from chunks 0 i ci wz Fr)
    as [j [chunk [w [A [B [C [Dz Ei]]]]]]].
  simpl in A. subst j.
  assert (Lc : ci < length ws).
  { rewrite L. apply nth_error_Some. congruence. }
  destruct (nth_error ws ci) as [[cs ce]|] eqn:W.
  2:{ apply nth_error_None in W. lia. }
  rewrite Ei in Hx. rewrite (word_windows_nth chunks ws ci chunk cs ce w B W C)
    in Hx. injection Hx as <-.
  destruct (chosen_window_of_frame script ws ci chunk cs ce w L B W C)
    as [t0 [t1 [Ch Sm]]].
  fold chunks in Ch. fold n in Ch. rewrite Ei, Ch. exact Sm.
Qed.

End FramesTile.

Section EvenSpacing.

Import Py Reading VideoBuilder Wiring.

(** X20.  The crossfades of [build_video] are evenly spaced: the crossfade
    that brings in middle image [k + 1] starts [2 + k * slot] seconds into
    the video, where [slot = (voice_duration + 1) / N] is the same for
    every image, and the crossfade into the outro at [3 + voice_duration]
    is the next step of the same progression. *)
Theorem crossfades_evenly_spaced (w : world) (cfg : config)
  (voice_duration : Q) (parts : list filter_part) (k : nat) :
  filter_graph w cfg voice_duration = Ok parts ->
  k < length (middle_images cfg) ->
  let N := length (middle_images cfg) in
  let slot := ((voice_duration + 1) / inject_Z (Z.of_nat N))%Q in
  exists a style offset,
    nth_error parts (N + 2 + k)
    = Some (xfade a (v (S k)) style (FRepr TRANSITION_DURATION) (F2 offset)
              (v_join (S k)))
    /\ (offset == 2 + inject_Z (Z.of_nat k) * slot)%Q
    /\ (outro_offset voice_duration
        == 2 + inject_Z (Z.of_nat N) * slot)%Q.
Proof.
  intros E Hk N slot. apply filter_graph_parts in E. subst parts.
  assert (Nz : ~ (inject_Z (Z.of_nat N) == 0)%Q).
  { unfold Qeq, inject_Z. simpl. unfold N. lia. }
  unfold graph_parts. fold N.
  set (per_image := per_image_duration voice_duration N).
  assert (P : (per_image - TRANSITION_DURATION == slot)%Q).
  { unfold per_image, per_image_duration.
    destruct (Nat.ltb_spec 0 N) as [_|X]; [|unfold N in X; lia].
    unfold slot, TRANSITION_DURATION. ring. }
  eexists _, _, _. split; [|split].
  - rewrite nth_error_app2;
      rewrite length_map; unfold enumerate;
      rewrite length_combine, length_seq, Nat.min_id, inputs_length;
      fold N; [|lia].
    replace (N + 2 + k - (N + 2)) with k by lia.
    rewrite nth_error_app1 by (rewrite length_map, length_seq; exact Hk).
    rewrite nth_error_map.
    rewrite (nth_error_nth' _ 0) by (rewrite length_seq; exact Hk).
    rewrite seq_nth by exact Hk. cbn [option_map Nat.add].
    unfold join_part_at. reflexivity.
  - rewrite cum_after_linear, P. unfold INTRO_DURATION, TRANSITION_DURATION.
    ring.
  - unfold outro_offset, INTRO_DURATION, slot. field. exact Nz.
Qed.

End EvenSpacing.

Section LastInstances.

Import Py Reading CaptionGenerator VideoBuilder Wiring FrameWindows.
Import Examples PipelineExamples.

Lemma caption_frames_tile_the_narration_witness :
  tiles INTRO_DURATION
    (flat_map enabled_window (caption_parts config_from_generate 5 5))
    (outro_offset 5).
Proof.
  apply (caption_frames_tile_the_narration (text "Hello world. Bye.")
           "temp" config_from_generate 5%Q 5
           (caption_parts config_from_generate 5 5)).
  - reflexivity.
  - vm_compute. reflexivity.
  - reflexivity.
  - vm_compute. discriminate.
  - vm_compute. reflexivity.
Defined.

Lemma crossfades_evenly_spaced_witness :
  exists a style offset,
    nth_error (graph_parts world_without_files scenario_config 20)
      (4 + 2 + 2)
    = Some (xfade a (v 3) style (FRepr TRANSITION_DURATION) (F2 offset)
              (v_join 3))
    /\ (offset == 2 + inject_Z 2 * ((20 + 1) / inject_Z 4))%Q
    /\ (outro_offset 20 == 2 + inject_Z 4 * ((20 + 1) / inject_Z 4))%Q.
Proof.
  apply (crossfades_evenly_spaced world_without_files scenario_config 20%Q
           (graph_parts world_without_files scenario_config 20) 2).
  - vm_compute. reflexivity.
  - simpl. lia.
Defined.

End LastInstances.

(* ===================================================================== *)
(** * The caption stage without captions                                  *)
(* ===================================================================== *)

Section CaptionPassthrough.

Import Py Reading CaptionGenerator VideoBuilder Wiring.

(** A script without chunks gives no caption frame, in either mode. *)
Lemma no_chunks_no_frames (script : str) (typewriter : bool) :
  split_into_chunks script = [] ->
  render_captions_to_images script typewriter = [].
Proof.
  intros E. unfold render_captions_to_images. rewrite E. reflexivity.
Qed.

(** Caption frames that were rendered from the script of the configuration
    always have a chunk under them. *)
Lemma rendered_frames_consistent (cfg : config) (voice_duration : Q)
  (typewriter : bool) :
  length (get (caption_images cfg) [])
  = length (render_captions_to_images (get (script cfg) []) typewriter) ->
  captions_consistent cfg voice_duration.
Proof.
  intros H. unfold captions_consistent.
  destruct (split_into_chunks (get (script cfg) [])) as [|c cs] eqn:E.
  - left. rewrite H, (no_chunks_no_frames _ _ E). reflexivity.
  - right. right. discriminate.
Qed.

(** When no caption is shown the caption stage is the passthrough alone. *)
Lemma caption_parts_passthrough (cfg : config) (voice_duration : Q)
  (idx : nat) :
  captions_consistent cfg voice_duration ->
  split_into_chunks (get (script cfg) []) = []
  \/ length (get (caption_images cfg) []) = 0 ->
  caption_parts cfg voice_duration idx = [null v_base_middle v_captioned].
Proof.
  intros C H. unfold caption_parts.
  destruct (captions_shown cfg voice_duration) eqn:G; [|reflexivity].
  exfalso. unfold captions_shown in G.
  apply andb_true_iff in G as [Gn Gd].
  apply Nat.ltb_lt in Gn. apply negb_true_iff in Gd.
  assert (D : (0 < voice_duration)%Q).
  { destruct (Qlt_le_dec 0 voice_duration) as [|Hle]; [assumption|].
    assert (X : Qle_bool (outro_offset voice_duration) INTRO_DURATION = true).
    { apply Qle_bool_iff. unfold outro_offset. lra. }
    congruence. }
  destruct H as [H|H]; [|lia].
  destruct C as [C|[C|C]]; [lia|lra|contradiction].
Qed.

(** C8.  Whenever the script has no chunk or there is no caption image, a
    built graph defines [v_captioned] exactly once, by the part
    [[v_base_middle]null[v_captioned]] that follows the definition of
    [v_base_middle]: a passthrough of the joined middle images and no
    overlay.  The graph is built for every configuration without caption
    images and for every configuration whose caption images were rendered
    from its own script, as all callers of [build_video] do: an empty
    script then has no frame either. *)
Theorem captions_pass_through_without_chunks
  (w : world) (cfg : config) (voice_duration : Q) :
  split_into_chunks (get (script cfg) []) = []
  \/ length (get (caption_images cfg) []) = 0 ->
  let N := length (middle_images cfg) in
  (forall parts,
      filter_graph w cfg voice_duration = Ok parts ->
      filter defines_captioned parts = [null v_base_middle v_captioned]
      /\ nth_error parts (2 * N + 2)
         = Some (null (if N =? 0 then v 0 else v_join N) v_base_middle)
      /\ nth_error parts (2 * N + 3)
         = Some (null v_base_middle v_captioned))
  /\ (length (get (caption_images cfg) []) = 0
      \/ (exists typewriter,
             length (get (caption_images cfg) [])
             = length (render_captions_to_images (get (script cfg) [])
                         typewriter)) ->
      exists parts cmd,
        filter_graph w cfg voice_duration = Ok parts
        /\ build_video w cfg voice_duration
           = Ok (cmd, ffmpeg_succeeds w stage_build_video)).
Proof.
  intros H N. split.
  - intros parts E.
    generalize (filter_graph_ok_consistent w cfg voice_duration parts E).
    intros C. apply filter_graph_parts in E. subst parts.
    unfold graph_parts. fold N.
    rewrite (caption_parts_passthrough cfg voice_duration _ C H).
    set (scaled := map _ (enumerate (inputs cfg))).
    set (joins := map _ (seq 0 N)).
    assert (Ls : length scaled = N + 2).
    { unfold scaled, enumerate.
      rewrite length_map, length_combine, length_seq, Nat.min_id.
      apply inputs_length. }
    assert (Lj : length joins = N).
    { unfold joins. rewrite length_map. apply length_seq. }
    split; [|split].
    + unfold scaled, joins. rewrite !filter_app.
      rewrite (plain_not_captioned _ (scaled_plain _ _)).
      rewrite (plain_not_captioned _ (joins_plain _ _)).
      generalize (title_stage_plain cfg voice_duration
                    (N + 2 + 1 + length (get (caption_images cfg) []))).
      rewrite title_stage_exact. cbn [fst]. intros Pt.
      rewrite (plain_not_captioned _ Pt).
      generalize (frame_stage_plain w cfg (titled_label cfg)
                    (N + 2 + 1 + length (get (caption_images cfg) [])
                     + title_count cfg)).
      rewrite frame_stage_exact. cbn [fst]. intros Pf.
      rewrite (plain_not_captioned _ Pf).
      reflexivity.
    + rewrite nth_error_app2 by lia. rewrite Ls.
      rewrite nth_error_app2 by lia. rewrite Lj.
      replace (2 * N + 2 - (N + 2) - N) with 0 by lia. reflexivity.
    + rewrite nth_error_app2 by lia. rewrite Ls.
      rewrite nth_error_app2 by lia. rewrite Lj.
      replace (2 * N + 3 - (N + 2) - N) with 1 by lia. reflexivity.
  - intros R.
    assert (C : captions_consistent cfg voice_duration).
    { destruct R as [R|[typewriter R]].
      - left. exact R.
      - apply (rendered_frames_consistent cfg voice_duration typewriter R). }
    exists (graph_parts w cfg voice_duration).
    destruct (build_video_ok w cfg voice_duration C) as [cmd B].
    exists cmd. split; [apply filter_graph_exact; exact C|exact B].
Qed.

End CaptionPassthrough.

Section PassthroughInstance.

Import Py Reading CaptionGenerator VideoBuilder Wiring.
Import LanggraphPipeline PipelineExamples.

Lemma captions_pass_through_without_chunks_witness :
  exists parts,
    filter_graph world_without_files
      (reel_config ["a.png"; "b.png"]%string [] result_after_voiceover) 5
    = Ok parts
    /\ filter defines_captioned parts = [null v_base_middle v_captioned]
    /\ nth_error parts 7 = Some (null v_base_middle v_captioned).
Proof.
  destruct (captions_pass_through_without_chunks world_without_files
              (reel_config ["a.png"; "b.png"]%string [] result_after_voiceover)
              5%Q) as [A B].
  - left. reflexivity.
  - destruct B as [parts [cmd [E _]]].
    + right. exists true. reflexivity.
    + exists parts. destruct (A parts E) as [F [_ P]].
      split; [exact E|]. split; [exact F|exact P].
Defined.

End PassthroughInstance.
